(** * EEPROM macro store of the ErgoDox firmware (ATMega32U4)

    A shallow embedding of [firmware/lib/layout/eeprom-macro/atmega32u4.c]:
    the key-action codec ([read_key_action], [write_key_action]), the record
    navigators ([find_key_action], [find_next_deleted],
    [find_next_nondeleted]) and the in-place compactor ([compress]).

    Conventions.
    - An EEMEM address ([void *]) is a [Z], and pointer arithmetic is
      addition in [Z]: the block of EEMEM ends at 1023 at most, and the
      theorems keep every address they follow inside the macros.
    - A [uint8_t] is a [Z] in [0, 255]; every assignment that can overflow
      is wrapped with [uint8], and the [uint16_t] byte count of [compress]
      with [uint16].
    - The calls to "lib/eeprom.h" are kept as they are written.  A read
      returns the byte in the EEPROM; a write or a copy is added to the
      queue, and functions return the operations they queue, in the order
      of the calls.
    - The loops of the C code that are not bounded by a counter take a
      [fuel] argument; running out of fuel is [None], never a result. *)

From Stdlib Require Import ZArith List Bool Lia.
Import ListNotations.
Local Open Scope Z_scope.

(** ** Option monad, for the loops that may run out of fuel *)

Notation "x <- e ;; k" :=
  (match e with Some x => k | None => None end)
  (at level 61, e at next level, right associativity).

Notation "' p <- e ;; k" :=
  (match e with Some p => k | None => None end)
  (at level 61, p pattern, e at next level, right associativity).

(** ** Machine integers *)

Definition uint8 (x : Z) : Z := x mod 256.
Definition uint16 (x : Z) : Z := x mod 65536.
Definition UINT8_MAX : Z := 255.

(** ** The EEPROM and its write queue *)

(** The EEPROM, as the bytes found at each address. *)
Definition eeprom := Z -> Z.

(** The operations that [eeprom__write] and [eeprom__copy] put in the queue. *)
Inductive nvm_op :=
| Write (to data : Z)
| Copy (to from length : Z).

(** What reaches the EEPROM when the queue is worked off, one byte at a
    time: a byte given by the caller, or a byte read from the EEPROM at that
    moment. *)
Inductive byte_op :=
| Put (to data : Z)
| Move (to from : Z).

Definition upd (m : eeprom) (a v : Z) : eeprom :=
  fun x => if x =? a then v else m x.

(** Modelled from the spec: [eeprom__read] of "lib/eeprom.h", whose code is
    not part of the sources at hand.  A read is served at once, from the
    EEPROM as it is: it does not see the writes still waiting in the queue. *)
Definition eeprom__read (m : eeprom) (from : Z) : Z := m from.

(** Modelled from the spec: [eeprom__write] of "lib/eeprom.h".  The write is
    queued; here, the operation that the call adds to the queue. *)
Definition eeprom__write (to data : Z) : nvm_op := Write to data.

(** Modelled from the spec: [eeprom__copy] of "lib/eeprom.h".  The copy is
    queued as well, and copies at most 255 bytes. *)
Definition eeprom__copy (to from length : Z) : nvm_op := Copy to from length.

(** The moves of [n] bytes from [from] on to [to] on, lowest address
    first. *)
Fixpoint moves (to from : Z) (n : nat) : list byte_op :=
  match n with
  | O => []
  | S n' => Move to from :: moves (to + 1) (from + 1) n'
  end.

(** Modelled from the spec: how a queued operation is carried out.  A write
    stores its byte; a copy moves its bytes one by one, lowest address
    first, each byte read when its turn comes. *)
Definition expand (o : nvm_op) : list byte_op :=
  match o with
  | Write to data => [Put to data]
  | Copy to from length => moves to from (Z.to_nat length)
  end.

Definition apply_byte (m : eeprom) (b : byte_op) : eeprom :=
  match b with
  | Put to data => upd m to data
  | Move to from => upd m to (m from)
  end.

Definition run (m : eeprom) (bs : list byte_op) : eeprom :=
  fold_left apply_byte bs m.

(** Modelled from the spec: the queue is worked off in FIFO order. *)
Definition flush (m : eeprom) (q : list nvm_op) : eeprom :=
  run m (flat_map expand q).

(** The bytes [bs] are in the EEPROM from address [a] on. *)
Fixpoint holds (m : eeprom) (a : Z) (bs : list Z) : Prop :=
  match bs with
  | [] => True
  | b :: bs' => m a = b /\ holds m (a + 1) bs'
  end.

(** ** Types *)

Record key_action_t := {
  pressed : bool;
  layer : Z;
  row : Z;
  column : Z
}.

Definition key_action_eqb (k k' : key_action_t) : bool :=
  Bool.eqb (pressed k) (pressed k')
  && (layer k =? layer k')
  && (row k =? row k')
  && (column k =? column k').

(** The fields of a [key_action_t] are [uint8_t]. *)
Definition uint8_fields (k : key_action_t) : Prop :=
  0 <= layer k < 256 /\ 0 <= row k < 256 /\ 0 <= column k < 256.

(** ** Macros *)

Definition TYPE_DELETED : Z := 0x00.
Definition TYPE_VALID_MACRO : Z := 0x01.
Definition TYPE_CONTINUED : Z := 0x02.
Definition TYPE_END : Z := 0xFF.

(** [layer <<= 2; row <<= 2; column <<= 2] on [uint8_t] fields. *)
Definition shift_pairs (k : key_action_t) : key_action_t :=
  {| pressed := pressed k;
     layer := uint8 (Z.shiftl (layer k) 2);
     row := uint8 (Z.shiftl (row k) 2);
     column := uint8 (Z.shiftl (column k) 2) |}.

(** ** read_key_action *)

(** [k.layer |= byte >> 4 & 0b11], and the same for row and column. *)
Definition or_pairs (k : key_action_t) (byte : Z) : key_action_t :=
  {| pressed := pressed k;
     layer := Z.lor (layer k) (Z.land (Z.shiftr byte 4) 3);
     row := Z.lor (row k) (Z.land (Z.shiftr byte 2) 3);
     column := Z.lor (column k) (Z.land (Z.shiftr byte 0) 3) |}.

(** The loop [while (byte >> 7)] of [read_key_action]. *)
Fixpoint read_key_action_loop (fuel : nat) (m : eeprom) (from byte : Z)
    (k : key_action_t) : option key_action_t :=
  if Z.shiftr byte 7 =? 0 then Some k
  else
    match fuel with
    | O => None
    | S fuel' =>
        let byte := eeprom__read m from in
        read_key_action_loop fuel' m (from + 1) byte
          (or_pairs (shift_pairs k) byte)
    end.

Definition read_key_action (fuel : nat) (m : eeprom) (from : Z)
    : option key_action_t :=
  let byte := eeprom__read m from in
  let k := {| pressed := negb (Z.land (Z.shiftr byte 6) 1 =? 0);
              layer := Z.land (Z.shiftr byte 4) 3;
              row := Z.land (Z.shiftr byte 2) 3;
              column := Z.land (Z.shiftr byte 0) 3 |} in
  read_key_action_loop fuel m (from + 1) byte k.

(** ** write_key_action *)

(** The first loop of [write_key_action]: the leading pairs of bits that
    need not be written.  [i] counts from 0 and the loop stops at 3, so
    three rounds are all it can make (see [skip_pairs_done]). *)
Fixpoint skip_pairs (n : nat) (i : Z) (k : key_action_t) : Z * key_action_t :=
  match n with
  | O => (i, k)
  | S n' =>
      if (i <? 3)
         && (Z.land (Z.lor (Z.lor (layer k) (row k)) (column k)) 0xC0 =? 0)
      then skip_pairs n' (i + 1) (shift_pairs k)
      else (i, k)
  end.

(** The second loop: one byte for every pair of bits that is left.  [i]
    counts up to 4, so four rounds are all it can make. *)
Fixpoint write_pairs (n : nat) (to i byte : Z) (k : key_action_t)
    : list nvm_op :=
  match n with
  | O => []
  | S n' =>
      if i <? 4 then
        let byte :=
          uint8 (Z.lor (Z.lor (Z.lor (Z.lor byte
                   (Z.shiftl (Z.b2z (i <? 3)) 7))
                   (Z.shiftr (Z.land (layer k) 0xC0) 2))
                   (Z.shiftr (Z.land (row k) 0xC0) 4))
                   (Z.shiftr (Z.land (column k) 0xC0) 6)) in
        eeprom__write to byte
          :: write_pairs n' (to + 1) (i + 1) (Z.shiftl 1 6) (shift_pairs k)
      else []
  end.

(** ** find_next_deleted, find_next_nondeleted *)

Fixpoint find_next_deleted (fuel : nat) (m : eeprom) (start : Z) : option Z :=
  match fuel with
  | O => None
  | S fuel' =>
      let type := eeprom__read m start in
      if type =? TYPE_END then Some 0
      else if type =? TYPE_DELETED then Some start
      else find_next_deleted fuel' m (start + eeprom__read m (start + 1))
  end.

Fixpoint find_next_nondeleted (fuel : nat) (m : eeprom) (start : Z)
    : option Z :=
  match fuel with
  | O => None
  | S fuel' =>
      let type := eeprom__read m start in
      if (type =? TYPE_DELETED) || (type =? TYPE_CONTINUED)
      then find_next_nondeleted fuel' m (start + eeprom__read m (start + 1))
      else Some start
  end.

(** ** compress *)

(** The variables of the module, with the EEPROM and its write queue. *)
Record store := {
  eemem : eeprom;
  queue : list nvm_op;
  end_macro : Z;
  new_end_macro : Z
}.

(** The [for] loop of [compress] that copies the bytes between
    [to_compress] and [next], at most [UINT8_MAX] at a time.  Returns the
    copies put in the queue and the final [to_overwrite]. *)
Fixpoint compress_copy (fuel : nat) (to_overwrite to_compress next : Z)
    : option (list nvm_op * Z) :=
  let length := uint16 (next - to_compress) in
  if length =? 0 then Some ([], to_overwrite)
  else
    match fuel with
    | O => None
    | S fuel' =>
        let length := if length >? UINT8_MAX then UINT8_MAX else length in
        '(ops, to_overwrite') <-
          compress_copy fuel' (to_overwrite + length) (to_compress + length)
            next ;;
        Some (eeprom__copy to_overwrite to_compress length :: ops,
              to_overwrite')
    end.

(** One round of the [while] loop of [compress].  Returns the operations
    put in the queue, in the order of the calls, and the new [to_overwrite]
    and [next]. *)
Definition compress_body (fuel : nat) (m : eeprom) (new_end : Z)
    (to_overwrite next : Z) : option (list nvm_op * Z * Z) :=
  to_compress <- find_next_nondeleted fuel m next ;;
  found <- find_next_deleted fuel m to_compress ;;
  let next := if found =? 0 then new_end else found in
  let type := eeprom__read m to_compress in
  let type_location := to_overwrite in
  let to_overwrite := to_overwrite + 1 in
  let to_compress := to_compress + 1 in
  '(copies, to_overwrite) <-
    compress_copy fuel to_overwrite to_compress next ;;
  let end_write :=
    if next =? new_end then []
    else [eeprom__write to_overwrite TYPE_END] in
  Some (copies ++ end_write ++ [eeprom__write type_location type],
        to_overwrite, next).

(** The [while (next != new_end_macro)] loop of [compress]. *)
Fixpoint compress_loop (rounds fuel : nat) (m : eeprom) (new_end : Z)
    (to_overwrite next : Z) : option (list nvm_op) :=
  if next =? new_end then Some []
  else
    match rounds with
    | O => None
    | S rounds' =>
        '(ops, to_overwrite', next') <-
          compress_body fuel m new_end to_overwrite next ;;
        rest <- compress_loop rounds' fuel m new_end to_overwrite' next' ;;
        Some (ops ++ rest)
    end.

Section Build.

(** The options of the build.  They are set in the options of the
    keyboard, which are not part of the sources at hand. *)
Variable OPT__EEPROM__EEPROM_MACRO__START : Z.
Variable OPT__EEPROM__EEPROM_MACRO__END : Z.

Definition EEMEM_START := OPT__EEPROM__EEPROM_MACRO__START.
Definition EEMEM_START_ADDRESS_START := EEMEM_START + 0.
Definition EEMEM_START_ADDRESS_END := EEMEM_START_ADDRESS_START + 1.
Definition EEMEM_END_ADDRESS_START := EEMEM_START_ADDRESS_END + 1.
Definition EEMEM_END_ADDRESS_END := EEMEM_END_ADDRESS_START + 1.
Definition EEMEM_VERSION_START := EEMEM_END_ADDRESS_END + 1.
Definition EEMEM_VERSION_END := EEMEM_VERSION_START + 0.
Definition EEMEM_MACROS_START := EEMEM_VERSION_END + 1.
Definition EEMEM_END := OPT__EEPROM__EEPROM_MACRO__END.
Definition EEMEM_MACROS_END := EEMEM_END - 0.

(** Returns the number of bytes written (0 on failure) and the writes put
    in the queue. *)
Definition write_key_action (to : Z) (k : key_action_t) : Z * list nvm_op :=
  if to >? EEMEM_END - 4 then (0, [])
  else
    let '(i, k') := skip_pairs 3 0 k in
    let written := uint8 (4 - i) in
    let byte := uint8 (Z.shiftl (Z.b2z (pressed k)) 6) in
    (written, write_pairs 4 to i byte k').

(** ** find_key_action *)

Fixpoint find_key_action_loop (fuel : nat) (m : eeprom) (current : Z)
    (k : key_action_t) : option Z :=
  match fuel with
  | O => None
  | S fuel' =>
      let type := eeprom__read m current in
      if type =? TYPE_END then Some 0
      else
        let continue :=
          find_key_action_loop fuel' m
            (current + eeprom__read m (current + 1)) k in
        if type =? TYPE_VALID_MACRO then
          k_current <- read_key_action fuel m (current + 2) ;;
          if key_action_eqb k k_current then Some current else continue
        else continue
  end.

Definition find_key_action (fuel : nat) (m : eeprom) (k : key_action_t)
    : option Z :=
  find_key_action_loop fuel m EEMEM_MACROS_START k.

(** The operations that [compress] puts in the queue. *)
Definition compress_ops (fuel : nat) (m : eeprom)
    (new_end : Z) : option (list nvm_op) :=
  to_overwrite <- find_next_deleted fuel m EEMEM_MACROS_START ;;
  if to_overwrite =? 0 then Some []
  else
    next <- find_next_nondeleted fuel m to_overwrite ;;
    ops <- compress_loop fuel fuel m new_end to_overwrite next ;;
    Some (eeprom__write to_overwrite TYPE_END :: ops).

Definition compress (fuel : nat) (st : store)
    : option store :=
  ops <- compress_ops fuel (eemem st) (new_end_macro st) ;;
  Some {| eemem := eemem st;
          queue := queue st ++ ops;
          end_macro := end_macro st;
          new_end_macro := new_end_macro st |}.

End Build.

(** The end of the keyboard scan cycle: the queue is worked off. *)
Definition flush_store (st : store) : store :=
  {| eemem := flush (eemem st) (queue st);
     queue := [];
     end_macro := end_macro st;
     new_end_macro := new_end_macro st |}.

(** ** The format of a key-action in the EEPROM *)

(** Pair [j] of the bits of [x]; pair 0 is the least significant. *)
Definition bit_pair (x : Z) (j : nat) : Z :=
  Z.land (Z.shiftr x (2 * Z.of_nat j)) 3.

(** A byte of a key-action:
    bit 7 continued, bit 6 pressed (or 1), then the pairs of layer, row and
    column. *)
Definition key_action_byte (continued p : bool) (l r c : Z) : Z :=
  128 * Z.b2z continued + 64 * Z.b2z p + 16 * l + 4 * r + c.

(** The bytes for the [n] low pairs of [k], most significant pair first;
    [p] goes to bit 6 of the first byte. *)
Fixpoint key_action_bytes (n : nat) (p : bool) (k : key_action_t) : list Z :=
  match n with
  | O => []
  | S n' =>
      key_action_byte (negb (Nat.eqb n' 0)) p
        (bit_pair (layer k) n') (bit_pair (row k) n') (bit_pair (column k) n')
        :: key_action_bytes n' true k
  end.

(** Pair [j] is zero in all of layer, row and column. *)
Definition zero_pair (k : key_action_t) (j : nat) : bool :=
  Z.lor (Z.lor (bit_pair (layer k) j) (bit_pair (row k) j))
    (bit_pair (column k) j) =? 0.

(** The number of leading pairs, at most 3, that are zero in all of layer,
    row and column. *)
Definition leading_zero_pairs (k : key_action_t) : nat :=
  if negb (zero_pair k 3) then 0%nat
  else if negb (zero_pair k 2) then 1%nat
  else if negb (zero_pair k 1) then 2%nat
  else 3%nat.

(** Writes of the bytes [bs] to [to], [to + 1], ... *)
Fixpoint writes (to : Z) (bs : list Z) : list nvm_op :=
  match bs with
  | [] => []
  | b :: bs' => Write to b :: writes (to + 1) bs'
  end.

(** What the loop of [read_key_action] makes of the [n] low pairs of [x]. *)
Fixpoint join_pairs (n : nat) (acc x : Z) : Z :=
  match n with
  | O => acc
  | S n' =>
      join_pairs n' (Z.lor (uint8 (Z.shiftl acc 2)) (bit_pair x n')) x
  end.

(** ** The macros in the EEPROM *)

(** A macro is the list of its bytes: type, length, data. *)
Definition macro_type (r : list Z) : Z := hd TYPE_END r.

Definition is_byte (b : Z) : bool := (0 <=? b) && (b <? 256).

(** The type is one of the three that have a length, the length counts all
    the bytes of the macro, and every byte is a byte. *)
Definition well_formed_macro (r : list Z) : bool :=
  match r with
  | type :: length :: _ =>
      ((type =? TYPE_DELETED) || (type =? TYPE_VALID_MACRO)
       || (type =? TYPE_CONTINUED))
      && (length =? Z.of_nat (List.length r))
      && forallb is_byte r
  | _ => false
  end.

(** The number of bytes of the macros [rs]. *)
Definition size (rs : list (list Z)) : Z := Z.of_nat (length (concat rs)).

(** The macros [rs], and after them the macro with [type == TYPE_END], are
    in the EEPROM from address [a] on. *)
Definition macros (m : eeprom) (a : Z) (rs : list (list Z)) : Prop :=
  forallb well_formed_macro rs = true /\ holds m a (concat rs ++ [TYPE_END]).

Definition deleted (r : list Z) : bool := macro_type r =? TYPE_DELETED.

(** The types that [find_next_nondeleted] steps over. *)
Definition skippable (r : list Z) : bool :=
  (macro_type r =? TYPE_DELETED) || (macro_type r =? TYPE_CONTINUED).

(** The macros before the first deleted one, and the rest. *)
Fixpoint before_deleted (rs : list (list Z)) : list (list Z) :=
  match rs with
  | [] => []
  | r :: rs' => if deleted r then [] else r :: before_deleted rs'
  end.

Fixpoint from_deleted (rs : list (list Z)) : list (list Z) :=
  match rs with
  | [] => []
  | r :: rs' => if deleted r then rs else from_deleted rs'
  end.

(** The leading macros that are deleted or continued, and the rest. *)
Fixpoint skipped (rs : list (list Z)) : list (list Z) :=
  match rs with
  | [] => []
  | r :: rs' => if skippable r then r :: skipped rs' else []
  end.

Fixpoint from_nondeleted (rs : list (list Z)) : list (list Z) :=
  match rs with
  | [] => []
  | r :: rs' => if skippable r then from_nondeleted rs' else rs
  end.

(** The macros that a compression keeps: a deleted macro goes, and so do
    the continued macros that follow it. *)
Fixpoint compressed (skipping : bool) (rs : list (list Z)) : list (list Z) :=
  match rs with
  | [] => []
  | r :: rs' =>
      if deleted r then compressed true rs'
      else if skipping && (macro_type r =? TYPE_CONTINUED)
           then compressed true rs'
           else r :: compressed false rs'
  end.

(** The first key-action of a valid macro ends inside the macro. *)
Definition key_action_ends (r : list Z) : bool :=
  existsb (fun byte => Z.shiftr byte 7 =? 0) (skipn 2 r).

(** An EEPROM with the bytes [bs] from address [a] on, erased elsewhere. *)
Definition eeprom_of (a : Z) (bs : list Z) : eeprom :=
  fun x => if x <? a then 0xFF else nth (Z.to_nat (x - a)) bs 0xFF.

(** The address that a byte operation writes. *)
Definition target (b : byte_op) : Z :=
  match b with
  | Put to _ => to
  | Move to _ => to
  end.

(** From [start] on, the EEPROM holds macros and then the macro with
    [type == TYPE_END]. *)
Definition parseable (start : Z) (m : eeprom) : Prop :=
  exists rs, macros m start rs.

(** The store as [compress] expects it: nothing waiting in the queue, the
    macros [rs] in the macro area, [end_macro] at the macro that ends them
    and [new_end_macro] right after it. *)
Definition well_formed (MACROS_START MACROS_END : Z) (st : store)
    (rs : list (list Z)) : Prop :=
  queue st = []
  /\ macros (eemem st) MACROS_START rs
  /\ end_macro st = MACROS_START + size rs
  /\ end_macro st <= MACROS_END
  /\ new_end_macro st = end_macro st + 1.

(** The macro [r] at address [a] is a valid macro that remaps [k]: its
    first key-action reads as [k]. *)
Definition remaps (m : eeprom) (a : Z) (r : list Z) (k : key_action_t)
    : Prop :=
  macro_type r = TYPE_VALID_MACRO
  /\ exists fuel, read_key_action fuel m (a + 2) = Some k.

(** No macro of [rs], which are at [a], remaps [k]. *)
Definition none_remaps (m : eeprom) (a : Z) (rs : list (list Z))
    (k : key_action_t) : Prop :=
  forall pre r post,
    rs = pre ++ r :: post -> ~ remaps m (a + size pre) r k.

(** In the operations [ops] of one round of [compress], the write of the
    type to [type_location] comes before every copy. *)
Definition type_before_copies (type_location : Z) (ops : list nvm_op)
    : Prop :=
  forall i j type to from length,
    nth_error ops i = Some (Write type_location type) ->
    nth_error ops j = Some (Copy to from length) ->
    (i < j)%nat.

(** *** An example: a valid macro, a deleted one, a valid one, a deleted
    one, with the macros starting at address 5 *)

Definition example_A : list Z := [0x01; 3; 0x05].
Definition example_B : list Z := [0x00; 3; 0x47].
Definition example_C : list Z := [0x01; 4; 0x46; 0x45].
Definition example_D : list Z := [0x00; 2].

Definition example_macros : list (list Z) :=
  [example_A; example_B; example_C; example_D].

Definition example_eeprom : eeprom :=
  eeprom_of 5 (concat example_macros ++ [TYPE_END]).

Definition example_store : store :=
  {| eemem := example_eeprom;
     queue := [];
     end_macro := 17;
     new_end_macro := 18 |}.

Definition example_key_action : key_action_t :=
  {| pressed := false; layer := 0x04; row := 0x19; column := 0x23 |}.

(** The macros of the example from the first deleted one on, at address 8. *)
Definition example_tail : list (list Z) :=
  [example_B; example_C; example_D].

(** The first key-action of [example_C], the byte [0x46]. *)
Definition example_first_C : key_action_t :=
  {| pressed := true; layer := 0; row := 1; column := 2 |}.

(** A field after [t] rounds of [shift_pairs]. *)
Definition shifted (t : nat) (x : Z) : Z :=
  Nat.iter t (fun y => uint8 (Z.shiftl y 2)) x.

(** All of layer, row and column are below [b]. *)
Definition all_below (k : key_action_t) (b : Z) : bool :=
  (layer k <? b) && (row k <? b) && (column k <? b).

(** The operation was queued by [eeprom__copy]. *)
Definition is_copy (o : nvm_op) : Prop :=
  match o with Copy _ _ _ => True | Write _ _ => False end.

(** ** Lookup in a list of macros *)

(** The macro [r], read on its own, is a valid macro that remaps [k]. *)
Definition remapping (k : key_action_t) (r : list Z) : bool :=
  (macro_type r =? TYPE_VALID_MACRO)
  && match read_key_action (length r) (eeprom_of 0 r) 2 with
     | Some k' => key_action_eqb k k'
     | None => false
     end.

(** The first macro of [rs] that remaps [k], with the number of bytes
    before it. *)
Fixpoint lookup (k : key_action_t) (rs : list (list Z))
    : option (Z * list Z) :=
  match rs with
  | [] => None
  | r :: rs' =>
      if remapping k r then Some (0, r)
      else
        match lookup k rs' with
        | Some (offset, r') => Some (Z.of_nat (length r) + offset, r')
        | None => None
        end
  end.

(** [rs'] is [rs] with some of its elements left out. *)
Inductive subsequence {A : Type} : list A -> list A -> Prop :=
| subsequence_nil : subsequence [] []
| subsequence_keep x rs' rs :
    subsequence rs' rs -> subsequence (x :: rs') (x :: rs)
| subsequence_drop x rs' rs :
    subsequence rs' rs -> subsequence rs' (x :: rs).

(** The operation is a copy of 1 to 255 bytes. *)
Definition is_chunk (o : nvm_op) : Prop :=
  match o with
  | Copy _ _ length => 1 <= length <= UINT8_MAX
  | Write _ _ => False
  end.

(** The operation writes a byte to an address from [lo] up to, and not
    including, [hi]. *)
Definition writes_byte_within (lo hi : Z) (o : nvm_op) : Prop :=
  match o with
  | Write to data => lo <= to < hi /\ 0 <= data < 256
  | Copy _ _ _ => False
  end.

(** [k] and [k'] have the same layer, row and column. *)
Definition same_key (k k' : key_action_t) : Prop :=
  layer k = layer k' /\ row k = row k' /\ column k = column k'.

(** One round of the loop of [read_key_action] on one field:
    [field <<= 2; field |= pair]. *)
Definition push_pair (field pair : Z) : Z :=
  Z.lor (uint8 (Z.shiftl field 2)) pair.

(** *** More examples *)

(** A key-action of five bytes. *)
Definition example_overlong : eeprom :=
  eeprom_of 0 [0xFF; 0xC6; 0xD8; 0xC7; 0x47].

(** The example, with another byte after the macros. *)
Definition example_eeprom_stale : eeprom := upd example_eeprom 30 0x01.

(** * Proofs *)

(** ** Bytes and pairs of bits *)

Lemma uint8_forall (f : Z -> bool) :
  forallb f (map Z.of_nat (seq 0 256)) = true ->
  forall x, 0 <= x < 256 -> f x = true.
Proof.
  intros H x Hx. rewrite forallb_forall in H. apply H.
  apply in_map_iff. exists (Z.to_nat x). split; [lia|]. apply in_seq. lia.
Qed.

Ltac by_uint8 f H :=
  apply Z.eqb_eq; apply (uint8_forall f); [vm_compute; reflexivity | exact H].

Lemma high_pair_2 x :
  0 <= x < 256 -> Z.shiftr (Z.land x 0xC0) 2 = 16 * (x / 64).
Proof.
  intros H. by_uint8 (fun x => Z.shiftr (Z.land x 0xC0) 2 =? 16 * (x / 64)) H.
Qed.

Lemma high_pair_4 x :
  0 <= x < 256 -> Z.shiftr (Z.land x 0xC0) 4 = 4 * (x / 64).
Proof.
  intros H. by_uint8 (fun x => Z.shiftr (Z.land x 0xC0) 4 =? 4 * (x / 64)) H.
Qed.

Lemma high_pair_6 x :
  0 <= x < 256 -> Z.shiftr (Z.land x 0xC0) 6 = x / 64.
Proof.
  intros H. by_uint8 (fun x => Z.shiftr (Z.land x 0xC0) 6 =? x / 64) H.
Qed.

Lemma high_pair_zero x :
  0 <= x < 256 -> (Z.land x 0xC0 =? 0) = (x <? 64).
Proof.
  intros H. apply eqb_prop.
  apply (uint8_forall (fun x => Bool.eqb (Z.land x 0xC0 =? 0) (x <? 64)));
    [vm_compute; reflexivity | exact H].
Qed.

Ltac pair_cases g :=
  let H := fresh in
  assert (H : g = 0 \/ g = 1 \/ g = 2 \/ g = 3) by lia;
  destruct H as [H | [H | [H | H]]]; subst g.

Lemma pack_byte continued p l r c :
  0 <= l < 256 -> 0 <= r < 256 -> 0 <= c < 256 ->
  uint8 (Z.lor (Z.lor (Z.lor (Z.lor (64 * Z.b2z p)
           (Z.shiftl (Z.b2z continued) 7))
           (Z.shiftr (Z.land l 0xC0) 2))
           (Z.shiftr (Z.land r 0xC0) 4))
           (Z.shiftr (Z.land c 0xC0) 6))
  = key_action_byte continued p (l / 64) (r / 64) (c / 64).
Proof.
  intros Hl Hr Hc.
  rewrite high_pair_2, high_pair_4, high_pair_6 by assumption.
  assert (0 <= l / 64 <= 3) by (Z.div_mod_to_equations; lia).
  assert (0 <= r / 64 <= 3) by (Z.div_mod_to_equations; lia).
  assert (0 <= c / 64 <= 3) by (Z.div_mod_to_equations; lia).
  generalize dependent (l / 64). generalize dependent (r / 64).
  generalize dependent (c / 64). clear. intros gc ? gr ? gl ?.
  pair_cases gl; pair_cases gr; pair_cases gc;
    destruct continued, p; reflexivity.
Qed.

Lemma unpack_byte continued p l r c :
  0 <= l <= 3 -> 0 <= r <= 3 -> 0 <= c <= 3 ->
  let byte := key_action_byte continued p l r c in
  (Z.shiftr byte 7 =? 0) = negb continued
  /\ negb (Z.land (Z.shiftr byte 6) 1 =? 0) = p
  /\ Z.land (Z.shiftr byte 4) 3 = l
  /\ Z.land (Z.shiftr byte 2) 3 = r
  /\ Z.land (Z.shiftr byte 0) 3 = c.
Proof.
  intros Hl Hr Hc.
  pair_cases l; pair_cases r; pair_cases c;
    destruct continued, p; repeat split; reflexivity.
Qed.

Lemma skip_test l r c :
  0 <= l < 256 -> 0 <= r < 256 -> 0 <= c < 256 ->
  (Z.land (Z.lor (Z.lor l r) c) 0xC0 =? 0)
  = (l <? 64) && (r <? 64) && (c <? 64).
Proof.
  intros Hl Hr Hc.
  rewrite !Z.land_lor_distr_l.
  rewrite <- (high_pair_zero l), <- (high_pair_zero r), <- (high_pair_zero c)
    by assumption.
  destruct (Z.land l 192 =? 0) eqn:E1, (Z.land r 192 =? 0) eqn:E2,
    (Z.land c 192 =? 0) eqn:E3; simpl;
    rewrite ?Z.eqb_eq, ?Z.eqb_neq in *;
    rewrite ?E1, ?E2, ?E3; try reflexivity;
    rewrite !Z.lor_eq_0_iff; tauto.
Qed.

(** ** The EEPROM *)

Lemma upd_same m a v : upd m a v a = v.
Proof. unfold upd. now rewrite Z.eqb_refl. Qed.

Lemma upd_other m a v x : x <> a -> upd m a v x = m x.
Proof. unfold upd. intros H. apply Z.eqb_neq in H. now rewrite H. Qed.

Lemma run_app m a b : run m (a ++ b) = run (run m a) b.
Proof. unfold run. apply fold_left_app. Qed.

Lemma flush_app m a b : flush m (a ++ b) = flush (flush m a) b.
Proof. unfold flush. rewrite flat_map_app. apply run_app. Qed.

Lemma flush_writes_below bs : forall m to x,
  x < to -> flush m (writes to bs) x = m x.
Proof.
  induction bs as [|b bs IH]; intros m to x Hx; [reflexivity|].
  change (flush m (writes to (b :: bs)))
    with (flush (upd m to b) (writes (to + 1) bs)).
  rewrite IH by lia. apply upd_other. lia.
Qed.

Lemma flush_writes_holds bs : forall m to, holds (flush m (writes to bs)) to bs.
Proof.
  induction bs as [|b bs IH]; intros m to; [exact I|].
  change (flush m (writes to (b :: bs)))
    with (flush (upd m to b) (writes (to + 1) bs)).
  split; [|apply IH].
  rewrite flush_writes_below by lia. apply upd_same.
Qed.

(** ** The key-action codec *)

Lemma bit_pair_range x j : 0 <= bit_pair x j <= 3.
Proof.
  unfold bit_pair. generalize (Z.shiftr x (2 * Z.of_nat j)). intros y.
  replace (Z.land y 3) with (y mod 4)
    by (symmetry; apply (Z.land_ones y 2); lia).
  Z.div_mod_to_equations; lia.
Qed.

Lemma iter_shift_pairs t k :
  Nat.iter t shift_pairs k
  = {| pressed := pressed k; layer := shifted t (layer k);
       row := shifted t (row k); column := shifted t (column k) |}.
Proof.
  induction t as [|t IH]; [now destruct k|].
  simpl. rewrite IH. reflexivity.
Qed.

Lemma shifted_pair t x :
  (t <= 3)%nat -> 0 <= x < 256 ->
  0 <= shifted t x < 256 /\ shifted t x / 64 = bit_pair x (3 - t).
Proof.
  intros Ht Hx.
  assert (E : ((0 <=? shifted t x) && (shifted t x <? 256)
               && (shifted t x / 64 =? bit_pair x (3 - t))) = true).
  { pose (f t x := (0 <=? shifted t x) && (shifted t x <? 256)
                    && (shifted t x / 64 =? bit_pair x (3 - t))).
    change (f t x = true).
    destruct t as [|[|[|[|t]]]]; [| | | |lia];
      apply uint8_forall; solve [vm_compute; reflexivity | exact Hx]. }
  apply andb_prop in E as [E E3]. apply andb_prop in E as [E1 E2].
  lia.
Qed.

Lemma lor_eqb_0 a b : (Z.lor a b =? 0) = (a =? 0) && (b =? 0).
Proof.
  apply eq_true_iff_eq. rewrite andb_true_iff, !Z.eqb_eq.
  apply Z.lor_eq_0_iff.
Qed.

Lemma zero_pair_fields k j :
  zero_pair k j
  = (bit_pair (layer k) j =? 0) && (bit_pair (row k) j =? 0)
    && (bit_pair (column k) j =? 0).
Proof. unfold zero_pair. now rewrite !lor_eqb_0. Qed.

(** One field: where its leading pairs are zero. *)
Lemma field_pairs x :
  0 <= x < 256 ->
  (bit_pair x 3 =? 0) = (x <? 64)
  /\ (x < 64 -> (bit_pair x 2 =? 0) = (x <? 16)
                /\ shifted 1 x = 4 * x)
  /\ (x < 16 -> (bit_pair x 1 =? 0) = (x <? 4)
                /\ shifted 2 x = 16 * x)
  /\ (x < 4 -> shifted 3 x = 64 * x).
Proof.
  intros Hx.
  pose (f x :=
    Bool.eqb (bit_pair x 3 =? 0) (x <? 64)
    && implb (x <? 64) (Bool.eqb (bit_pair x 2 =? 0) (x <? 16)
                        && (shifted 1 x =? 4 * x))
    && implb (x <? 16) (Bool.eqb (bit_pair x 1 =? 0) (x <? 4)
                        && (shifted 2 x =? 16 * x))
    && implb (x <? 4) (shifted 3 x =? 64 * x)).
  assert (E : f x = true)
    by (apply uint8_forall; [vm_compute; reflexivity | exact Hx]).
  unfold f in E.
  apply andb_prop in E as [E E4]. apply andb_prop in E as [E E3].
  apply andb_prop in E as [E1 E2]. apply eqb_prop in E1.
  split; [exact E1|].
  split; [|split]; intros H; apply Z.ltb_lt in H.
  - rewrite H in E2. simpl in E2. apply andb_prop in E2 as [E2 E2'].
    split; [now apply eqb_prop | now apply Z.eqb_eq].
  - rewrite H in E3. simpl in E3. apply andb_prop in E3 as [E3 E3'].
    split; [now apply eqb_prop | now apply Z.eqb_eq].
  - rewrite H in E4. simpl in E4. now apply Z.eqb_eq.
Qed.

Lemma all_below_true k b :
  all_below k b = true <-> layer k < b /\ row k < b /\ column k < b.
Proof. unfold all_below. rewrite !andb_true_iff, !Z.ltb_lt. tauto. Qed.

Lemma all_below_mono k a b :
  a <= b -> all_below k a = true -> all_below k b = true.
Proof. rewrite !all_below_true. lia. Qed.

Lemma all_below_false k a b :
  a <= b -> all_below k b = false -> all_below k a = false.
Proof.
  intros Hab Hb. destruct (all_below k a) eqn:Ha; [|reflexivity].
  apply (all_below_mono k a b Hab) in Ha. congruence.
Qed.

Lemma zero_pair_3 k :
  uint8_fields k -> zero_pair k 3 = all_below k 64.
Proof.
  intros (Hl & Hr & Hc). rewrite zero_pair_fields. unfold all_below.
  destruct (field_pairs _ Hl) as (-> & _).
  destruct (field_pairs _ Hr) as (-> & _).
  destruct (field_pairs _ Hc) as (-> & _).
  reflexivity.
Qed.

Lemma zero_pair_2 k :
  uint8_fields k -> all_below k 64 = true ->
  zero_pair k 2 = all_below k 16.
Proof.
  intros (Hl & Hr & Hc) Hb. apply all_below_true in Hb as (Bl & Br & Bc).
  rewrite zero_pair_fields. unfold all_below.
  destruct (field_pairs _ Hl) as (_ & L & _). destruct (L Bl) as [-> _].
  destruct (field_pairs _ Hr) as (_ & R & _). destruct (R Br) as [-> _].
  destruct (field_pairs _ Hc) as (_ & C & _). destruct (C Bc) as [-> _].
  reflexivity.
Qed.

Lemma zero_pair_1 k :
  uint8_fields k -> all_below k 16 = true ->
  zero_pair k 1 = all_below k 4.
Proof.
  intros (Hl & Hr & Hc) Hb. apply all_below_true in Hb as (Bl & Br & Bc).
  rewrite zero_pair_fields. unfold all_below.
  destruct (field_pairs _ Hl) as (_ & _ & L & _). destruct (L Bl) as [-> _].
  destruct (field_pairs _ Hr) as (_ & _ & R & _). destruct (R Br) as [-> _].
  destruct (field_pairs _ Hc) as (_ & _ & C & _). destruct (C Bc) as [-> _].
  reflexivity.
Qed.

(** The leading zero pairs, by the size of the fields. *)
Lemma leading_zero_pairs_below k :
  uint8_fields k ->
  leading_zero_pairs k
  = if all_below k 4 then 3%nat
    else if all_below k 16 then 2%nat
    else if all_below k 64 then 1%nat else 0%nat.
Proof.
  intros Hk. unfold leading_zero_pairs. rewrite zero_pair_3 by exact Hk.
  destruct (all_below k 64) eqn:E64; cbn [negb].
  2:{ rewrite (all_below_false k 4 64), (all_below_false k 16 64);
        (reflexivity || assumption || lia). }
  rewrite zero_pair_2 by assumption.
  destruct (all_below k 16) eqn:E16; cbn [negb].
  2:{ now rewrite (all_below_false k 4 16) by (assumption || lia). }
  rewrite zero_pair_1 by assumption.
  now destruct (all_below k 4).
Qed.

Lemma ltb_scale c x b : 0 < c -> (c * x <? c * b) = (x <? b).
Proof.
  intros Hc. destruct (Z.ltb_spec (c * x) (c * b)), (Z.ltb_spec x b);
    try reflexivity; nia.
Qed.

(** The test of the first loop of [write_key_action], after [t] rounds. *)
Lemma skip_test_iter t b k :
  uint8_fields k ->
  (t = 0%nat /\ b = 64) \/ (t = 1%nat /\ b = 16) \/ (t = 2%nat /\ b = 4) ->
  all_below k (4 * b) = true ->
  let k' := Nat.iter t shift_pairs k in
  (Z.land (Z.lor (Z.lor (layer k') (row k')) (column k')) 0xC0 =? 0)
  = all_below k b.
Proof.
  intros (Hl & Hr & Hc) Ht Hb k'. subst k'. rewrite iter_shift_pairs.
  cbn [layer row column].
  assert (t <= 3)%nat by lia.
  rewrite skip_test by (apply shifted_pair; assumption).
  apply all_below_true in Hb as (Bl & Br & Bc).
  destruct (field_pairs _ Hl) as (_ & L2 & L1 & _).
  destruct (field_pairs _ Hr) as (_ & R2 & R1 & _).
  destruct (field_pairs _ Hc) as (_ & C2 & C1 & _).
  unfold all_below.
  destruct Ht as [[-> ->] | [[-> ->] | [-> ->]]].
  - reflexivity.
  - destruct (L2 Bl) as [_ ->]. destruct (R2 Br) as [_ ->].
    destruct (C2 Bc) as [_ ->].
    now rewrite !(ltb_scale 4 _ 16) by lia.
  - destruct (L1 Bl) as [_ ->]. destruct (R1 Br) as [_ ->].
    destruct (C1 Bc) as [_ ->].
    now rewrite !(ltb_scale 16 _ 4) by lia.
Qed.

Lemma skip_pairs_spec k :
  uint8_fields k ->
  skip_pairs 3 0 k
  = (Z.of_nat (leading_zero_pairs k),
     Nat.iter (leading_zero_pairs k) shift_pairs k).
Proof.
  intros Hk. rewrite leading_zero_pairs_below by exact Hk.
  assert (H256 : all_below k (4 * 64) = true)
    by (apply all_below_true; unfold uint8_fields in Hk; lia).
  cbn [skip_pairs]. change (0 <? 3) with true. cbn [andb].
  pose proof (skip_test_iter 0 64 k Hk) as T0.
  cbv zeta in T0. cbn [Nat.iter nat_rect] in T0. rewrite T0 by (auto; lia).
  destruct (all_below k 64) eqn:E64.
  2:{ destruct (all_below k 4) eqn:E4;
        [apply (all_below_mono _ _ 64) in E4; [congruence | lia]|].
      destruct (all_below k 16) eqn:E16;
        [apply (all_below_mono _ _ 64) in E16; [congruence | lia]|].
      reflexivity. }
  change (0 + 1 <? 3) with true. cbn [andb].
  pose proof (skip_test_iter 1 16 k Hk) as T1.
  cbv zeta in T1. cbn [Nat.iter nat_rect] in T1. rewrite T1 by (auto; lia).
  destruct (all_below k 16) eqn:E16.
  2:{ destruct (all_below k 4) eqn:E4;
        [apply (all_below_mono _ _ 16) in E4; [congruence | lia]|].
      reflexivity. }
  change (0 + 1 + 1 <? 3) with true. cbn [andb].
  pose proof (skip_test_iter 2 4 k Hk) as T2.
  cbv zeta in T2. cbn [Nat.iter nat_rect] in T2. rewrite T2 by (auto; lia).
  destruct (all_below k 4); reflexivity.
Qed.

Lemma write_pairs_spec k :
  uint8_fields k ->
  forall n fuel to p,
  (n <= fuel)%nat -> (n <= 4)%nat ->
  write_pairs fuel to (4 - Z.of_nat n) (64 * Z.b2z p)
    (Nat.iter (4 - n) shift_pairs k)
  = writes to (key_action_bytes n p k).
Proof.
  intros (Hl & Hr & Hc).
  induction n as [|n IH]; intros fuel to p Hf Hn.
  - destruct fuel; reflexivity.
  - destruct fuel as [|fuel]; [lia|].
    cbn [write_pairs key_action_bytes writes].
    replace (4 - Z.of_nat (S n) <? 4) with true
      by (symmetry; apply Z.ltb_lt; lia).
    replace (4 - Z.of_nat (S n) <? 3) with (negb (Nat.eqb n 0))
      by (destruct n; [reflexivity | symmetry; apply Z.ltb_lt; lia]).
    unfold eeprom__write. f_equal; [f_equal|].
    + rewrite iter_shift_pairs. cbn [layer row column].
      destruct (shifted_pair (4 - S n) (layer k)) as [? El];
        [lia | assumption|].
      destruct (shifted_pair (4 - S n) (row k)) as [? Er];
        [lia | assumption|].
      destruct (shifted_pair (4 - S n) (column k)) as [? Ec];
        [lia | assumption|].
      rewrite pack_byte by assumption.
      rewrite El, Er, Ec.
      replace (3 - (4 - S n))%nat with n by lia. reflexivity.
    + replace (4 - Z.of_nat (S n) + 1) with (4 - Z.of_nat n) by lia.
      change (Z.shiftl 1 6) with (64 * Z.b2z true).
      replace (shift_pairs (Nat.iter (4 - S n) shift_pairs k))
        with (Nat.iter (4 - n) shift_pairs k)
        by (replace (4 - n)%nat with (S (4 - S n)) by lia; reflexivity).
      apply IH; lia.
Qed.

Lemma join_pairs_field n x :
  (n <= 3)%nat -> 0 <= x < 4 ^ Z.of_nat (S n) ->
  join_pairs n (bit_pair x n) x = x.
Proof.
  intros Hn Hx.
  pose (f n x := implb (x <? 4 ^ Z.of_nat (S n))
                   (join_pairs n (bit_pair x n) x =? x)).
  assert (E : f n x = true).
  { assert (0 <= x < 256).
    { split; [lia|]. apply Z.lt_le_trans with (1 := proj2 Hx).
      change 256 with (4 ^ 4). apply Z.pow_le_mono_r; lia. }
    destruct n as [|[|[|[|n]]]]; [| | | |lia];
      apply uint8_forall; solve [vm_compute; reflexivity | assumption]. }
  unfold f in E. replace (x <? 4 ^ Z.of_nat (S n)) with true in E
    by (symmetry; apply Z.ltb_lt; lia).
  now apply Z.eqb_eq.
Qed.

Lemma read_key_action_loop_spec k :
  forall n fuel m from byte acc,
  (n <= fuel)%nat ->
  holds m from (key_action_bytes n true k) ->
  (Z.shiftr byte 7 =? 0) = Nat.eqb n 0 ->
  read_key_action_loop fuel m from byte acc
  = Some {| pressed := pressed acc;
            layer := join_pairs n (layer acc) (layer k);
            row := join_pairs n (row acc) (row k);
            column := join_pairs n (column acc) (column k) |}.
Proof.
  induction n as [|n IH]; intros fuel m from byte acc Hf Hm Hb.
  - destruct fuel; cbn [read_key_action_loop]; rewrite Hb; now destruct acc.
  - destruct fuel as [|fuel]; [lia|].
    cbn [read_key_action_loop]. rewrite Hb. cbn [Nat.eqb].
    cbn [key_action_bytes] in Hm. destruct Hm as [Hm0 Hm].
    unfold eeprom__read. rewrite Hm0.
    destruct (unpack_byte (negb (Nat.eqb n 0)) true
                (bit_pair (layer k) n) (bit_pair (row k) n)
                (bit_pair (column k) n))
      as (U7 & _ & Ul & Ur & Uc); try apply bit_pair_range.
    rewrite (IH fuel m (from + 1) _ _ ltac:(lia) Hm)
      by (rewrite U7; apply negb_involutive).
    unfold or_pairs, shift_pairs. cbn [pressed layer row column join_pairs].
    rewrite Ul, Ur, Uc. reflexivity.
Qed.

(** Decoding the bytes of the [S n] low pairs of [k] gives [k] back, when
    the pairs above them are zero. *)
Lemma read_key_action_bytes n k p fuel m from :
  (n <= 3)%nat -> (n <= fuel)%nat ->
  0 <= layer k < 4 ^ Z.of_nat (S n) ->
  0 <= row k < 4 ^ Z.of_nat (S n) ->
  0 <= column k < 4 ^ Z.of_nat (S n) ->
  holds m from (key_action_bytes (S n) p k) ->
  read_key_action fuel m from
  = Some {| pressed := p; layer := layer k; row := row k;
            column := column k |}.
Proof.
  intros Hn Hf Hl Hr Hc Hm. unfold read_key_action.
  cbn [key_action_bytes] in Hm. destruct Hm as [Hm0 Hm].
  unfold eeprom__read. rewrite Hm0.
  destruct (unpack_byte (negb (Nat.eqb n 0)) p
              (bit_pair (layer k) n) (bit_pair (row k) n)
              (bit_pair (column k) n))
    as (U7 & Up & Ul & Ur & Uc); try apply bit_pair_range.
  rewrite (read_key_action_loop_spec k n fuel m (from + 1) _ _ Hf Hm)
    by (rewrite U7; apply negb_involutive).
  cbn [pressed layer row column]. rewrite Up, Ul, Ur, Uc.
  now rewrite !join_pairs_field by assumption.
Qed.

Lemma leading_zero_pairs_bound k :
  uint8_fields k ->
  (leading_zero_pairs k <= 3)%nat
  /\ all_below k (4 ^ Z.of_nat (4 - leading_zero_pairs k)) = true.
Proof.
  intros Hk. rewrite leading_zero_pairs_below by exact Hk.
  destruct (all_below k 4) eqn:E4; [split; [lia | exact E4]|].
  destruct (all_below k 16) eqn:E16; [split; [lia | exact E16]|].
  destruct (all_below k 64) eqn:E64; [split; [lia | exact E64]|].
  split; [lia|]. apply all_below_true. unfold uint8_fields in Hk.
  change (4 ^ Z.of_nat (4 - 0)) with 256. lia.
Qed.

Lemma gtb_false a b : a <= b -> (a >? b) = false.
Proof. intros H. rewrite Z.gtb_ltb. apply Z.ltb_ge. exact H. Qed.

Lemma gtb_true a b : a > b -> (a >? b) = true.
Proof. intros H. rewrite Z.gtb_ltb. apply Z.ltb_lt. lia. Qed.

Section Codec.

Variable OPT__EEPROM__EEPROM_MACRO__END : Z.
Local Notation "'END'" := (EEMEM_END OPT__EEPROM__EEPROM_MACRO__END).

(** What a successful [write_key_action] returns and writes. *)
Lemma write_key_action_success to k :
  uint8_fields k -> to <= END - 4 ->
  write_key_action OPT__EEPROM__EEPROM_MACRO__END to k
  = (4 - Z.of_nat (leading_zero_pairs k),
     writes to (key_action_bytes (4 - leading_zero_pairs k) (pressed k) k)).
Proof.
  intros Hk Hto. unfold write_key_action.
  rewrite gtb_false by exact Hto.
  rewrite skip_pairs_spec by exact Hk.
  destruct (leading_zero_pairs_bound k Hk) as [Hs _].
  f_equal.
  - unfold uint8. apply Z.mod_small. lia.
  - replace (uint8 (Z.shiftl (Z.b2z (pressed k)) 6))
      with (64 * Z.b2z (pressed k)) by (now destruct (pressed k)).
    pose proof (write_pairs_spec k Hk (4 - leading_zero_pairs k) 4 to
                  (pressed k) ltac:(lia) ltac:(lia)) as W.
    replace (4 - (4 - leading_zero_pairs k))%nat
      with (leading_zero_pairs k) in W by lia.
    replace (4 - Z.of_nat (4 - leading_zero_pairs k))
      with (Z.of_nat (leading_zero_pairs k)) in W by lia.
    exact W.
Qed.

Lemma write_key_action_no_space to k :
  to > END - 4 ->
  write_key_action OPT__EEPROM__EEPROM_MACRO__END to k = (0, []).
Proof.
  intros Hto. unfold write_key_action.
  now rewrite gtb_true by exact Hto.
Qed.

End Codec.

Lemma holds_app m bs : forall a cs,
  holds m a (bs ++ cs)
  <-> holds m a bs /\ holds m (a + Z.of_nat (length bs)) cs.
Proof.
  induction bs as [|b bs IH]; intros a cs; cbn [app holds length].
  - rewrite Z.add_0_r. tauto.
  - rewrite IH. replace (a + 1 + Z.of_nat (length bs))
      with (a + Z.of_nat (S (length bs))) by lia. tauto.
Qed.

Lemma holds_nth m bs : forall a,
  holds m a bs
  <-> forall i, (i < length bs)%nat -> m (a + Z.of_nat i) = nth i bs 0.
Proof.
  induction bs as [|b bs IH]; intros a; cbn [holds length].
  - split; [intros _ i Hi; lia | trivial].
  - rewrite IH. split.
    + intros [H0 H] [|i] Hi; cbn [nth].
      * now rewrite Z.add_0_r.
      * rewrite <- H by lia. f_equal. lia.
    + intros H. split.
      * specialize (H 0%nat ltac:(lia)). cbn [nth] in H.
        now rewrite Z.add_0_r in H.
      * intros i Hi. specialize (H (S i) ltac:(lia)). cbn [nth] in H.
        rewrite <- H. f_equal. lia.
Qed.

Lemma holds_ext m m' bs : forall a,
  (forall x, a <= x < a + Z.of_nat (length bs) -> m' x = m x) ->
  holds m a bs -> holds m' a bs.
Proof.
  induction bs as [|b bs IH]; intros a E H; [exact I|].
  cbn [holds length] in *. destruct H as [H0 H]. split.
  - rewrite E by lia. exact H0.
  - apply IH; [|exact H]. intros x Hx. apply E. lia.
Qed.

Lemma size_nil : size [] = 0.
Proof. reflexivity. Qed.

Lemma size_cons r rs : size (r :: rs) = Z.of_nat (length r) + size rs.
Proof. unfold size. cbn [concat]. rewrite length_app. lia. Qed.

Lemma size_app rs rs' : size (rs ++ rs') = size rs + size rs'.
Proof. unfold size. rewrite concat_app, length_app. lia. Qed.

Lemma size_nonneg rs : 0 <= size rs.
Proof. unfold size. lia. Qed.

Lemma well_formed_macro_inv r :
  well_formed_macro r = true ->
  exists type length data,
    r = type :: length :: data
    /\ (type = TYPE_DELETED \/ type = TYPE_VALID_MACRO
        \/ type = TYPE_CONTINUED)
    /\ length = Z.of_nat (List.length r).
Proof.
  destruct r as [|type [|len data]]; try discriminate.
  unfold well_formed_macro. intros H.
  apply andb_prop in H as [H _]. apply andb_prop in H as [Ht Hn].
  exists type, len, data. split; [reflexivity|]. split.
  - apply orb_prop in Ht as [Ht | Ht]; [apply orb_prop in Ht as [Ht | Ht]|];
      apply Z.eqb_eq in Ht; auto.
  - now apply Z.eqb_eq.
Qed.

(** The end of the macros: what the navigators read there. *)
Lemma macros_nil m a : macros m a [] -> eeprom__read m a = TYPE_END.
Proof. intros [_ [H _]]. exact H. Qed.

(** The first macro: what the navigators read there, and where they go. *)
Lemma macros_cons m a r rs :
  macros m a (r :: rs) ->
  eeprom__read m a = macro_type r
  /\ macro_type r <> TYPE_END
  /\ eeprom__read m (a + 1) = Z.of_nat (length r)
  /\ (2 <= length r)%nat
  /\ holds m a r
  /\ macros m (a + Z.of_nat (length r)) rs.
Proof.
  intros [Hwf H]. cbn [forallb] in Hwf. apply andb_prop in Hwf as [Hr Hrs].
  cbn [concat] in H. rewrite <- app_assoc in H.
  apply holds_app in H as [Hh Ht].
  destruct (well_formed_macro_inv r Hr)
    as (type & len & data & E & Hty & Hlen).
  assert (H01 : m a = type /\ m (a + 1) = len)
    by (rewrite E in Hh; cbn [holds] in Hh; tauto).
  destruct H01 as [H0 H1].
  unfold eeprom__read, macro_type. rewrite H0, H1, Hlen. 
  split; [now rewrite E|]. split.
  { rewrite E. cbn [hd].
    unfold TYPE_END, TYPE_DELETED, TYPE_VALID_MACRO, TYPE_CONTINUED in *.
    lia. }
  split; [reflexivity|]. split; [rewrite E; cbn [length]; lia|].
  split; [exact Hh|]. split; assumption.
Qed.

Lemma macros_app m a rs rs' :
  macros m a (rs ++ rs') -> macros m (a + size rs) rs'.
Proof.
  revert a. induction rs as [|r rs IH]; intros a H.
  - now rewrite size_nil, Z.add_0_r.
  - apply macros_cons in H as (_ & _ & _ & _ & _ & H).
    apply IH in H. rewrite size_cons.
    now rewrite Z.add_assoc.
Qed.

(** *** find_next_nondeleted *)

Lemma skipped_split rs : rs = skipped rs ++ from_nondeleted rs.
Proof.
  induction rs as [|r rs IH]; [reflexivity|].
  cbn [skipped from_nondeleted]. destruct (skippable r); [|reflexivity].
  cbn [app]. now rewrite <- IH.
Qed.

Lemma before_deleted_split rs : rs = before_deleted rs ++ from_deleted rs.
Proof.
  induction rs as [|r rs IH]; [reflexivity|].
  cbn [before_deleted from_deleted]. destruct (deleted r); [reflexivity|].
  cbn [app]. now rewrite <- IH.
Qed.

Lemma find_next_nondeleted_macros rs : forall fuel m start,
  macros m start rs -> (length rs < fuel)%nat ->
  find_next_nondeleted fuel m start = Some (start + size (skipped rs)).
Proof.
  induction rs as [|r rs IH]; intros fuel m start H Hf;
    (destruct fuel as [|fuel]; [cbn [length] in Hf; lia|]);
    cbn [find_next_nondeleted skipped].
  - rewrite (macros_nil _ _ H). cbn. now rewrite Z.add_0_r.
  - apply macros_cons in H as (Ht & _ & Hl & _ & _ & H).
    rewrite Ht, Hl. fold (skippable r). destruct (skippable r).
    + rewrite (IH fuel m _ H) by (cbn [length] in Hf; lia).
      rewrite size_cons. f_equal. lia.
    + now rewrite size_nil, Z.add_0_r.
Qed.

Lemma find_next_deleted_macros rs : forall fuel m start,
  macros m start rs -> (length rs < fuel)%nat ->
  find_next_deleted fuel m start
  = Some (match from_deleted rs with
          | [] => 0
          | _ => start + size (before_deleted rs)
          end).
Proof.
  induction rs as [|r rs IH]; intros fuel m start H Hf;
    (destruct fuel as [|fuel]; [cbn [length] in Hf; lia|]);
    cbn [find_next_deleted from_deleted before_deleted].
  - now rewrite (macros_nil _ _ H).
  - apply macros_cons in H as (Ht & Hne & Hl & _ & _ & H).
    rewrite Ht, Hl. apply Z.eqb_neq in Hne. rewrite Hne.
    fold (deleted r). destruct (deleted r).
    + now rewrite size_nil, Z.add_0_r.
    + rewrite (IH fuel m _ H) by (cbn [length] in Hf; lia).
      destruct (from_deleted rs); [reflexivity|].
      rewrite size_cons. f_equal. lia.
Qed.

(** *** Byte operations *)

Lemma moves_app n : forall n' to from,
  moves to from (n + n')
  = moves to from n ++ moves (to + Z.of_nat n) (from + Z.of_nat n) n'.
Proof.
  induction n as [|n IH]; intros n' to from; cbn [moves Nat.add app].
  - now rewrite !Z.add_0_r.
  - rewrite IH. do 3 f_equal; lia.
Qed.

Lemma moves_target n : forall to from,
  Forall (fun b => to <= target b < to + Z.of_nat n) (moves to from n).
Proof.
  induction n as [|n IH]; intros to from; cbn [moves]; constructor.
  - cbn [target]. lia.
  - eapply Forall_impl; [|apply IH]. cbn beta. intros b Hb. lia.
Qed.

Lemma run_cons m b bs : run m (b :: bs) = run (apply_byte m b) bs.
Proof. reflexivity. Qed.

Lemma apply_byte_other m b x : x <> target b -> apply_byte m b x = m x.
Proof. destruct b; cbn [apply_byte target]; apply upd_other. Qed.

(** An address that no operation writes keeps its byte. *)
Lemma run_other bs : forall m x,
  Forall (fun b => target b <> x) bs -> run m bs x = m x.
Proof.
  induction bs as [|b bs IH]; intros m x H; [reflexivity|].
  inversion H as [|? ? Hb Hbs]; subst. rewrite run_cons, IH by exact Hbs.
  apply apply_byte_other. auto.
Qed.

(** A copy to a lower address. *)
Lemma run_moves n : forall m to from x,
  to < from ->
  run m (moves to from n) x
  = if (to <=? x) && (x <? to + Z.of_nat n) then m (x - to + from) else m x.
Proof.
  induction n as [|n IH]; intros m to from x Hlt; cbn [moves].
  - replace ((to <=? x) && (x <? to + Z.of_nat 0)) with false; [reflexivity|].
    symmetry. apply andb_false_iff. rewrite Z.leb_gt, Z.ltb_ge. lia.
  - rewrite run_cons, IH by lia. cbn [apply_byte].
    destruct (Z.leb_spec to x), (Z.ltb_spec x (to + Z.of_nat (S n)));
      destruct (Z.leb_spec (to + 1) x), (Z.ltb_spec x (to + 1 + Z.of_nat n));
      cbn [andb]; try lia.
    + rewrite upd_other by lia. f_equal. lia.
    + assert (x = to) by lia. subst x. rewrite upd_same. f_equal. lia.
    + apply upd_other. lia.
    + apply upd_other. lia.
Qed.

(** *** The copy loop of compress *)

Lemma compress_copy_spec fuel : forall to_overwrite to_compress next,
  0 <= next - to_compress < 65536 ->
  (Z.to_nat (next - to_compress) <= fuel)%nat ->
  exists ops,
    compress_copy fuel to_overwrite to_compress next
    = Some (ops, to_overwrite + (next - to_compress))
    /\ flat_map expand ops
       = moves to_overwrite to_compress (Z.to_nat (next - to_compress))
    /\ Forall (fun o => match o with Copy _ _ _ => True | _ => False end) ops.
Proof.
  induction fuel as [|fuel IH]; intros to tc next Hn Hf.
  - assert (E : next - tc = 0) by lia. exists [].
    cbn [compress_copy]. unfold uint16. rewrite E. cbn.
    rewrite Z.add_0_r. auto.
  - cbn [compress_copy]. unfold uint16. rewrite Z.mod_small by lia.
    destruct (Z.eqb_spec (next - tc) 0) as [E | E].
    + exists []. rewrite E, Z.add_0_r. cbn. auto.
    + set (len := if next - tc >? UINT8_MAX then UINT8_MAX else next - tc).
      assert (Hlen : 0 < len <= next - tc).
      { subst len. unfold UINT8_MAX.
        destruct (Z.gtb_spec (next - tc) 255); lia. }
      destruct (IH (to + len) (tc + len) next) as (ops & E1 & E2 & E3);
        [lia | lia |].
      rewrite E1. exists (eeprom__copy to tc len :: ops). split; [|split].
      * do 2 f_equal. lia.
      * cbn [flat_map eeprom__copy expand]. rewrite E2.
        replace (Z.to_nat (next - tc))
          with (Z.to_nat len + Z.to_nat (next - (tc + len)))%nat by lia.
        rewrite moves_app. do 2 f_equal; lia.
      * constructor; [exact I | exact E3].
Qed.

(** *** Lists of macros *)

Lemma well_formed_length r : well_formed_macro r = true -> (2 <= length r)%nat.
Proof.
  intros H. destruct (well_formed_macro_inv r H) as (? & ? & ? & -> & _).
  cbn [length]. lia.
Qed.

Lemma length_le_size rs :
  forallb well_formed_macro rs = true -> 2 * Z.of_nat (length rs) <= size rs.
Proof.
  induction rs as [|r rs IH]; intros H; [cbn; lia|].
  cbn [forallb] in H. apply andb_prop in H as [Hr Hrs].
  rewrite size_cons. cbn [length]. apply well_formed_length in Hr.
  specialize (IH Hrs). lia.
Qed.

Lemma well_formed_skipped rs :
  forallb well_formed_macro rs = true ->
  forallb well_formed_macro (skipped rs) = true
  /\ forallb well_formed_macro (from_nondeleted rs) = true.
Proof.
  intros H. rewrite (skipped_split rs), forallb_app in H.
  now apply andb_prop in H.
Qed.

Lemma well_formed_before_deleted rs :
  forallb well_formed_macro rs = true ->
  forallb well_formed_macro (before_deleted rs) = true
  /\ forallb well_formed_macro (from_deleted rs) = true.
Proof.
  intros H. rewrite (before_deleted_split rs), forallb_app in H.
  now apply andb_prop in H.
Qed.

Lemma size_skipped rs : size rs = size (skipped rs) + size (from_nondeleted rs).
Proof. now rewrite <- size_app, <- skipped_split. Qed.

Lemma size_before_deleted rs :
  size rs = size (before_deleted rs) + size (from_deleted rs).
Proof. now rewrite <- size_app, <- before_deleted_split. Qed.

Lemma deleted_skippable r : deleted r = true -> skippable r = true.
Proof. unfold deleted, skippable. now intros ->. Qed.

Lemma from_nondeleted_head rs :
  match from_nondeleted rs with
  | [] => True
  | r :: _ => skippable r = false
  end.
Proof.
  induction rs as [|r rs IH]; [exact I|].
  cbn [from_nondeleted]. now destruct (skippable r) eqn:E.
Qed.

Lemma from_deleted_head rs :
  match from_deleted rs with
  | [] => True
  | r :: _ => deleted r = true
  end.
Proof.
  induction rs as [|r rs IH]; [exact I|].
  cbn [from_deleted]. now destruct (deleted r) eqn:E.
Qed.

(** After the skipped macros, a macro that is kept, or none at all. *)
Lemma before_deleted_from_nondeleted rs :
  forallb well_formed_macro rs = true ->
  from_nondeleted rs <> [] ->
  2 <= size (before_deleted (from_nondeleted rs)).
Proof.
  intros Hwf Hne. apply well_formed_skipped in Hwf as [_ Hwf].
  pose proof (from_nondeleted_head rs) as Hh.
  destruct (from_nondeleted rs) as [|r rs']; [congruence|].
  cbn [before_deleted]. destruct (deleted r) eqn:E.
  - apply deleted_skippable in E. congruence.
  - cbn [forallb] in Hwf. apply andb_prop in Hwf as [Hr _].
    apply well_formed_length in Hr. rewrite size_cons.
    pose proof (size_nonneg (before_deleted rs')). lia.
Qed.

Lemma macros_well_formed m a rs :
  macros m a rs -> forallb well_formed_macro rs = true.
Proof. now intros [H _]. Qed.

(** *** One round of the loop of compress *)

Lemma compress_body_spec fuel m new_end w n rest :
  macros m n rest ->
  new_end = n + size rest + 1 ->
  0 < n -> new_end <= 65536 ->
  size rest + 1 < Z.of_nat fuel ->
  let tc := n + size (skipped rest) in
  let sp := before_deleted (from_nondeleted rest) in
  let r2 := from_deleted (from_nondeleted rest) in
  let n' := match r2 with [] => new_end | _ => tc + size sp end in
  let end_write :=
    match r2 with [] => [] | _ => [Write (w + (n' - tc)) TYPE_END] end in
  exists copies,
    compress_body fuel m new_end w n
    = Some (copies ++ end_write ++ [Write w (m tc)], w + (n' - tc), n')
    /\ Forall is_copy copies
    /\ flat_map expand copies
       = moves (w + 1) (tc + 1) (Z.to_nat (n' - tc - 1))
    /\ n' - tc = size sp + match r2 with [] => 1 | _ => 0 end.
Proof.
  intros Hm Hnew Hn Hmax Hfuel tc sp r2 n' end_write.
  assert (Htc : tc = n + size (skipped rest)) by reflexivity.
  assert (Esp : sp = before_deleted (from_nondeleted rest)) by reflexivity.
  assert (Er2 : r2 = from_deleted (from_nondeleted rest)) by reflexivity.
  subst n' end_write. clearbody tc sp r2.
  pose proof (macros_well_formed _ _ _ Hm) as Hwf.
  pose proof (length_le_size _ Hwf) as Hlen.
  pose proof (size_skipped rest) as Hs1.
  pose proof (size_before_deleted (from_nondeleted rest)) as Hs2.
  rewrite <- Esp, <- Er2 in Hs2.
  pose proof (size_nonneg (skipped rest)). pose proof (size_nonneg sp).
  pose proof (size_nonneg r2).
  destruct (well_formed_skipped _ Hwf) as [_ Hwf1].
  pose proof (length_le_size _ Hwf1) as Hlen1.
  assert (Hm1 : macros m tc (from_nondeleted rest)).
  { rewrite Htc. apply macros_app. now rewrite <- skipped_split. }
  set (n' := match r2 with [] => new_end | _ => tc + size sp end).
  assert (Hn' : n' - tc = size sp + match r2 with [] => 1 | _ => 0 end).
  { subst n'. destruct r2 eqn:E2.
    - rewrite size_nil in Hs2. lia.
    - lia. }
  assert (Hsp : r2 <> [] -> 2 <= size sp).
  { intros Hr2. rewrite Esp. apply before_deleted_from_nondeleted;
      [exact Hwf|].
    intros E. apply Hr2. rewrite Er2. now rewrite E. }
  assert (Hcount : 0 <= n' - (tc + 1)).
  { destruct r2; [lia|]. specialize (Hsp ltac:(discriminate)). lia. }
  assert (En' : (if (match r2 with [] => 0 | _ :: _ => tc + size sp end) =? 0
           then new_end else match r2 with [] => 0 | _ :: _ => tc + size sp end)
          = n').
  { subst n'. destruct r2; [reflexivity|].
      destruct (Z.eqb_spec (tc + size sp) 0); [lia | reflexivity]. }
  assert (Hle : n' <= new_end) by (subst n'; destruct r2; lia).
  assert (Eend : (if n' =? new_end then []
           else [eeprom__write (w + (n' - tc)) TYPE_END])
          = match r2 with [] => [] | _ => [Write (w + (n' - tc)) TYPE_END] end).
  { subst n'. destruct r2 as [|d r2'] eqn:E.
      - now rewrite Z.eqb_refl.
      - destruct (Z.eqb_spec (tc + size sp) new_end); [|reflexivity].
        lia. }
  clearbody n'.
  unfold compress_body.
  rewrite (find_next_nondeleted_macros rest) by (assumption || lia).
  rewrite <- Htc.
  rewrite (find_next_deleted_macros (from_nondeleted rest))
    by (assumption || lia).
  rewrite <- Er2, <- Esp, En'.
  destruct (compress_copy_spec fuel (w + 1) (tc + 1) n')
    as (copies & E1 & E2 & E3); [lia | lia |].
  rewrite E1. exists copies.
  replace (w + 1 + (n' - (tc + 1))) with (w + (n' - tc)) by lia.
  rewrite Eend.
  split; [reflexivity|]. split; [exact E3|]. split; [|exact Hn'].
  rewrite E2. f_equal. lia.
Qed.

Lemma run_last m bs b : run m (bs ++ [b]) = apply_byte (run m bs) b.
Proof. now rewrite run_app. Qed.

Lemma macros_holds_kept m a rs m' :
  (forall x, a <= x <= a + size rs -> m' x = m x) ->
  macros m a rs -> macros m' a rs.
Proof.
  intros E [Hwf H]. split; [exact Hwf|].
  apply (holds_ext m); [|exact H].
  intros x Hx. apply E. rewrite length_app in Hx. cbn [length] in Hx.
  unfold size. lia.
Qed.

Lemma Forall_firstn {A} (P : A -> Prop) l : forall k,
  Forall P l -> Forall P (firstn k l).
Proof.
  induction l as [|x l IH]; intros [|k] H; cbn [firstn]; try constructor.
  - now inversion H.
  - apply IH. now inversion H.
Qed.

Lemma parseable_prefix start m kept w bs :
  macros m start kept -> w = start + size kept ->
  Forall (fun b => w < target b) bs ->
  forall k, parseable start (run m (firstn k bs)).
Proof.
  intros Hm Hw Hbs k. exists kept.
  apply (macros_holds_kept m); [|exact Hm].
  intros x Hx. apply run_other. apply Forall_firstn.
  eapply Forall_impl; [|exact Hbs]. cbn beta. lia.
Qed.

Lemma firstn_snoc {A} k (l : list A) x :
  firstn k (l ++ [x]) = firstn k l \/ firstn k (l ++ [x]) = l ++ [x].
Proof.
  destruct (Nat.le_gt_cases k (length l)) as [H | H].
  - left. rewrite firstn_app.
    replace (k - length l)%nat with 0%nat by lia.
    cbn [firstn]. apply app_nil_r.
  - right. apply firstn_all2. rewrite length_app. cbn [length]. lia.
Qed.

(** The bytes that one round of the loop of [compress] writes, when the
    queue is worked off: where the bytes before them make a well-formed,
    shorter, sequence of macros, they leave one after every write. *)
Lemma round_effect start m mk kept w tc sp r2 L :
  macros m tc (sp ++ r2) ->
  (r2 <> [] -> 2 <= size sp) ->
  L = size sp - 1 + match r2 with [] => 1 | _ => 0 end ->
  0 <= L ->
  w = start + size kept -> w < tc ->
  macros mk start kept ->
  (forall x, w < x -> mk x = m x) ->
  let bs :=
    moves (w + 1) (tc + 1) (Z.to_nat L)
    ++ match r2 with [] => [] | _ => [Put (w + L + 1) TYPE_END] end
    ++ [Put w (m tc)] in
  (forall k, parseable start (run mk (firstn k bs)))
  /\ macros (run mk bs) start (kept ++ sp)
  /\ (forall x, w + size sp < x -> run mk bs x = m x).
Proof.
  intros Hm Hsp HL HL0 Hw Hlt Hk Hmk bs.
  set (endw := match r2 with [] => [] | _ => [Put (w + L + 1) TYPE_END] end)
    in *.
  set (B1 := moves (w + 1) (tc + 1) (Z.to_nat L) ++ endw).
  assert (Ebs : bs = B1 ++ [Put w (m tc)])
    by (subst bs B1; now rewrite <- app_assoc).
  pose proof (size_nonneg sp) as Hsp0.
  assert (HB1 : Forall (fun b => w < target b <= w + size sp) B1).
  { subst B1. apply Forall_app. split.
    - eapply Forall_impl; [|apply moves_target]. cbn beta. intros b Hb.
      destruct r2; lia.
    - subst endw. destruct r2; constructor; [|constructor].
      cbn [target]. lia. }
  assert (Hwf : forallb well_formed_macro (kept ++ sp) = true).
  { rewrite forallb_app. apply andb_true_intro. split.
    - apply (macros_well_formed _ _ _ Hk).
    - apply macros_well_formed in Hm. rewrite forallb_app in Hm.
      now apply andb_prop in Hm. }
  (* the bytes to copy, in the EEPROM as it was *)
  assert (HD : forall i, (i < length (concat sp ++ [TYPE_END]))%nat ->
                 Z.of_nat i <= L \/ r2 = [] ->
                 m (tc + Z.of_nat i) = nth i (concat sp ++ [TYPE_END]) 0).
  { destruct Hm as [_ Hm]. rewrite concat_app, <- app_assoc in Hm.
    intros i Hi Hr2. rewrite length_app in Hi. cbn [length] in Hi.
    destruct (Nat.lt_ge_cases i (length (concat sp))) as [Hlt' | Hge].
    - apply holds_app in Hm as [Hm _].
      rewrite (proj1 (holds_nth _ _ _) Hm i Hlt').
      now rewrite app_nth1.
    - assert (r2 = []) as ->.
      { destruct Hr2 as [Hr2 | Hr2]; [|exact Hr2].
        destruct r2; [reflexivity|]. unfold size in *. lia. }
      cbn [concat app] in Hm.
      now rewrite (proj1 (holds_nth _ _ _) Hm i)
        by (rewrite length_app; cbn [length]; lia). }
  (* the EEPROM after the round *)
  assert (Hfinal : macros (run mk bs) start (kept ++ sp)).
  { split; [exact Hwf|].
    rewrite concat_app, <- app_assoc. apply holds_app. split.
    - destruct Hk as [_ Hk]. apply holds_app in Hk as [Hk _].
      apply (holds_ext mk); [|exact Hk].
      intros x Hx. apply run_other. rewrite Ebs. apply Forall_app. split.
      + eapply Forall_impl; [|exact HB1]. cbn beta. unfold size in Hw. lia.
      + constructor; [|constructor]. cbn [target]. unfold size in Hw. lia.
    - fold (size kept). rewrite <- Hw. apply holds_nth. intros i Hi.
      rewrite Ebs, run_last. cbn [apply_byte].
      destruct i as [|i].
      { rewrite Z.add_0_r, upd_same.
        rewrite <- (HD 0%nat Hi) by lia. f_equal. lia. }
      rewrite upd_other by lia. subst B1. rewrite run_app.
      rewrite length_app in Hi. cbn [length] in Hi.
      destruct (Z.le_gt_cases (Z.of_nat (S i)) L) as [HiL | HiL].
      + rewrite run_other.
        2:{ subst endw. destruct r2; constructor; [|constructor].
            cbn [target]. lia. }
        rewrite run_moves by lia.
        replace ((w + 1 <=? w + Z.of_nat (S i))
                 && (w + Z.of_nat (S i) <? w + 1 + Z.of_nat (Z.to_nat L)))
          with true
          by (symmetry; apply andb_true_intro;
              rewrite Z.leb_le, Z.ltb_lt; lia).
        rewrite Hmk by lia.
        rewrite <- (HD (S i)) by (rewrite ?length_app; cbn [length]; lia).
        f_equal. lia.
      + assert (Hr2 : r2 <> []) by (intros ->; unfold size in *; lia).
        assert (Ei : Z.of_nat (S i) = size sp)
          by (destruct r2; [congruence | unfold size in *; lia]).
        subst endw. destruct r2 as [|d r2']; [congruence|].
        cbn [run fold_left apply_byte].
        replace (w + L + 1) with (w + Z.of_nat (S i)) by lia.
        rewrite upd_same. rewrite app_nth2 by (unfold size in Ei; lia).
        replace (S i - length (concat sp))%nat with 0%nat
          by (unfold size in Ei; lia).
        reflexivity. }
  split; [|split].
  - intros k. rewrite Ebs.
    destruct (firstn_snoc k B1 (Put w (m tc))) as [-> | ->].
    + apply (parseable_prefix start mk kept w); try assumption.
      eapply Forall_impl; [|exact HB1]. cbn beta. lia.
    + rewrite <- Ebs. now exists (kept ++ sp).
  - exact Hfinal.
  - intros x Hx. rewrite <- Hmk by lia. apply run_other.
    rewrite Ebs. apply Forall_app. split.
    + eapply Forall_impl; [|exact HB1]. cbn beta. lia.
    + constructor; [|constructor]. cbn [target]. lia.
Qed.

(** *** What a compression keeps *)

Lemma compressed_false rs :
  compressed false rs
  = before_deleted rs ++ compressed true (from_deleted rs).
Proof.
  induction rs as [|r rs IH]; [reflexivity|].
  cbn [compressed before_deleted from_deleted andb].
  destruct (deleted r) eqn:E.
  - cbn [app compressed]. now rewrite E.
  - cbn [app]. now rewrite IH.
Qed.

Lemma compressed_true rs :
  compressed true rs = compressed false (from_nondeleted rs).
Proof.
  induction rs as [|r rs IH]; [reflexivity|].
  cbn [compressed from_nondeleted andb]. unfold skippable. fold (deleted r).
  destruct (deleted r) eqn:E; cbn [orb]; [exact IH|].
  destruct (macro_type r =? TYPE_CONTINUED) eqn:E'; [exact IH|].
  cbn [compressed andb]. now rewrite E.
Qed.

Lemma compressed_round rs :
  compressed true rs
  = before_deleted (from_nondeleted rs)
    ++ compressed true (from_deleted (from_nondeleted rs)).
Proof. now rewrite compressed_true, compressed_false. Qed.

Lemma compressed_no_deleted rs : forall skipping,
  forallb (fun r => negb (deleted r)) (compressed skipping rs) = true.
Proof.
  induction rs as [|r rs IH]; intros skipping; [reflexivity|].
  cbn [compressed]. destruct (deleted r) eqn:E; [apply IH|].
  destruct (skipping && (macro_type r =? TYPE_CONTINUED)); [apply IH|].
  cbn [forallb]. now rewrite E, IH.
Qed.

Lemma no_deleted_before rs :
  forallb (fun r => negb (deleted r)) rs = true ->
  before_deleted rs = rs /\ from_deleted rs = [].
Proof.
  induction rs as [|r rs IH]; intros H; [now split|].
  cbn [forallb] in H. apply andb_prop in H as [Hr Hrs].
  cbn [before_deleted from_deleted].
  destruct (deleted r); [discriminate|].
  destruct (IH Hrs) as [-> ->]. now split.
Qed.

Lemma length_from_deleted rs :
  (length (from_deleted rs) <= length rs)%nat.
Proof.
  induction rs as [|r rs IH]; [cbn; lia|].
  cbn [from_deleted]. destruct (deleted r); cbn [length]; lia.
Qed.

Lemma length_from_nondeleted rs :
  (length (from_nondeleted rs) <= length rs)%nat.
Proof.
  induction rs as [|r rs IH]; [cbn; lia|].
  cbn [from_nondeleted]. destruct (skippable r); cbn [length]; lia.
Qed.

(** A round that does not reach the end leaves fewer macros to go. *)
Lemma length_round rs :
  from_deleted (from_nondeleted rs) <> [] ->
  (length (from_deleted (from_nondeleted rs)) < length rs)%nat.
Proof.
  intros Hne. pose proof (from_nondeleted_head rs) as Hh.
  pose proof (length_from_nondeleted rs) as Hl.
  destruct (from_nondeleted rs) as [|r rs']; [now cbn in Hne|].
  cbn [from_deleted] in *. destruct (deleted r) eqn:E.
  - apply deleted_skippable in E. congruence.
  - pose proof (length_from_deleted rs'). cbn [length] in Hl. lia.
Qed.

Lemma parseable_app start m bs bs' :
  (forall k, parseable start (run m (firstn k bs))) ->
  (forall k, parseable start (run (run m bs) (firstn k bs'))) ->
  forall k, parseable start (run m (firstn k (bs ++ bs'))).
Proof.
  intros H H' k. rewrite firstn_app, run_app.
  destruct (Nat.le_gt_cases k (length bs)) as [Hk | Hk].
  - replace (k - length bs)%nat with 0%nat by lia. apply H.
  - rewrite (firstn_all2 bs) by lia. apply H'.
Qed.

(** *** The loop of compress *)

Lemma compress_loop_spec start m new_end fuel :
  0 < start -> new_end <= 65536 ->
  forall rounds rest n w kept mk,
  macros m n rest ->
  new_end = n + size rest + 1 ->
  size rest + 1 < Z.of_nat fuel ->
  (length rest < rounds)%nat ->
  w = start + size kept -> w < n ->
  macros mk start kept ->
  (forall x, w < x -> mk x = m x) ->
  exists ops,
    compress_loop rounds fuel m new_end w n = Some ops
    /\ (forall k, parseable start (run mk (firstn k (flat_map expand ops))))
    /\ macros (flush mk ops) start (kept ++ compressed true rest).
Proof.
  intros Hstart Hmax.
  induction rounds as [|rounds IH];
    intros rest n w kept mk Hm Hnew Hfuel Hrounds Hw Hlt Hk Hmk; [lia|].
  pose proof (size_nonneg rest) as Hrest0.
  pose proof (size_nonneg kept) as Hkept0.
  cbn [compress_loop].
  destruct (Z.eqb_spec n new_end) as [E | _]; [lia|].
  destruct (compress_body_spec fuel m new_end w n rest)
    as (copies & Ebody & Hcopies & Ecopies & En'); try assumption; [lia|].
  set (tc := n + size (skipped rest)) in *.
  set (sp := before_deleted (from_nondeleted rest)) in *.
  set (r2 := from_deleted (from_nondeleted rest)) in *.
  set (n' := match r2 with [] => new_end | _ => tc + size sp end) in *.
  assert (Htc : tc = n + size (skipped rest)) by reflexivity.
  assert (Esp : sp = before_deleted (from_nondeleted rest)) by reflexivity.
  assert (Er2 : r2 = from_deleted (from_nondeleted rest)) by reflexivity.
  assert (Hn' : n' = match r2 with [] => new_end | _ => tc + size sp end)
    by reflexivity.
  clearbody tc sp r2 n'.
  pose proof (size_nonneg (skipped rest)) as Hsk0.
  pose proof (size_nonneg sp) as Hsp0.
  pose proof (size_skipped rest) as Hs1.
  pose proof (size_before_deleted (from_nondeleted rest)) as Hs2.
  rewrite <- Esp, <- Er2 in Hs2.
  pose proof (macros_well_formed _ _ _ Hm) as Hwf.
  assert (Hm1 : macros m tc (sp ++ r2)).
  { rewrite Htc, Esp, Er2, <- before_deleted_split.
    apply macros_app. now rewrite <- skipped_split. }
  assert (Hsp : r2 <> [] -> 2 <= size sp).
  { intros Hr2. rewrite Esp. apply before_deleted_from_nondeleted;
      [exact Hwf|].
    intros E. apply Hr2. rewrite Er2. now rewrite E. }
  rewrite Ebody.
  set (L := n' - tc - 1).
  assert (HL : L = size sp - 1 + match r2 with [] => 1 | _ => 0 end)
    by (subst L; lia).
  assert (HL0 : 0 <= L).
  { rewrite HL. destruct r2; [lia|]. specialize (Hsp ltac:(discriminate)).
    lia. }
  destruct (round_effect start m mk kept w tc sp r2 L)
    as (Hpre & Hpost & Habove); try assumption; [lia|].
  set (ops1 := copies
         ++ match r2 with [] => [] | _ => [Write (w + (n' - tc)) TYPE_END] end
         ++ [Write w (m tc)]) in *.
  assert (Eops1 : flat_map expand ops1
            = moves (w + 1) (tc + 1) (Z.to_nat L)
              ++ match r2 with [] => [] | _ => [Put (w + L + 1) TYPE_END] end
              ++ [Put w (m tc)]).
  { subst ops1. rewrite !flat_map_app, Ecopies. fold L.
    replace (w + (n' - tc)) with (w + L + 1) by (subst L; lia).
    now destruct r2. }
  rewrite <- Eops1 in Hpre, Hpost, Habove.
  rewrite (compressed_round rest), <- Esp, <- Er2.
  assert (Hcase : r2 = [] \/ r2 <> [])
    by (destruct r2; [left | right]; congruence).
  destruct Hcase as [E2 | Hr2].
  - (* the end of the macros is reached *)
    rewrite E2 in Hn' |- *. rewrite Hn'. cbn [compress_loop].
    replace (compress_loop rounds fuel m new_end (w + (new_end - tc)) new_end)
      with (Some (@nil nvm_op))
      by (destruct rounds; cbn [compress_loop]; now rewrite Z.eqb_refl).
    exists (ops1 ++ []). rewrite app_nil_r. split; [reflexivity|].
    split; [exact Hpre|]. cbn [compressed]. rewrite app_nil_r.
    exact Hpost.
  - (* a deleted macro is reached *)
    specialize (Hsp Hr2).
    assert (En'' : n' = tc + size sp)
      by (rewrite Hn'; destruct r2; congruence).
    assert (Hrem : macros m n' r2).
    { rewrite En''. apply (macros_app m tc sp r2 Hm1). }
    pose proof (size_nonneg r2) as Hr20.
    destruct (IH r2 n' (w + (n' - tc)) (kept ++ sp) (flush mk ops1))
      as (ops & Eloop & Hpre' & Hpost'); try assumption.
    + lia.
    + lia.
    + pose proof (length_round rest) as Hlr. rewrite <- Er2 in Hlr.
      specialize (Hlr Hr2). lia.
    + rewrite size_app. lia.
    + lia.
    + intros x Hx. apply Habove. lia.
    + rewrite Eloop. exists (ops1 ++ ops). split; [reflexivity|].
      split.
      * rewrite flat_map_app. apply parseable_app; assumption.
      * rewrite flush_app, app_assoc. exact Hpost'.
Qed.

Lemma from_nondeleted_idem rs :
  from_nondeleted (from_nondeleted rs) = from_nondeleted rs.
Proof.
  pose proof (from_nondeleted_head rs) as H.
  destruct (from_nondeleted rs) as [|r rs']; [reflexivity|].
  cbn [from_nondeleted]. now rewrite H.
Qed.

Lemma length_compressed rs : forall skipping,
  (length (compressed skipping rs) <= length rs)%nat.
Proof.
  induction rs as [|r rs IH]; intros skipping; [cbn; lia|].
  cbn [compressed]. destruct (deleted r).
  - specialize (IH true). cbn [length]. lia.
  - destruct (skipping && (macro_type r =? TYPE_CONTINUED)).
    + specialize (IH true). cbn [length]. lia.
    + specialize (IH false). cbn [length]. lia.
Qed.

Section Compress.

Variable OPT__EEPROM__EEPROM_MACRO__START : Z.
Hypothesis START_nonneg : 0 <= OPT__EEPROM__EEPROM_MACRO__START.

Local Notation "'MACROS_START'" :=
  (EEMEM_MACROS_START OPT__EEPROM__EEPROM_MACRO__START).

Lemma MACROS_START_pos : 0 < MACROS_START.
Proof.
  unfold EEMEM_MACROS_START, EEMEM_VERSION_END, EEMEM_VERSION_START,
    EEMEM_END_ADDRESS_END, EEMEM_END_ADDRESS_START, EEMEM_START_ADDRESS_END,
    EEMEM_START_ADDRESS_START, EEMEM_START.
  lia.
Qed.

(** Without a deleted macro, [compress] has nothing to do. *)
Lemma compress_ops_compact fuel m new_end rs :
  macros m MACROS_START rs ->
  (length rs < fuel)%nat ->
  forallb (fun r => negb (deleted r)) rs = true ->
  compress_ops OPT__EEPROM__EEPROM_MACRO__START fuel m new_end = Some [].
Proof.
  intros Hm Hf Hnd. unfold compress_ops.
  rewrite (find_next_deleted_macros rs) by assumption.
  destruct (no_deleted_before rs Hnd) as [_ ->]. reflexivity.
Qed.

(** What [compress] puts in the queue, and what the queue makes of the
    EEPROM. *)
Lemma compress_ops_spec fuel m new_end rs :
  macros m MACROS_START rs ->
  new_end = MACROS_START + size rs + 1 ->
  new_end <= 65536 ->
  size rs + 1 < Z.of_nat fuel ->
  exists ops,
    compress_ops OPT__EEPROM__EEPROM_MACRO__START fuel m new_end = Some ops
    /\ (forall k,
          parseable MACROS_START (run m (firstn k (flat_map expand ops))))
    /\ macros (flush m ops) MACROS_START (compressed false rs).
Proof.
  intros Hm Hnew Hmax Hfuel.
  pose proof MACROS_START_pos as Hpos.
  pose proof (macros_well_formed _ _ _ Hm) as Hwf.
  pose proof (length_le_size _ Hwf) as Hlen.
  pose proof (size_nonneg rs) as Hrs0.
  destruct (forallb (fun r => negb (deleted r)) rs) eqn:Hnd.
  - exists []. rewrite (compress_ops_compact fuel m new_end rs)
      by (assumption || lia).
    split; [reflexivity|]. split.
    + intros k. rewrite firstn_nil. now exists rs.
    + rewrite compressed_false.
      destruct (no_deleted_before rs Hnd) as [-> ->].
      cbn [compressed]. now rewrite app_nil_r.
  - unfold compress_ops.
    rewrite (find_next_deleted_macros rs) by (assumption || lia).
    pose proof (before_deleted_split rs) as Hsplit.
    pose proof (size_before_deleted rs) as Hsize.
    pose proof (from_deleted_head rs) as Hd.
    destruct (well_formed_before_deleted _ Hwf) as [Hwfp Hwfr].
    set (pre := before_deleted rs) in *.
    set (rest := from_deleted rs) in *.
    assert (Epre : pre = before_deleted rs) by reflexivity.
    assert (Erest : rest = from_deleted rs) by reflexivity.
    clearbody pre rest.
    pose proof (size_nonneg pre) as Hpre0.
    assert (Hcase : rest = [] \/ exists d rest', rest = d :: rest')
      by (destruct rest as [|d rest']; [left | right; exists d, rest'];
          reflexivity).
    destruct Hcase as [E | (d & rest' & E)].
    { exfalso. rewrite E, app_nil_r in Hsplit.
      assert (forallb (fun r => negb (deleted r)) rs = true); [|congruence].
      rewrite Hsplit, Epre. clear.
      induction rs as [|r rs IH]; [reflexivity|].
      cbn [before_deleted]. destruct (deleted r) eqn:E; [reflexivity|].
      cbn [forallb]. now rewrite E, IH. }
    assert (Hdel : deleted d = true) by (now rewrite E in Hd).
    replace (match rest with [] => 0 | _ :: _ => MACROS_START + size pre end)
      with (MACROS_START + size pre) by (now rewrite E).
    set (w := MACROS_START + size pre).
    assert (Hw : w = MACROS_START + size pre) by reflexivity.
    clearbody w.
    destruct (Z.eqb_spec w 0) as [E0 | _]; [lia|].
    assert (Hmr : macros m w rest).
    { rewrite Hw. apply macros_app. now rewrite <- Hsplit. }
    pose proof (macros_well_formed _ _ _ Hmr) as Hwfr'.
    pose proof (length_le_size _ Hwfr') as Hlenr.
    pose proof (size_nonneg rest) as Hrest0.
    rewrite (find_next_nondeleted_macros rest) by (assumption || lia).
    assert (Hsk : 2 <= size (skipped rest)).
    { rewrite E in Hwfr' |- *. cbn [skipped].
      rewrite (deleted_skippable d Hdel). rewrite size_cons.
      cbn [forallb] in Hwfr'. apply andb_prop in Hwfr' as [Hwd _].
      apply well_formed_length in Hwd.
      pose proof (size_nonneg (skipped rest')). lia. }
    pose proof (size_skipped rest) as Hs1.
    pose proof (size_nonneg (from_nondeleted rest)) as Hfn0.
    set (mk := upd m w TYPE_END).
    assert (Hk : macros mk MACROS_START pre).
    { split; [exact Hwfp|]. apply holds_app. split.
      - destruct Hm as [_ Hm]. rewrite Hsplit, concat_app, <- app_assoc in Hm.
        apply holds_app in Hm as [Hm _].
        apply (holds_ext m); [|exact Hm].
        intros x Hx. apply upd_other. unfold size in Hw. lia.
      - cbn [holds]. split; [|exact I]. fold (size pre). rewrite <- Hw.
        apply upd_same. }
    destruct (compress_loop_spec MACROS_START m new_end fuel Hpos Hmax
                fuel (from_nondeleted rest) (w + size (skipped rest)) w
                pre mk)
      as (ops & Eloop & Hpre & Hpost); try assumption.
    + apply macros_app. now rewrite <- skipped_split.
    + lia.
    + lia.
    + pose proof (length_from_nondeleted rest). lia.
    + lia.
    + intros x Hx. apply upd_other. lia.
    + rewrite Eloop. exists (eeprom__write w TYPE_END :: ops).
      split; [reflexivity|]. split.
      * change (flat_map expand (eeprom__write w TYPE_END :: ops))
          with ([Put w TYPE_END] ++ flat_map expand ops).
        apply parseable_app; [|exact Hpre].
        intros [|k]; [now exists rs|].
        cbn [firstn]. rewrite firstn_nil. now exists pre.
      * rewrite compressed_false, <- Epre, <- Erest.
        rewrite (compressed_true rest), <- (from_nondeleted_idem rest),
          <- compressed_true.
        exact Hpost.
Qed.

End Compress.

(** *** find_key_action *)

Lemma key_action_eqb_eq k k' : key_action_eqb k k' = true <-> k = k'.
Proof.
  destruct k as [p l r c], k' as [p' l' r' c']. unfold key_action_eqb.
  cbn [pressed layer row column].
  rewrite !andb_true_iff, !Z.eqb_eq, Bool.eqb_true_iff.
  split; [intros (((-> & ->) & ->) & ->); reflexivity|].
  intros H. injection H as -> -> -> ->. auto.
Qed.

Lemma read_key_action_loop_more fuel : forall fuel' m from byte acc k,
  (fuel <= fuel')%nat ->
  read_key_action_loop fuel m from byte acc = Some k ->
  read_key_action_loop fuel' m from byte acc = Some k.
Proof.
  induction fuel as [|fuel IH]; intros fuel' m from byte acc k Hf H.
  - cbn [read_key_action_loop] in H.
    destruct (Z.shiftr byte 7 =? 0) eqn:E; [|discriminate].
    destruct fuel'; cbn [read_key_action_loop]; now rewrite E.
  - destruct fuel' as [|fuel']; [lia|].
    cbn [read_key_action_loop] in *.
    destruct (Z.shiftr byte 7 =? 0); [exact H|].
    apply IH; [lia | exact H].
Qed.

(** The key-action read does not depend on the fuel. *)
Lemma read_key_action_fuel fuel fuel' m from k k' :
  read_key_action fuel m from = Some k ->
  read_key_action fuel' m from = Some k' ->
  k = k'.
Proof.
  unfold read_key_action. intros H H'.
  apply (read_key_action_loop_more _ (Nat.max fuel fuel')) in H; [|lia].
  apply (read_key_action_loop_more _ (Nat.max fuel fuel')) in H'; [|lia].
  congruence.
Qed.

Lemma read_key_action_loop_ends bs : forall fuel m from byte acc,
  holds m from bs ->
  (Z.shiftr byte 7 =? 0)
  || existsb (fun byte => Z.shiftr byte 7 =? 0) bs = true ->
  (length bs <= fuel)%nat ->
  exists k, read_key_action_loop fuel m from byte acc = Some k.
Proof.
  induction bs as [|b bs IH]; intros fuel m from byte acc Hm He Hf.
  - cbn [existsb] in He. rewrite orb_false_r in He.
    exists acc. destruct fuel; cbn [read_key_action_loop]; now rewrite He.
  - destruct fuel as [|fuel]; [cbn [length] in Hf; lia|].
    cbn [read_key_action_loop].
    destruct (Z.shiftr byte 7 =? 0); [now exists acc|].
    destruct Hm as [Hb Hm]. unfold eeprom__read. rewrite Hb.
    apply IH; [exact Hm | exact He | cbn [length] in Hf; lia].
Qed.

(** The first key-action of a valid, well-formed macro can be read. *)
Lemma read_key_action_macro m a r fuel :
  holds m a r -> key_action_ends r = true ->
  (length r <= fuel)%nat ->
  exists k, read_key_action fuel m (a + 2) = Some k.
Proof.
  intros Hm He Hf. unfold key_action_ends in He.
  destruct r as [|type [|len [|b data]]]; try discriminate.
  cbn [skipn] in He. cbn [holds] in Hm.
  destruct Hm as (_ & _ & Hb & Hm).
  unfold read_key_action, eeprom__read.
  replace (a + 1 + 1) with (a + 2) in * by lia. rewrite Hb.
  apply (read_key_action_loop_ends data);
    [exact Hm | exact He | cbn [length] in Hf; lia].
Qed.

Lemma none_remaps_nil m a k : none_remaps m a [] k.
Proof. intros [|? ?] r post E; discriminate. Qed.

Lemma none_remaps_cons m a r rs k :
  ~ remaps m a r k ->
  none_remaps m (a + Z.of_nat (length r)) rs k ->
  none_remaps m a (r :: rs) k.
Proof.
  intros Hr Hrs [|r' pre] r1 post E.
  - injection E as -> ->. now rewrite size_nil, Z.add_0_r.
  - injection E as -> ->. rewrite size_cons, Z.add_assoc.
    now apply (Hrs pre r1 post).
Qed.

Section Lookup.

Variable OPT__EEPROM__EEPROM_MACRO__START : Z.
Hypothesis START_nonneg : 0 <= OPT__EEPROM__EEPROM_MACRO__START.

Local Notation "'MACROS_START'" :=
  (EEMEM_MACROS_START OPT__EEPROM__EEPROM_MACRO__START).

Lemma find_key_action_loop_spec m k rs : forall fuel current,
  macros m current rs ->
  (forall r, In r rs -> macro_type r = TYPE_VALID_MACRO ->
             key_action_ends r = true) ->
  size rs < Z.of_nat fuel ->
  (exists pre r post,
      rs = pre ++ r :: post
      /\ find_key_action_loop fuel m current k = Some (current + size pre)
      /\ remaps m (current + size pre) r k
      /\ none_remaps m current pre k)
  \/ (find_key_action_loop fuel m current k = Some 0
      /\ none_remaps m current rs k).
Proof.
  induction rs as [|r rs IH]; intros fuel current Hm Hends Hf.
  - right. destruct fuel as [|fuel]; [cbn in Hf; lia|].
    cbn [find_key_action_loop]. rewrite (macros_nil _ _ Hm).
    split; [reflexivity | apply none_remaps_nil].
  - destruct fuel as [|fuel]; [pose proof (size_nonneg (r :: rs)); lia|].
    pose proof (macros_cons _ _ _ _ Hm) as (Ht & Hne & Hl & Hlen & Hr & Hrs).
    rewrite size_cons in Hf. pose proof (size_nonneg rs) as Hrs0.
    cbn [find_key_action_loop]. rewrite Ht, Hl.
    apply Z.eqb_neq in Hne. rewrite Hne.
    specialize (IH fuel (current + Z.of_nat (length r)) Hrs
                  (fun r' H => Hends r' (or_intror H)) ltac:(lia)).
    assert (Hstep : ~ remaps m current r k ->
      (exists pre r0 post,
          r :: rs = pre ++ r0 :: post
          /\ find_key_action_loop fuel m (current + Z.of_nat (length r)) k
             = Some (current + size pre)
          /\ remaps m (current + size pre) r0 k
          /\ none_remaps m current pre k)
      \/ (find_key_action_loop fuel m (current + Z.of_nat (length r)) k
          = Some 0
          /\ none_remaps m current (r :: rs) k)).
    { intros Hno. destruct IH as [(pre & r0 & post & E & Ef & Hr0 & Hpre)
                                  | [Ef Hnone]].
      - left. exists (r :: pre), r0, post.
        rewrite size_cons, Z.add_assoc. split; [now rewrite E|].
        split; [exact Ef|]. split; [exact Hr0|].
        now apply none_remaps_cons.
      - right. split; [exact Ef|]. now apply none_remaps_cons. }
    destruct (Z.eqb_spec (macro_type r) TYPE_VALID_MACRO) as [Hv | Hv].
    + destruct (read_key_action_macro m current r (S fuel) Hr)
        as [kc Hkc]; [apply Hends; [now left | exact Hv] | lia |].
      rewrite Hkc. destruct (key_action_eqb k kc) eqn:Ek.
      * apply key_action_eqb_eq in Ek. subst kc. left.
        exists [], r, rs. rewrite size_nil, Z.add_0_r.
        split; [reflexivity|]. split; [reflexivity|].
        split; [|apply none_remaps_nil].
        split; [exact Hv | now exists (S fuel)].
      * apply Hstep. intros [_ [fuel' Hk]].
        rewrite (read_key_action_fuel _ _ _ _ _ _ Hk Hkc) in Ek.
        assert (key_action_eqb kc kc = true) by now apply key_action_eqb_eq.
        congruence.
    + apply Hstep. now intros [Hv' _].
Qed.

End Lookup.

Lemma skip_pairs_range n : forall i k,
  0 <= i <= 3 -> i <= fst (skip_pairs n i k) <= 3.
Proof.
  induction n as [|n IH]; intros i k Hi; cbn [skip_pairs]; [cbn; lia|].
  destruct (Z.ltb_spec i 3); cbn [andb]; [|cbn; lia].
  destruct (Z.land (Z.lor (Z.lor (layer k) (row k)) (column k)) 192 =? 0);
    [|cbn; lia].
  specialize (IH (i + 1) (shift_pairs k) ltac:(lia)). lia.
Qed.

(** Three rounds are enough for the first loop of [write_key_action]: it
    stops because its test fails. *)
Lemma skip_pairs_done k :
  let '(i, k') := skip_pairs 3 0 k in
  (i <? 3)
  && (Z.land (Z.lor (Z.lor (layer k') (row k')) (column k')) 0xC0 =? 0)
  = false.
Proof.
  cbn [skip_pairs]. change (0 <? 3) with true. cbn [andb].
  destruct (Z.land (Z.lor (Z.lor (layer k) (row k)) (column k)) 192 =? 0)
    eqn:E0; [|now rewrite E0].
  change (0 + 1 <? 3) with true. cbn [andb].
  set (k1 := shift_pairs k).
  destruct (Z.land (Z.lor (Z.lor (layer k1) (row k1)) (column k1)) 192 =? 0)
    eqn:E1; [|now rewrite E1].
  change (0 + 1 + 1 <? 3) with true. cbn [andb].
  set (k2 := shift_pairs k1).
  destruct (Z.land (Z.lor (Z.lor (layer k2) (row k2)) (column k2)) 192 =? 0)
    eqn:E2; [reflexivity | now rewrite E2].
Qed.

(** Four rounds are enough for the second loop. *)
Lemma write_pairs_done n : forall more to i byte k,
  4 - Z.of_nat n <= i ->
  write_pairs (n + more) to i byte k = write_pairs n to i byte k.
Proof.
  induction n as [|n IH]; intros more to i byte k Hi.
  - destruct more as [|more]; [reflexivity|]. cbn [Nat.add write_pairs].
    now replace (i <? 4) with false by (symmetry; apply Z.ltb_ge; lia).
  - cbn [Nat.add write_pairs]. destruct (i <? 4); [|reflexivity].
    f_equal. apply IH. lia.
Qed.

Lemma length_writes bs : forall to, length (writes to bs) = length bs.
Proof.
  induction bs as [|b bs IH]; intros to; [reflexivity|].
  cbn [writes length]. now rewrite IH.
Qed.

Lemma length_key_action_bytes n : forall p k,
  length (key_action_bytes n p k) = n.
Proof.
  induction n as [|n IH]; intros p k; [reflexivity|].
  cbn [key_action_bytes length]. now rewrite IH.
Qed.

Lemma forallb_skipped rs : forallb skippable (skipped rs) = true.
Proof.
  induction rs as [|r rs IH]; [reflexivity|].
  cbn [skipped]. destruct (skippable r) eqn:E; [|reflexivity].
  cbn [forallb]. now rewrite E, IH.
Qed.

Lemma forallb_before_deleted rs :
  forallb (fun r => negb (deleted r)) (before_deleted rs) = true.
Proof.
  induction rs as [|r rs IH]; [reflexivity|].
  cbn [before_deleted]. destruct (deleted r) eqn:E; [reflexivity|].
  cbn [forallb]. now rewrite E, IH.
Qed.

(** A well-formed macro that is neither deleted nor continued is valid. *)
Lemma not_skippable_valid r :
  well_formed_macro r = true -> skippable r = false ->
  macro_type r = TYPE_VALID_MACRO.
Proof.
  intros Hwf Hs. destruct (well_formed_macro_inv r Hwf)
    as (type & len & data & -> & [-> | [-> | ->]] & _);
    cbn in Hs |- *; congruence.
Qed.

Lemma firstn_length_app {A} (l l' : list A) : firstn (length l) (l ++ l') = l.
Proof.
  rewrite firstn_app, Nat.sub_diag, firstn_all. cbn [firstn].
  apply app_nil_r.
Qed.

(** [compress] does not assign [end_macro] or [new_end_macro]. *)
Lemma compress_keeps_variables START fuel st st' :
  compress START fuel st = Some st' ->
  eemem st' = eemem st
  /\ end_macro st' = end_macro st
  /\ new_end_macro st' = new_end_macro st.
Proof.
  unfold compress. destruct (compress_ops _ _ _ _); [|discriminate].
  intros H. injection H as <-. auto.
Qed.

(** Whatever its arguments, the [for] loop of [compress] queues copies of
    1 to 255 bytes that together move the bytes from [to_compress] on, as
    many as its [uint16_t] count says, lowest address first. *)
Lemma compress_copy_any fuel : forall to_overwrite to_compress next ops t,
  compress_copy fuel to_overwrite to_compress next = Some (ops, t) ->
  Forall is_chunk ops
  /\ t = to_overwrite + uint16 (next - to_compress)
  /\ flat_map expand ops
     = moves to_overwrite to_compress
         (Z.to_nat (uint16 (next - to_compress))).
Proof.
  induction fuel as [|fuel IH]; intros to tc next ops t H;
    cbn [compress_copy] in H;
    destruct (Z.eqb_spec (uint16 (next - tc)) 0) as [E0 | E0];
    try discriminate;
    try (injection H as <- <-; rewrite E0, Z.add_0_r;
         split; [constructor | split; reflexivity]).
  set (len := if uint16 (next - tc) >? UINT8_MAX then UINT8_MAX
              else uint16 (next - tc)) in H.
  assert (Hrange : 0 <= uint16 (next - tc) < 65536)
    by (unfold uint16; apply Z.mod_pos_bound; lia).
  assert (Hlen : 1 <= len <= UINT8_MAX /\ len <= uint16 (next - tc)).
  { subst len. unfold UINT8_MAX.
    destruct (Z.gtb_spec (uint16 (next - tc)) 255); lia. }
  assert (Erest : uint16 (next - (tc + len)) = uint16 (next - tc) - len).
  { unfold uint16 in *. unfold UINT8_MAX in Hlen.
    Z.div_mod_to_equations. lia. }
  clearbody len.
  destruct (compress_copy fuel (to + len) (tc + len) next)
    as [[ops' t']|] eqn:E; [|discriminate].
  injection H as <- <-.
  destruct (IH _ _ _ _ _ E) as (Hc & Ht & Hm).
  split; [constructor; [exact (proj1 Hlen) | exact Hc]|].
  split; [lia|].
  cbn [flat_map expand eeprom__copy]. rewrite Hm, Erest.
  replace (Z.to_nat (uint16 (next - tc)))
    with (Z.to_nat len + Z.to_nat (uint16 (next - tc) - len))%nat by lia.
  rewrite moves_app. do 2 f_equal; lia.
Qed.

(** The bytes of the macros up to the first deleted one are where the
    macros are. *)
Lemma macros_holds_before_deleted m a rs :
  macros m a rs ->
  holds m a
    (concat (before_deleted rs)
     ++ match from_deleted rs with [] => [TYPE_END] | _ => [] end).
Proof.
  intros [_ H]. rewrite (before_deleted_split rs) in H at 1.
  rewrite concat_app, <- app_assoc in H.
  destruct (from_deleted rs) as [|d ds].
  - exact H.
  - apply holds_app in H as [H _]. now rewrite app_nil_r.
Qed.

Section Store.

Variable OPT__EEPROM__EEPROM_MACRO__START : Z.
Variable OPT__EEPROM__EEPROM_MACRO__END : Z.

(** An address is not negative. *)
Hypothesis START_nonneg : 0 <= OPT__EEPROM__EEPROM_MACRO__START.

(** "OPT__EEPROM__EEPROM_MACRO__END must not be greater than 1023" *)
Hypothesis END_max : OPT__EEPROM__EEPROM_MACRO__END <= 1023.

Local Notation "'START'" := OPT__EEPROM__EEPROM_MACRO__START.
Local Notation "'END'" := OPT__EEPROM__EEPROM_MACRO__END.
Local Notation "'MACROS_START'" := (EEMEM_MACROS_START START).
Local Notation "'MACROS_END'" := (EEMEM_MACROS_END END).

(** C1.  Codec round trip: for every key-action with layer, row and column
    in [0, 255], reading with [read_key_action], from the first byte
    written, the bytes that a successful [write_key_action] wrote gives the
    key-action back, equal in all four fields. *)
Theorem codec_round_trip :
  forall (m : eeprom) (to : Z) (k : key_action_t) (fuel : nat),
  uint8_fields k ->
  to <= EEMEM_END END - 4 ->
  (3 <= fuel)%nat ->
  fst (write_key_action END to k) <> 0
  /\ read_key_action fuel (flush m (snd (write_key_action END to k))) to
     = Some k.
Proof.
  intros m to k fuel Hk Hto Hf.
  rewrite write_key_action_success by assumption. cbn [fst snd].
  destruct (leading_zero_pairs_bound k Hk) as [Hs Hb].
  split; [lia|].
  apply all_below_true in Hb. destruct Hk as (Hl & Hr & Hc).
  remember (leading_zero_pairs k) as s.
  replace (4 - s)%nat with (S (3 - s)) in * by lia.
  rewrite (read_key_action_bytes (3 - s) k (pressed k)); try lia.
  - now destruct k.
  - apply flush_writes_holds.
Qed.

(** C4.  Encode length: a successful [write_key_action] writes exactly
    4 - s bytes, to consecutive addresses, and returns 4 - s, where s, at
    most 3, is the number of leading pairs of bits that are zero in all of
    layer, row and column; so between 1 and 4 bytes.  The key-action
    (false, 0, 0, 0) is written as 1 byte, and (false, 0b00000100,
    0b00011001, 0b00100011) as the 3 bytes 0b10000110, 0b11011000,
    0b01000111. *)
Theorem write_key_action_length :
  forall (to : Z) (k : key_action_t),
  uint8_fields k ->
  to <= EEMEM_END END - 4 ->
  let s := leading_zero_pairs k in
  let written := fst (write_key_action END to k) in
  let ops := snd (write_key_action END to k) in
  (s <= 3)%nat
  /\ written = 4 - Z.of_nat s
  /\ 1 <= written <= 4
  /\ length ops = (4 - s)%nat
  /\ ops = writes to (key_action_bytes (4 - s) (pressed k) k)
  /\ snd (write_key_action END to
            {| pressed := false; layer := 0; row := 0; column := 0 |})
     = [Write to 0x00]
  /\ snd (write_key_action END to
            {| pressed := false; layer := 0x04; row := 0x19;
               column := 0x23 |})
     = [Write to 0x86; Write (to + 1) 0xD8; Write (to + 1 + 1) 0x47].
Proof.
  intros to k Hk Hto s written ops. subst s written ops.
  rewrite write_key_action_success by assumption. cbn [fst snd].
  destruct (leading_zero_pairs_bound k Hk) as [Hs _].
  split; [exact Hs|]. split; [reflexivity|]. split; [lia|].
  split; [now rewrite length_writes, length_key_action_bytes|].
  split; [reflexivity|].
  split; (rewrite write_key_action_success;
          [reflexivity | unfold uint8_fields; cbn; lia | exact Hto]).
Qed.

(** C7.  Encode failure: [write_key_action] returns 0 exactly when
    [to > EEMEM_END - 4], that is when fewer than 4 bytes are left before
    [EEMEM_END]; and when it returns 0 it has queued no write, so that the
    EEPROM stays as it is. *)
Theorem write_key_action_failure :
  forall (to : Z) (k : key_action_t),
  (fst (write_key_action END to k) = 0 <-> to > EEMEM_END END - 4)
  /\ (to > EEMEM_END END - 4 <-> EEMEM_END END - to < 4)
  /\ (fst (write_key_action END to k) = 0 ->
      snd (write_key_action END to k) = []
      /\ forall m, flush m (snd (write_key_action END to k)) = m).
Proof.
  intros to k.
  assert (H : fst (write_key_action END to k) = 0 <-> to > EEMEM_END END - 4).
  { unfold write_key_action.
    destruct (Z.gtb_spec to (EEMEM_END END - 4)) as [Hgt | Hle].
    - cbn [fst]. split; [lia | reflexivity].
    - pose proof (skip_pairs_range 3 0 k ltac:(lia)) as Hi.
      destruct (skip_pairs 3 0 k) as [i k']. cbn [fst] in *.
      unfold uint8. rewrite Z.mod_small by lia. lia. }
  split; [exact H|]. split; [lia|].
  intros H0. apply H in H0.
  rewrite write_key_action_no_space by exact H0. now split.
Qed.

(** C6.  Navigators: where the macros from [start] on are well formed and
    end with the one macro of [type == TYPE_END], [find_next_nondeleted]
    and [find_next_deleted] stop at or before that macro, after one step
    for each macro at most.  [find_next_nondeleted] returns the address of
    the first macro at or after [start] that is valid or the end;
    [find_next_deleted] returns the address of the first deleted macro at
    or after [start], or 0 when it reaches the end first. *)
Theorem navigators_terminate :
  forall (fuel : nat) (m : eeprom) (start : Z) (rs : list (list Z)),
  macros m start rs ->
  (length rs < fuel)%nat ->
  (exists pre post,
      rs = pre ++ post
      /\ forallb skippable pre = true
      /\ find_next_nondeleted fuel m start = Some (start + size pre)
      /\ match post with
         | [] => eeprom__read m (start + size pre) = TYPE_END
         | r :: _ =>
             macro_type r = TYPE_VALID_MACRO
             /\ eeprom__read m (start + size pre) = TYPE_VALID_MACRO
         end
      /\ start + size pre <= start + size rs)
  /\ ((exists pre d post,
          rs = pre ++ d :: post
          /\ forallb (fun r => negb (deleted r)) pre = true
          /\ find_next_deleted fuel m start = Some (start + size pre)
          /\ eeprom__read m (start + size pre) = TYPE_DELETED
          /\ start + size pre < start + size rs)
      \/ (forallb (fun r => negb (deleted r)) rs = true
          /\ find_next_deleted fuel m start = Some 0)).
Proof.
  intros fuel m start rs Hm Hf.
  pose proof (macros_well_formed _ _ _ Hm) as Hwf. split.
  - exists (skipped rs), (from_nondeleted rs).
    split; [apply skipped_split|]. split; [apply forallb_skipped|].
    split; [now apply find_next_nondeleted_macros|].
    assert (Hm' : macros m (start + size (skipped rs)) (from_nondeleted rs)).
    { apply macros_app. now rewrite <- skipped_split. }
    split.
    + pose proof (from_nondeleted_head rs) as Hh.
      destruct (well_formed_skipped _ Hwf) as [_ Hwf2].
      destruct (from_nondeleted rs) as [|r post].
      * now apply macros_nil.
      * apply macros_cons in Hm' as (Ht & _).
        cbn [forallb] in Hwf2. apply andb_prop in Hwf2 as [Hr _].
        rewrite Ht. split; now apply not_skippable_valid.
    + pose proof (size_skipped rs).
      pose proof (size_nonneg (from_nondeleted rs)). lia.
  - pose proof (find_next_deleted_macros rs fuel m start Hm Hf) as Hfind.
    pose proof (before_deleted_split rs) as Hsplit.
    pose proof (from_deleted_head rs) as Hd.
    assert (Hm' : macros m (start + size (before_deleted rs))
                    (from_deleted rs)).
    { apply macros_app. now rewrite <- before_deleted_split. }
    destruct (from_deleted rs) as [|d post].
    + right. split; [|exact Hfind].
      rewrite Hsplit, app_nil_r. apply forallb_before_deleted.
    + left. exists (before_deleted rs), d, post.
      split; [exact Hsplit|]. split; [apply forallb_before_deleted|].
      split; [exact Hfind|].
      apply macros_cons in Hm' as (Ht & _ & _ & Hlen & _).
      split.
      * rewrite Ht. unfold deleted in Hd. now apply Z.eqb_eq.
      * pose proof (size_before_deleted rs) as Hs.
        apply (f_equal size) in Hsplit.
        rewrite size_app, size_cons in Hsplit.
        pose proof (size_nonneg post). lia.
Qed.

(** C5.  Lookup: where the macros are well formed, and the first
    key-action of every valid macro ends inside it, [find_key_action]
    returns the address of the first valid macro, in address order, whose
    first key-action reads as [k], equal in all four fields; the macros
    that are deleted or continued are not looked into.  When it reaches the
    end without a match it returns 0, which is the address of no macro:
    the macros start at [EEMEM_START + 5]. *)
Theorem find_key_action_correct :
  forall (fuel : nat) (m : eeprom) (rs : list (list Z)) (k : key_action_t),
  macros m MACROS_START rs ->
  (forall r, In r rs -> macro_type r = TYPE_VALID_MACRO ->
             key_action_ends r = true) ->
  size rs < Z.of_nat fuel ->
  ((exists pre r post,
       rs = pre ++ r :: post
       /\ find_key_action START fuel m k = Some (MACROS_START + size pre)
       /\ remaps m (MACROS_START + size pre) r k
       /\ none_remaps m MACROS_START pre k)
   \/ (find_key_action START fuel m k = Some 0
       /\ none_remaps m MACROS_START rs k))
  /\ MACROS_START = EEMEM_START START + 5
  /\ (forall pre, MACROS_START + size pre <> 0).
Proof.
  intros fuel m rs k Hm Hends Hf. split; [|split].
  - unfold find_key_action. now apply find_key_action_loop_spec.
  - unfold EEMEM_MACROS_START, EEMEM_VERSION_END, EEMEM_VERSION_START,
      EEMEM_END_ADDRESS_END, EEMEM_END_ADDRESS_START,
      EEMEM_START_ADDRESS_END, EEMEM_START_ADDRESS_START.
    lia.
  - intros pre. pose proof (MACROS_START_pos START START_nonneg).
    pose proof (size_nonneg pre). lia.
Qed.

(** C2.  Compaction, always parseable: where [compress] finds the macro
    area well formed, with [new_end_macro] right after the macro of
    [type == TYPE_END], then after every byte that its queued operations
    write, in the order of the queue, and so after each of the operations,
    the EEPROM holds from [EEMEM_MACROS_START] on a well-formed sequence
    of macros that ends with one macro of [type == TYPE_END]. *)
Theorem compress_always_parseable :
  forall (fuel : nat) (st : store) (rs : list (list Z)),
  well_formed MACROS_START MACROS_END st rs ->
  size rs + 1 < Z.of_nat fuel ->
  exists st',
    compress START fuel st = Some st'
    /\ (forall k,
          parseable MACROS_START
            (run (eemem st) (firstn k (flat_map expand (queue st')))))
    /\ (forall j,
          parseable MACROS_START (flush (eemem st) (firstn j (queue st')))).
Proof.
  intros fuel st rs (Hq & Hm & Hend & Hmax & Hnew) Hf.
  destruct (compress_ops_spec START START_nonneg fuel (eemem st)
              (new_end_macro st) rs)
    as (ops & Eops & Hpre & _); try assumption.
  { lia. }
  { unfold EEMEM_MACROS_END, EEMEM_END in Hmax. lia. }
  unfold compress. rewrite Eops, Hq. cbn [app].
  eexists. split; [reflexivity|]. cbn [queue]. split; [exact Hpre|].
  intros j. unfold flush.
  rewrite <- (firstn_skipn j ops) in Hpre. rewrite flat_map_app in Hpre.
  specialize (Hpre (length (flat_map expand (firstn j ops)))).
  now rewrite firstn_length_app in Hpre.
Qed.

(** C3.  Compaction keeps the valid macros and their order: where the
    macro area holds a valid macro [A], a deleted one [B], a valid one
    [C], a deleted one [D] and the end, after [compress] and its queued
    operations the macro area begins with the bytes of [A], then the bytes
    of [C], then the end; type, length and data of [A] and [C] are as they
    were. *)
Theorem compress_keeps_valid_macros :
  forall (fuel : nat) (st : store) (A B C D : list Z),
  well_formed MACROS_START MACROS_END st [A; B; C; D] ->
  macro_type A = TYPE_VALID_MACRO ->
  macro_type B = TYPE_DELETED ->
  macro_type C = TYPE_VALID_MACRO ->
  macro_type D = TYPE_DELETED ->
  size [A; B; C; D] + 1 < Z.of_nat fuel ->
  exists st',
    compress START fuel st = Some st'
    /\ holds (eemem (flush_store st')) MACROS_START (A ++ C ++ [TYPE_END])
    /\ macros (eemem (flush_store st')) MACROS_START [A; C].
Proof.
  intros fuel st A B C D (Hq & Hm & Hend & Hmax & Hnew) HA HB HC HD Hf.
  destruct (compress_ops_spec START START_nonneg fuel (eemem st)
              (new_end_macro st) [A; B; C; D])
    as (ops & Eops & _ & Hpost); try assumption.
  { lia. }
  { unfold EEMEM_MACROS_END, EEMEM_END in Hmax. lia. }
  unfold compress. rewrite Eops, Hq. cbn [app].
  eexists. split; [reflexivity|]. cbn [flush_store eemem queue].
  assert (E : compressed false [A; B; C; D] = [A; C]).
  { cbn [compressed]. unfold deleted. rewrite HA, HB, HC, HD. reflexivity. }
  rewrite E in Hpost. split; [|exact Hpost].
  destruct Hpost as [_ H]. cbn [concat] in H.
  now rewrite app_nil_r, <- app_assoc in H.
Qed.

(** C8.  Compaction of a compact store, and idempotence: where the macro
    area holds no deleted macro, [compress] queues no operation, and the
    EEPROM stays as it is; and a second [compress], after a first one and
    its queued operations, queues no operation, and leaves the EEPROM
    byte for byte as the first one left it. *)
Theorem compress_idempotent :
  forall (fuel : nat) (st : store) (rs : list (list Z)),
  well_formed MACROS_START MACROS_END st rs ->
  size rs + 1 < Z.of_nat fuel ->
  (forallb (fun r => negb (deleted r)) rs = true ->
   exists st',
     compress START fuel st = Some st'
     /\ queue st' = []
     /\ forall a, eemem (flush_store st') a = eemem st a)
  /\ exists st1 st2,
       compress START fuel st = Some st1
       /\ compress START fuel (flush_store st1) = Some st2
       /\ queue st2 = []
       /\ forall a, eemem (flush_store st2) a = eemem (flush_store st1) a.
Proof.
  intros fuel st rs (Hq & Hm & Hend & Hmax & Hnew) Hf.
  pose proof (macros_well_formed _ _ _ Hm) as Hwf.
  pose proof (length_le_size _ Hwf) as Hlen.
  pose proof (size_nonneg rs) as Hrs0.
  split.
  - intros Hnd. unfold compress.
    rewrite (compress_ops_compact START fuel (eemem st) _ rs)
      by (assumption || lia).
    rewrite Hq. eexists. split; [reflexivity|]. split; reflexivity.
  - destruct (compress_ops_spec START START_nonneg fuel (eemem st)
                (new_end_macro st) rs)
      as (ops & Eops & _ & Hpost); try assumption.
    { lia. }
    { unfold EEMEM_MACROS_END, EEMEM_END in Hmax. lia. }
    unfold compress at 1. rewrite Eops, Hq. cbn [app].
    eexists. eexists. split; [reflexivity|].
    unfold compress. cbn [flush_store eemem queue new_end_macro end_macro].
    rewrite (compress_ops_compact START fuel _ _ (compressed false rs)).
    + split; [reflexivity|]. split; reflexivity.
    + exact Hpost.
    + pose proof (length_compressed rs false). lia.
    + apply compressed_no_deleted.
Qed.

(** C10, as the code has it.  In every round of the loop of [compress],
    whatever the EEPROM holds, the queue gets first the copies of the bytes
    after the type of the macro at [to_compress], up to [next], in chunks
    of 1 to 255 bytes, lowest address first; then, if [next] is not
    [new_end_macro], the write of [TYPE_END] after the copied bytes; and
    last the write of the type that was read at [to_compress], to
    [type_location].  Where the macros from [next] on are well formed the
    round completes, the type is the first byte, and the copied bytes are
    the other bytes, of the macros from the first that is neither deleted
    nor continued up to the next deleted one, or up to and with the macro
    of [type == TYPE_END] when no deleted macro follows; [TYPE_END] is
    written exactly when a deleted macro follows. *)
Theorem compress_body_order :
  forall (fuel : nat) (m : eeprom) (new_end to_overwrite next : Z),
  (forall (ops : list nvm_op) (to_overwrite' next' : Z),
     compress_body fuel m new_end to_overwrite next
     = Some (ops, to_overwrite', next') ->
     exists to_compress copies,
       find_next_nondeleted fuel m next = Some to_compress
       /\ ops
          = copies
            ++ (if next' =? new_end then []
                else [Write to_overwrite' TYPE_END])
            ++ [Write to_overwrite (eeprom__read m to_compress)]
       /\ Forall is_chunk copies
       /\ flat_map expand copies
          = moves (to_overwrite + 1) (to_compress + 1)
              (Z.to_nat (uint16 (next' - (to_compress + 1))))
       /\ to_overwrite'
          = to_overwrite + 1 + uint16 (next' - (to_compress + 1)))
  /\ (forall rest : list (list Z),
        macros m next rest ->
        new_end = next + size rest + 1 ->
        0 < next -> new_end <= 65536 ->
        size rest + 1 < Z.of_nat fuel ->
        let to_compress := next + size (skipped rest) in
        let span := before_deleted (from_nondeleted rest) in
        let more := from_deleted (from_nondeleted rest) in
        exists copies type body,
          concat span ++ match more with [] => [TYPE_END] | _ => [] end
          = type :: body
          /\ holds m to_compress (type :: body)
          /\ compress_body fuel m new_end to_overwrite next
             = Some (copies
                     ++ match more with
                        | [] => []
                        | _ => [Write (to_overwrite + 1
                                       + Z.of_nat (length body)) TYPE_END]
                        end
                     ++ [Write to_overwrite type],
                     to_overwrite + 1 + Z.of_nat (length body),
                     match more with
                     | [] => new_end
                     | _ => to_compress + size span
                     end)
          /\ Forall is_chunk copies
          /\ flat_map expand copies
             = moves (to_overwrite + 1) (to_compress + 1) (length body)).
Proof.
  intros fuel m new_end w next. 
  assert (Hany : forall ops w' next',
     compress_body fuel m new_end w next = Some (ops, w', next') ->
     exists to_compress copies,
       find_next_nondeleted fuel m next = Some to_compress
       /\ ops
          = copies
            ++ (if next' =? new_end then [] else [Write w' TYPE_END])
            ++ [Write w (eeprom__read m to_compress)]
       /\ Forall is_chunk copies
       /\ flat_map expand copies
          = moves (w + 1) (to_compress + 1)
              (Z.to_nat (uint16 (next' - (to_compress + 1))))
       /\ w' = w + 1 + uint16 (next' - (to_compress + 1))).
  { intros ops w' next' H. unfold compress_body in H.
    destruct (find_next_nondeleted fuel m next) as [to_compress|];
      [|discriminate].
    destruct (find_next_deleted fuel m to_compress) as [found|];
      [|discriminate].
    destruct (compress_copy fuel _ _ _) as [[copies t]|] eqn:E;
      [|discriminate].
    injection H as <- <- <-.
    destruct (compress_copy_any _ _ _ _ _ _ E) as (Hc & Ht & Hm).
    exists to_compress, copies. split; [reflexivity|].
    split; [rewrite Ht; reflexivity|]. split; [exact Hc|].
    split; [exact Hm | exact Ht]. }
  split; [exact Hany|].
  intros rest Hm Hnew Hn Hmax Hfuel. cbv zeta.
  destruct (compress_body_spec fuel m new_end w next rest Hm Hnew Hn Hmax
              Hfuel) as (copies0 & E & _ & _ & Hsize).
  cbv zeta in E, Hsize.
  pose proof (macros_holds_before_deleted m _ (from_nondeleted rest)
                (macros_app m next (skipped rest) (from_nondeleted rest)
                   ltac:(now rewrite <- skipped_split))) as Hh.
  destruct (Hany _ _ _ E) as (tc & copies & Etc & Eops & Hc & Hmv & Hw).
  rewrite (find_next_nondeleted_macros rest) in Etc
    by (try assumption;
        pose proof (length_le_size _ (macros_well_formed _ _ _ Hm)); lia).
  injection Etc as <-.
  set (tc := next + size (skipped rest)) in *.
  set (sp := before_deleted (from_nondeleted rest)) in *.
  set (r2 := from_deleted (from_nondeleted rest)) in *.
  assert (Hpos : r2 <> [] -> 2 <= size sp).
  { intros Hr2. apply before_deleted_from_nondeleted;
      [exact (macros_well_formed _ _ _ Hm)|].
    intros E'. apply Hr2. subst r2. now rewrite E'. }
  assert (Hb : exists type body,
             concat sp ++ match r2 with [] => [TYPE_END] | _ => [] end
             = type :: body).
  { destruct (concat sp ++ match r2 with [] => [TYPE_END] | _ => [] end)
      as [|type body] eqn:Eb; [exfalso | eauto].
    apply (f_equal (@length Z)) in Eb. rewrite length_app in Eb.
    destruct r2; cbn [length] in Eb; [lia|].
    specialize (Hpos ltac:(discriminate)). unfold size in Hpos. lia. }
  destruct Hb as (type & body & Eb).
  assert (Hlen : Z.of_nat (length (type :: body))
                 = match r2 with [] => new_end | _ => tc + size sp end - tc).
  { rewrite <- Eb, length_app. unfold size in Hsize |- *.
    rewrite Hsize. destruct r2; cbn [length]; lia. }
  rewrite Eb in Hh.
  exists copies, type, body. split; [exact Eb|]. split; [exact Hh|].
  cbn [length] in Hlen.
  assert (Ew : w + (match r2 with [] => new_end | _ => tc + size sp end - tc)
               = w + 1 + Z.of_nat (length body)) by lia.
  assert (Eu : uint16 (match r2 with [] => new_end | _ => tc + size sp end
                       - (tc + 1)) = Z.of_nat (length body)).
  { rewrite Hw in Ew. lia. }
  rewrite Eu, Nat2Z.id in Hmv.
  split; [|split; [exact Hc | exact Hmv]].
  pose proof (size_skipped rest) as Hs1.
  pose proof (size_before_deleted (from_nondeleted rest)) as Hs2.
  fold sp r2 in Hs2. pose proof (size_nonneg r2) as Hs3.
  assert (Etype : eeprom__read m tc = type)
    by (unfold eeprom__read; cbn [holds] in Hh; tauto).
  rewrite E, Eops, Ew, Etype. do 3 f_equal.
  destruct r2 as [|d r2'] eqn:Er2; [now rewrite Z.eqb_refl|].
  destruct (Z.eqb_spec (tc + size sp) new_end) as [Ee | Ee];
    [|reflexivity].
  subst tc. lia.
Qed.

End Store.

(** * The theorems at work on the example *)

Lemma example_macros_in_eeprom : macros example_eeprom 5 example_macros.
Proof. split; [reflexivity|]. vm_compute. repeat split. Qed.

Lemma example_tail_in_eeprom : macros example_eeprom 8 example_tail.
Proof. split; [reflexivity|]. vm_compute. repeat split. Qed.

Lemma example_well_formed :
  well_formed (EEMEM_MACROS_START 0) (EEMEM_MACROS_END 1023) example_store
    example_macros.
Proof.
  split; [reflexivity|]. split; [exact example_macros_in_eeprom|].
  split; [reflexivity|]. split; [vm_compute; discriminate | reflexivity].
Qed.

Lemma example_key_actions_end :
  forall r, In r example_macros -> macro_type r = TYPE_VALID_MACRO ->
            key_action_ends r = true.
Proof.
  intros r Hin Hv. cbn [example_macros In] in Hin.
  destruct Hin as [<- | [<- | [<- | [<- | []]]]];
    solve [reflexivity | discriminate Hv].
Qed.

Lemma example_uint8_fields : uint8_fields example_key_action.
Proof. unfold uint8_fields. cbn. lia. Qed.

(** The deleted macro of the example has a data byte, [0x47], that reads
    as a key-action; [find_key_action] does not find it. *)
Example find_key_action_skips_deleted :
  read_key_action 0 example_eeprom 10
  = Some {| pressed := true; layer := 0; row := 1; column := 3 |}
  /\ find_key_action 0 20 example_eeprom
       {| pressed := true; layer := 0; row := 1; column := 3 |}
     = Some 0.
Proof. split; reflexivity. Qed.

(** The example of an encoded key-action in the documentation of the
    EEMEM layout, read back. *)
Example read_key_action_documented :
  read_key_action 2 (eeprom_of 0 [0x86; 0xD8; 0x47]) 0
  = Some example_key_action.
Proof. reflexivity. Qed.

Example find_key_action_finds_C :
  find_key_action 0 20 example_eeprom example_first_C = Some 11.
Proof. reflexivity. Qed.

Lemma codec_round_trip_witness :
  uint8_fields example_key_action
  /\ 5 <= EEMEM_END 1023 - 4
  /\ (3 <= 3)%nat
  /\ fst (write_key_action 1023 5 example_key_action) <> 0
  /\ read_key_action 3
       (flush example_eeprom
          (snd (write_key_action 1023 5 example_key_action))) 5
     = Some example_key_action.
Proof.
  assert (H2 : 5 <= EEMEM_END 1023 - 4) by (unfold EEMEM_END; lia).
  assert (H3 : (3 <= 3)%nat) by lia.
  split; [exact example_uint8_fields|]. split; [exact H2|].
  split; [exact H3|].
  exact (codec_round_trip 1023 example_eeprom 5 example_key_action 3
           example_uint8_fields H2 H3).
Defined.

Lemma write_key_action_length_witness :
  uint8_fields example_key_action
  /\ 5 <= EEMEM_END 1023 - 4
  /\ (leading_zero_pairs example_key_action <= 3)%nat
  /\ fst (write_key_action 1023 5 example_key_action)
     = 4 - Z.of_nat (leading_zero_pairs example_key_action)
  /\ 1 <= fst (write_key_action 1023 5 example_key_action) <= 4
  /\ length (snd (write_key_action 1023 5 example_key_action))
     = (4 - leading_zero_pairs example_key_action)%nat
  /\ snd (write_key_action 1023 5 example_key_action)
     = writes 5
         (key_action_bytes (4 - leading_zero_pairs example_key_action)
            (pressed example_key_action) example_key_action)
  /\ snd (write_key_action 1023 5
            {| pressed := false; layer := 0; row := 0; column := 0 |})
     = [Write 5 0x00]
  /\ snd (write_key_action 1023 5
            {| pressed := false; layer := 0x04; row := 0x19;
               column := 0x23 |})
     = [Write 5 0x86; Write (5 + 1) 0xD8; Write (5 + 1 + 1) 0x47].
Proof.
  assert (H2 : 5 <= EEMEM_END 1023 - 4) by (unfold EEMEM_END; lia).
  split; [exact example_uint8_fields|]. split; [exact H2|].
  exact (write_key_action_length 1023 5 example_key_action
           example_uint8_fields H2).
Defined.

Lemma write_key_action_failure_witness :
  (fst (write_key_action 1023 1020 example_key_action) = 0
   <-> 1020 > EEMEM_END 1023 - 4)
  /\ (1020 > EEMEM_END 1023 - 4 <-> EEMEM_END 1023 - 1020 < 4)
  /\ (fst (write_key_action 1023 1020 example_key_action) = 0 ->
      snd (write_key_action 1023 1020 example_key_action) = []
      /\ forall m,
           flush m (snd (write_key_action 1023 1020 example_key_action))
           = m).
Proof.
  exact (write_key_action_failure 1023 1020 example_key_action).
Defined.

Lemma navigators_terminate_witness :
  macros example_eeprom 8 example_tail
  /\ (length example_tail < 4)%nat
  /\ (exists pre post,
         example_tail = pre ++ post
         /\ forallb skippable pre = true
         /\ find_next_nondeleted 4 example_eeprom 8 = Some (8 + size pre)
         /\ match post with
            | [] => eeprom__read example_eeprom (8 + size pre) = TYPE_END
            | r :: _ =>
                macro_type r = TYPE_VALID_MACRO
                /\ eeprom__read example_eeprom (8 + size pre)
                   = TYPE_VALID_MACRO
            end
         /\ 8 + size pre <= 8 + size example_tail)
  /\ ((exists pre d post,
          example_tail = pre ++ d :: post
          /\ forallb (fun r => negb (deleted r)) pre = true
          /\ find_next_deleted 4 example_eeprom 8 = Some (8 + size pre)
          /\ eeprom__read example_eeprom (8 + size pre) = TYPE_DELETED
          /\ 8 + size pre < 8 + size example_tail)
      \/ (forallb (fun r => negb (deleted r)) example_tail = true
          /\ find_next_deleted 4 example_eeprom 8 = Some 0)).
Proof.
  assert (H2 : (length example_tail < 4)%nat) by (cbn; lia).
  split; [exact example_tail_in_eeprom|]. split; [exact H2|].
  exact (navigators_terminate 4 example_eeprom 8 example_tail
           example_tail_in_eeprom H2).
Defined.

Lemma find_key_action_correct_witness :
  0 <= 0
  /\ macros example_eeprom (EEMEM_MACROS_START 0) example_macros
  /\ (forall r, In r example_macros -> macro_type r = TYPE_VALID_MACRO ->
                key_action_ends r = true)
  /\ size example_macros < Z.of_nat 20
  /\ ((exists pre r post,
          example_macros = pre ++ r :: post
          /\ find_key_action 0 20 example_eeprom example_first_C
             = Some (EEMEM_MACROS_START 0 + size pre)
          /\ remaps example_eeprom (EEMEM_MACROS_START 0 + size pre) r
               example_first_C
          /\ none_remaps example_eeprom (EEMEM_MACROS_START 0) pre
               example_first_C)
      \/ (find_key_action 0 20 example_eeprom example_first_C = Some 0
          /\ none_remaps example_eeprom (EEMEM_MACROS_START 0)
               example_macros example_first_C))
  /\ EEMEM_MACROS_START 0 = EEMEM_START 0 + 5
  /\ (forall pre, EEMEM_MACROS_START 0 + size pre <> 0).
Proof.
  assert (H0 : 0 <= 0) by lia.
  assert (H3 : size example_macros < Z.of_nat 20)
    by (vm_compute; reflexivity).
  split; [exact H0|]. split; [exact example_macros_in_eeprom|].
  split; [exact example_key_actions_end|]. split; [exact H3|].
  exact (find_key_action_correct 0 H0 20 example_eeprom example_macros
           example_first_C example_macros_in_eeprom
           example_key_actions_end H3).
Defined.

Lemma compress_always_parseable_witness :
  0 <= 0
  /\ 1023 <= 1023
  /\ well_formed (EEMEM_MACROS_START 0) (EEMEM_MACROS_END 1023)
       example_store example_macros
  /\ size example_macros + 1 < Z.of_nat 20
  /\ exists st',
       compress 0 20 example_store = Some st'
       /\ (forall k,
             parseable (EEMEM_MACROS_START 0)
               (run (eemem example_store)
                  (firstn k (flat_map expand (queue st')))))
       /\ (forall j,
             parseable (EEMEM_MACROS_START 0)
               (flush (eemem example_store) (firstn j (queue st')))).
Proof.
  assert (H0 : 0 <= 0) by lia.
  assert (H1 : 1023 <= 1023) by lia.
  assert (H3 : size example_macros + 1 < Z.of_nat 20)
    by (vm_compute; reflexivity).
  split; [exact H0|]. split; [exact H1|].
  split; [exact example_well_formed|]. split; [exact H3|].
  exact (compress_always_parseable 0 1023 H0 H1 20 example_store
           example_macros example_well_formed H3).
Defined.

Lemma compress_keeps_valid_macros_witness :
  0 <= 0
  /\ 1023 <= 1023
  /\ well_formed (EEMEM_MACROS_START 0) (EEMEM_MACROS_END 1023)
       example_store [example_A; example_B; example_C; example_D]
  /\ macro_type example_A = TYPE_VALID_MACRO
  /\ macro_type example_B = TYPE_DELETED
  /\ macro_type example_C = TYPE_VALID_MACRO
  /\ macro_type example_D = TYPE_DELETED
  /\ size [example_A; example_B; example_C; example_D] + 1 < Z.of_nat 20
  /\ exists st',
       compress 0 20 example_store = Some st'
       /\ holds (eemem (flush_store st')) (EEMEM_MACROS_START 0)
            (example_A ++ example_C ++ [TYPE_END])
       /\ macros (eemem (flush_store st')) (EEMEM_MACROS_START 0)
            [example_A; example_C].
Proof.
  assert (H0 : 0 <= 0) by lia.
  assert (H1 : 1023 <= 1023) by lia.
  assert (H3 : size [example_A; example_B; example_C; example_D] + 1
               < Z.of_nat 20) by (vm_compute; reflexivity).
  split; [exact H0|]. split; [exact H1|].
  split; [exact example_well_formed|].
  split; [reflexivity|]. split; [reflexivity|]. split; [reflexivity|].
  split; [reflexivity|]. split; [exact H3|].
  exact (compress_keeps_valid_macros 0 1023 H0 H1 20 example_store
           example_A example_B example_C example_D example_well_formed
           eq_refl eq_refl eq_refl eq_refl H3).
Defined.

Lemma compress_idempotent_witness :
  0 <= 0
  /\ 1023 <= 1023
  /\ well_formed (EEMEM_MACROS_START 0) (EEMEM_MACROS_END 1023)
       example_store example_macros
  /\ size example_macros + 1 < Z.of_nat 20
  /\ (forallb (fun r => negb (deleted r)) example_macros = true ->
      exists st',
        compress 0 20 example_store = Some st'
        /\ queue st' = []
        /\ forall a, eemem (flush_store st') a = eemem example_store a)
  /\ exists st1 st2,
       compress 0 20 example_store = Some st1
       /\ compress 0 20 (flush_store st1) = Some st2
       /\ queue st2 = []
       /\ forall a, eemem (flush_store st2) a = eemem (flush_store st1) a.
Proof.
  assert (H0 : 0 <= 0) by lia.
  assert (H1 : 1023 <= 1023) by lia.
  assert (H3 : size example_macros + 1 < Z.of_nat 20)
    by (vm_compute; reflexivity).
  split; [exact H0|]. split; [exact H1|].
  split; [exact example_well_formed|]. split; [exact H3|].
  exact (compress_idempotent 0 1023 H0 H1 20 example_store example_macros
           example_well_formed H3).
Defined.

Lemma example_round_in_eeprom :
  macros example_eeprom 11 [example_C; example_D].
Proof. split; [reflexivity|]. vm_compute. repeat split. Qed.

Lemma compress_body_order_witness :
  compress_body 20 example_eeprom 18 8 11
  = Some ([Copy 9 12 3; Write 12 TYPE_END; Write 8 TYPE_VALID_MACRO], 12, 15)
  /\ macros example_eeprom 11 [example_C; example_D]
  /\ 18 = 11 + size [example_C; example_D] + 1
  /\ 0 < 11
  /\ 18 <= 65536
  /\ size [example_C; example_D] + 1 < Z.of_nat 20
  /\ (exists to_compress copies,
        find_next_nondeleted 20 example_eeprom 11 = Some to_compress
        /\ [Copy 9 12 3; Write 12 TYPE_END; Write 8 TYPE_VALID_MACRO]
           = copies
             ++ (if 15 =? 18 then [] else [Write 12 TYPE_END])
             ++ [Write 8 (eeprom__read example_eeprom to_compress)]
        /\ Forall is_chunk copies
        /\ flat_map expand copies
           = moves (8 + 1) (to_compress + 1)
               (Z.to_nat (uint16 (15 - (to_compress + 1))))
        /\ 12 = 8 + 1 + uint16 (15 - (to_compress + 1)))
  /\ exists copies type body,
       concat [example_C] ++ [] = type :: body
       /\ holds example_eeprom 11 (type :: body)
       /\ compress_body 20 example_eeprom 18 8 11
          = Some (copies
                  ++ [Write (8 + 1 + Z.of_nat (length body)) TYPE_END]
                  ++ [Write 8 type],
                  8 + 1 + Z.of_nat (length body), 15)
       /\ Forall is_chunk copies
       /\ flat_map expand copies = moves (8 + 1) (11 + 1) (length body).
Proof.
  assert (H : compress_body 20 example_eeprom 18 8 11
              = Some ([Copy 9 12 3; Write 12 TYPE_END;
                       Write 8 TYPE_VALID_MACRO], 12, 15))
    by (vm_compute; reflexivity).
  assert (H1 : 18 = 11 + size [example_C; example_D] + 1) by reflexivity.
  assert (H2 : 0 < 11) by lia.
  assert (H3 : 18 <= 65536) by lia.
  assert (H4 : size [example_C; example_D] + 1 < Z.of_nat 20)
    by (vm_compute; reflexivity).
  split; [exact H|]. split; [exact example_round_in_eeprom|].
  split; [exact H1|]. split; [exact H2|]. split; [exact H3|].
  split; [exact H4|]. split.
  - exact (proj1 (compress_body_order 20 example_eeprom 18 8 11) _ 12 15 H).
  - exact (proj2 (compress_body_order 20 example_eeprom 18 8 11)
             [example_C; example_D] example_round_in_eeprom H1 H2 H3 H4).
Defined.

(** C10, as the claim has it, fails.  In the first round of [compress] on
    the example, the copy of the bytes of the valid macro is queued first
    and the write of its type last: the type is not written before the
    bytes are copied. *)
Lemma compress_type_written_last :
  compress_body 20 example_eeprom 18 8 11
  = Some ([Copy 9 12 3; Write 12 TYPE_END; Write 8 TYPE_VALID_MACRO], 12, 15)
  /\ option_map queue (compress 0 20 example_store)
     = Some [Write 8 TYPE_END; Copy 9 12 3; Write 12 TYPE_END;
             Write 8 TYPE_VALID_MACRO; Write 12 TYPE_END]
  /\ ~ type_before_copies 8
         [Copy 9 12 3; Write 12 TYPE_END; Write 8 TYPE_VALID_MACRO].
Proof.
  split; [vm_compute; reflexivity|]. split; [vm_compute; reflexivity|].
  intros H.
  specialize (H 2%nat 0%nat TYPE_VALID_MACRO 9 12 3 eq_refl eq_refl). lia.
Qed.

(** C9, on the code.  After [compress] on the example and its queued
    operations, the macro of [type == TYPE_END] is at address 12 and the
    next free byte at 13, yet [end_macro] is still 17 and [new_end_macro]
    still 18: [compress] does not update them. *)
Lemma compress_leaves_end_macro :
  match compress 0 20 example_store with
  | Some st' =>
      macros (eemem (flush_store st')) 5 [example_A; example_C]
      /\ find_next_nondeleted 20 (eemem (flush_store st')) 12 = Some 12
      /\ eeprom__read (eemem (flush_store st')) 12 = TYPE_END
      /\ end_macro (flush_store st') = 17
      /\ new_end_macro (flush_store st') = 18
  | None => False
  end.
Proof.
  vm_compute. repeat split.
Qed.

(** * Further properties of the code *)

(** Properties of the same functions that the code shows by itself.  Some
    of them hold on any EEPROM, well formed or not; the addresses are
    followed as [Z] there too, so a walk that leaves the EEPROM is not
    wrapped around. *)

(** ** More on what a compression keeps *)

Lemma compressed_subsequence rs : forall skipping,
  subsequence (compressed skipping rs) rs.
Proof.
  induction rs as [|r rs IH]; intros skipping; [constructor|].
  cbn [compressed]. destruct (deleted r); [constructor; apply IH|].
  destruct (skipping && (macro_type r =? TYPE_CONTINUED));
    constructor; apply IH.
Qed.

Lemma compressed_keeps_valid rs : forall skipping r,
  In r rs -> macro_type r = TYPE_VALID_MACRO ->
  In r (compressed skipping rs).
Proof.
  induction rs as [|r0 rs IH]; intros skipping r Hin Hv; [contradiction|].
  cbn [compressed]. destruct Hin as [-> | Hin].
  - unfold deleted. rewrite Hv. cbn. rewrite andb_false_r. now left.
  - destruct (deleted r0); [now apply IH|].
    destruct (skipping && (macro_type r0 =? TYPE_CONTINUED));
      [now apply IH | right; now apply IH].
Qed.

Lemma size_filter_deleted rs : forall skipping,
  size (compressed skipping rs) + size (filter deleted rs) <= size rs.
Proof.
  induction rs as [|r rs IH]; intros skipping; [cbn; lia|].
  cbn [compressed filter]. rewrite (size_cons r rs).
  destruct (deleted r).
  - rewrite size_cons. specialize (IH true). lia.
  - destruct (skipping && (macro_type r =? TYPE_CONTINUED)).
    + specialize (IH true). lia.
    + rewrite size_cons. specialize (IH false). lia.
Qed.

Lemma filter_deleted_all rs :
  forallb deleted rs = true -> filter deleted rs = rs.
Proof.
  induction rs as [|r rs IH]; intros H; [reflexivity|].
  cbn [forallb] in H. apply andb_prop in H as [Hr Hrs].
  cbn [filter]. now rewrite Hr, IH.
Qed.

Section FurtherCompress.

Variable OPT__EEPROM__EEPROM_MACRO__START : Z.
Variable OPT__EEPROM__EEPROM_MACRO__END : Z.
Hypothesis START_nonneg : 0 <= OPT__EEPROM__EEPROM_MACRO__START.
Hypothesis END_max : OPT__EEPROM__EEPROM_MACRO__END <= 1023.

Local Notation "'START'" := OPT__EEPROM__EEPROM_MACRO__START.
Local Notation "'END'" := OPT__EEPROM__EEPROM_MACRO__END.
Local Notation "'MACROS_START'" := (EEMEM_MACROS_START START).
Local Notation "'MACROS_END'" := (EEMEM_MACROS_END END).

(** [compress] on a well-formed store: its operations, and the macros they
    leave. *)
Lemma compress_well_formed fuel st rs :
  well_formed MACROS_START MACROS_END st rs ->
  size rs + 1 < Z.of_nat fuel ->
  exists ops,
    compress START fuel st
    = Some {| eemem := eemem st; queue := ops;
              end_macro := end_macro st;
              new_end_macro := new_end_macro st |}
    /\ compress_ops START fuel (eemem st) (new_end_macro st) = Some ops
    /\ macros (flush (eemem st) ops) MACROS_START (compressed false rs).
Proof.
  intros (Hq & Hm & Hend & Hmax & Hnew) Hf.
  destruct (compress_ops_spec START START_nonneg fuel (eemem st)
              (new_end_macro st) rs)
    as (ops & Eops & _ & Hpost); try assumption.
  { lia. }
  { unfold EEMEM_MACROS_END, EEMEM_END in Hmax. lia. }
  exists ops. unfold compress. rewrite Eops, Hq. auto.
Qed.

(** X1.  After [compress] and its queued operations, a well-formed macro
    area is well formed again and holds, byte for byte and in their order,
    the macros that were there, without the deleted ones and without the
    continued ones that followed a deleted one: every valid macro is kept,
    and no deleted macro is left. *)
Theorem compress_result :
  forall (fuel : nat) (st : store) (rs : list (list Z)),
  well_formed MACROS_START MACROS_END st rs ->
  size rs + 1 < Z.of_nat fuel ->
  exists st',
    compress START fuel st = Some st'
    /\ macros (eemem (flush_store st')) MACROS_START (compressed false rs)
    /\ subsequence (compressed false rs) rs
    /\ (forall r, In r rs -> macro_type r = TYPE_VALID_MACRO ->
                  In r (compressed false rs))
    /\ forallb (fun r => negb (deleted r)) (compressed false rs) = true.
Proof.
  intros fuel st rs Hwf Hf.
  destruct (compress_well_formed fuel st rs Hwf Hf) as (ops & E & _ & Hm).
  eexists. split; [exact E|]. split; [exact Hm|].
  split; [apply compressed_subsequence|].
  split; [intros r; apply compressed_keeps_valid|].
  apply compressed_no_deleted.
Qed.

(** X2.  [compress] frees the bytes of the deleted macros: after it and
    its queued operations the macro with [type == TYPE_END] is lower than
    [end_macro] was by the number of bytes of the deleted macros at least,
    and at [EEMEM_MACROS_START] when every macro was deleted. *)
Theorem compress_frees_deleted :
  forall (fuel : nat) (st : store) (rs : list (list Z)),
  well_formed MACROS_START MACROS_END st rs ->
  size rs + 1 < Z.of_nat fuel ->
  exists st' new_end,
    compress START fuel st = Some st'
    /\ eeprom__read (eemem (flush_store st')) new_end = TYPE_END
    /\ new_end = MACROS_START + size (compressed false rs)
    /\ new_end + size (filter deleted rs) <= end_macro st
    /\ (forallb deleted rs = true -> new_end = MACROS_START).
Proof.
  intros fuel st rs Hwf Hf.
  destruct (compress_well_formed fuel st rs Hwf Hf) as (ops & E & _ & Hm).
  destruct Hwf as (_ & Hm0 & Hend & _).
  pose proof (size_filter_deleted rs false) as Hsize.
  exists {| eemem := eemem st; queue := ops; end_macro := end_macro st;
            new_end_macro := new_end_macro st |},
    (MACROS_START + size (compressed false rs)).
  split; [exact E|]. cbn [flush_store eemem queue]. split.
  { apply macros_nil. apply (macros_app _ _ (compressed false rs) []).
    rewrite app_nil_r. exact Hm. }
  split; [reflexivity|]. split; [lia|].
  intros Hall. rewrite (filter_deleted_all rs Hall) in Hsize.
  pose proof (size_nonneg (compressed false rs)). lia.
Qed.

End FurtherCompress.

(** ** Where compress writes *)

(** The loop of [compress] writes from [to_overwrite] up to, and not
    including, the end of the macros. *)
Lemma compress_loop_targets m new_end fuel :
  new_end <= 65536 ->
  forall rounds rest n w ops,
  macros m n rest ->
  new_end = n + size rest + 1 ->
  size rest + 1 < Z.of_nat fuel ->
  0 < n -> w < n ->
  compress_loop rounds fuel m new_end w n = Some ops ->
  Forall (fun b => w <= target b < n + size rest) (flat_map expand ops).
Proof.
  intros Hmax.
  induction rounds as [|rounds IH];
    intros rest n w ops Hm Hnew Hfuel Hn Hlt Hloop;
    pose proof (size_nonneg rest) as Hrest0;
    cbn [compress_loop] in Hloop;
    (destruct (Z.eqb_spec n new_end) as [E | _]; [lia|]);
    [discriminate|].
  destruct (compress_body_spec fuel m new_end w n rest)
    as (copies & Ebody & Hcopies & Ecopies & En'); try assumption.
  rewrite Ebody in Hloop. clear Ebody.
  pose proof (size_skipped rest) as Hs1.
  pose proof (size_before_deleted (from_nondeleted rest)) as Hs2.
  pose proof (macros_well_formed _ _ _ Hm) as Hwf.
  pose proof (before_deleted_from_nondeleted rest Hwf) as Hsp.
  pose proof (length_round rest) as Hlr.
  assert (Hm2 : macros m (n + size (skipped rest)
                          + size (before_deleted (from_nondeleted rest)))
                  (from_deleted (from_nondeleted rest))).
  { apply macros_app. rewrite <- before_deleted_split.
    apply macros_app. now rewrite <- skipped_split. }
  set (tc := n + size (skipped rest)) in *.
  set (sp := before_deleted (from_nondeleted rest)) in *.
  set (r2 := from_deleted (from_nondeleted rest)) in *.
  set (n' := match r2 with [] => new_end | _ => tc + size sp end) in *.
  assert (Htc : tc = n + size (skipped rest)) by reflexivity.
  assert (Hn' : n' = match r2 with [] => new_end | _ => tc + size sp end)
    by reflexivity.
  assert (Hsp' : r2 <> [] -> 2 <= size sp).
  { intros Hne. apply Hsp. intros E. apply Hne. subst r2. now rewrite E. }
  clearbody tc sp r2 n'. clear Hsp.
  pose proof (size_nonneg (skipped rest)) as Hsk0.
  pose proof (size_nonneg sp) as Hsp0.
  pose proof (size_nonneg r2) as Hr20.
  assert (Hcase : r2 = [] \/ r2 <> [])
    by (destruct r2; [left | right]; congruence).
  assert (Hround :
    Forall (fun b => w <= target b < n + size rest)
      (flat_map expand
         (copies
          ++ match r2 with [] => [] | _ => [Write (w + (n' - tc)) TYPE_END] end
          ++ [Write w (m tc)]))).
  { rewrite !flat_map_app, Ecopies. apply Forall_app. split.
    - eapply Forall_impl; [|apply moves_target]. cbn beta. intros b Hb.
      destruct Hcase as [E | Hne].
      + rewrite E in En', Hs2. rewrite size_nil in Hs2. lia.
      + specialize (Hsp' Hne).
        assert (n' - tc = size sp) by (destruct r2; [congruence | lia]).
        lia.
    - apply Forall_app. split.
      + destruct Hcase as [E | Hne]; [rewrite E; constructor|].
        assert (n' - tc = size sp) by (destruct r2; [congruence | lia]).
        destruct r2; [congruence|]. cbn. constructor; [|constructor].
        cbn [target]. lia.
      + cbn. constructor; [|constructor]. cbn [target]. lia. }
  destruct (compress_loop rounds fuel m new_end (w + (n' - tc)) n')
    as [ops'|] eqn:Eloop; [|discriminate].
  injection Hloop as <-. rewrite flat_map_app. apply Forall_app.
  split; [exact Hround|].
  destruct Hcase as [E | Hne].
  - rewrite E in Hn'. rewrite Hn' in Eloop.
    destruct rounds; cbn [compress_loop] in Eloop;
      rewrite Z.eqb_refl in Eloop; injection Eloop as <-; constructor.
  - specialize (Hsp' Hne).
    assert (En2 : n' = tc + size sp) by (destruct r2; [congruence | lia]).
    rewrite En2 in Eloop.
    replace (tc + size sp - tc) with (size sp) in Eloop by lia.
    specialize (IH r2 (tc + size sp) (w + size sp) ops').
    eapply Forall_impl; [|apply IH; try assumption; try lia].
    cbn beta. intros b Hb. lia.
Qed.

Section WhereCompressWrites.

Variable OPT__EEPROM__EEPROM_MACRO__START : Z.
Variable OPT__EEPROM__EEPROM_MACRO__END : Z.
Hypothesis START_nonneg : 0 <= OPT__EEPROM__EEPROM_MACRO__START.
Hypothesis END_max : OPT__EEPROM__EEPROM_MACRO__END <= 1023.

Local Notation "'START'" := OPT__EEPROM__EEPROM_MACRO__START.
Local Notation "'END'" := OPT__EEPROM__EEPROM_MACRO__END.
Local Notation "'MACROS_START'" := (EEMEM_MACROS_START START).
Local Notation "'MACROS_END'" := (EEMEM_MACROS_END END).

Lemma compress_ops_targets fuel m new_end rs ops :
  macros m MACROS_START rs ->
  new_end = MACROS_START + size rs + 1 ->
  new_end <= 65536 ->
  size rs + 1 < Z.of_nat fuel ->
  compress_ops START fuel m new_end = Some ops ->
  Forall (fun b => MACROS_START + size (before_deleted rs) <= target b
                   < MACROS_START + size rs)
    (flat_map expand ops).
Proof.
  intros Hm Hnew Hmax Hfuel Hops.
  pose proof (MACROS_START_pos START START_nonneg) as Hpos.
  pose proof (macros_well_formed _ _ _ Hm) as Hwf.
  pose proof (length_le_size _ Hwf) as Hlen.
  pose proof (size_nonneg rs) as Hrs0.
  pose proof (size_before_deleted rs) as Hsize.
  pose proof (size_nonneg (before_deleted rs)) as Hpre0.
  pose proof (from_deleted_head rs) as Hd.
  unfold compress_ops in Hops.
  rewrite (find_next_deleted_macros rs) in Hops by (assumption || lia).
  assert (Hmr : macros m (MACROS_START + size (before_deleted rs))
                  (from_deleted rs)).
  { apply macros_app. now rewrite <- before_deleted_split. }
  destruct (from_deleted rs) as [|d rest'] eqn:E.
  { injection Hops as <-. constructor. }
  rewrite <- E in *.
  set (w := MACROS_START + size (before_deleted rs)) in *.
  assert (Hw : w = MACROS_START + size (before_deleted rs)) by reflexivity.
  clearbody w.
  destruct (Z.eqb_spec w 0) as [E0 | _]; [lia|].
  pose proof (macros_well_formed _ _ _ Hmr) as Hwfr.
  pose proof (length_le_size _ Hwfr) as Hlenr.
  pose proof (size_nonneg (from_deleted rs)) as Hrest0.
  rewrite (find_next_nondeleted_macros (from_deleted rs)) in Hops
    by (assumption || lia).
  assert (Hsk : 2 <= size (skipped (from_deleted rs))).
  { rewrite E in Hwfr |- *. cbn [skipped].
    rewrite (deleted_skippable d Hd). rewrite size_cons.
    cbn [forallb] in Hwfr. apply andb_prop in Hwfr as [Hwd _].
    apply well_formed_length in Hwd.
    pose proof (size_nonneg (skipped rest')). lia. }
  pose proof (size_skipped (from_deleted rs)) as Hs1.
  pose proof (size_nonneg (from_nondeleted (from_deleted rs))) as Hfn0.
  destruct (compress_loop fuel fuel m new_end w _) as [ops'|] eqn:Eloop;
    [|discriminate].
  injection Hops as <-. cbn [flat_map eeprom__write expand app].
  constructor; [cbn [target]; lia|].
  eapply Forall_impl;
    [|apply (compress_loop_targets m new_end fuel Hmax fuel
               (from_nondeleted (from_deleted rs))
               (w + size (skipped (from_deleted rs))) w ops');
      try assumption; try lia].
  - cbn beta. intros b Hb. lia.
  - apply macros_app. now rewrite <- skipped_split.
Qed.

(** X3.  [compress] writes only from the first deleted macro up to, and
    not including, the macro with [type == TYPE_END]: after it and its
    queued operations the bytes before the first deleted macro, the header
    of the block among them, and the bytes from [end_macro] on are as they
    were. *)
Theorem compress_writes_within :
  forall (fuel : nat) (st : store) (rs : list (list Z)),
  well_formed MACROS_START MACROS_END st rs ->
  size rs + 1 < Z.of_nat fuel ->
  exists st',
    compress START fuel st = Some st'
    /\ forall x,
         x < MACROS_START + size (before_deleted rs) \/ end_macro st <= x ->
         eemem (flush_store st') x = eemem st x.
Proof.
  intros fuel st rs Hwf Hf.
  destruct (compress_well_formed START END START_nonneg END_max
              fuel st rs Hwf Hf) as (ops & E & Eops & _).
  destruct Hwf as (_ & Hm & Hend & Hmax & Hnew).
  eexists. split; [exact E|]. cbn [flush_store eemem queue].
  intros x Hx. unfold flush. apply run_other.
  eapply Forall_impl;
    [|apply (compress_ops_targets fuel (eemem st) (new_end_macro st) rs ops);
      try assumption].
  - cbn beta. intros b Hb. lia.
  - lia.
  - unfold EEMEM_MACROS_END, EEMEM_END in Hmax. lia.
Qed.

End WhereCompressWrites.

(** ** Lookups and compression *)

Lemma eeprom_of_holds a bs : holds (eeprom_of a bs) a bs.
Proof.
  apply holds_nth. intros i Hi. unfold eeprom_of.
  replace (a + Z.of_nat i <? a) with false by (symmetry; apply Z.ltb_ge; lia).
  replace (Z.to_nat (a + Z.of_nat i - a)) with i by lia.
  now apply nth_indep.
Qed.

Lemma read_key_action_loop_same bs : forall fuel fuel' m m' from from' byte acc,
  holds m from bs -> holds m' from' bs ->
  (Z.shiftr byte 7 =? 0)
  || existsb (fun byte => Z.shiftr byte 7 =? 0) bs = true ->
  (length bs <= fuel)%nat -> (length bs <= fuel')%nat ->
  read_key_action_loop fuel m from byte acc
  = read_key_action_loop fuel' m' from' byte acc.
Proof.
  induction bs as [|b bs IH];
    intros fuel fuel' m m' from from' byte acc Hm Hm' He Hf Hf'.
  - cbn [existsb] in He. rewrite orb_false_r in He.
    destruct fuel, fuel'; cbn [read_key_action_loop]; now rewrite He.
  - destruct fuel as [|fuel]; [cbn [length] in Hf; lia|].
    destruct fuel' as [|fuel']; [cbn [length] in Hf'; lia|].
    cbn [read_key_action_loop].
    destruct (Z.shiftr byte 7 =? 0); [reflexivity|].
    destruct Hm as [Hb Hm], Hm' as [Hb' Hm']. unfold eeprom__read.
    rewrite Hb, Hb'.
    apply IH; try assumption; cbn [length] in Hf, Hf'; lia.
Qed.

(** The first key-action of a macro is read from the bytes of the macro,
    wherever the macro is. *)
Lemma read_key_action_of_macro m a r fuel :
  holds m a r -> key_action_ends r = true ->
  (length r <= fuel)%nat ->
  read_key_action fuel m (a + 2)
  = read_key_action (length r) (eeprom_of 0 r) 2.
Proof.
  intros Hm He Hf. pose proof (eeprom_of_holds 0 r) as Hm'.
  unfold key_action_ends in He.
  destruct r as [|type [|len [|b data]]]; try discriminate.
  cbn [skipn] in He. cbn [holds] in Hm, Hm'.
  destruct Hm as (_ & _ & Hb & Hm), Hm' as (_ & _ & Hb' & Hm').
  unfold read_key_action, eeprom__read.
  replace (a + 1 + 1) with (a + 2) in * by lia.
  change (0 + 1 + 1) with 2 in *. rewrite Hb, Hb'.
  apply (read_key_action_loop_same data); try assumption;
    cbn [length] in *; lia.
Qed.

Lemma remapping_valid k r :
  remapping k r = true -> macro_type r = TYPE_VALID_MACRO.
Proof.
  unfold remapping. intros H. apply andb_prop in H as [H _].
  now apply Z.eqb_eq.
Qed.

Lemma lookup_some k rs : forall offset r,
  lookup k rs = Some (offset, r) ->
  exists pre post,
    rs = pre ++ r :: post /\ offset = size pre /\ remapping k r = true.
Proof.
  induction rs as [|r0 rs IH]; intros offset r H; [discriminate|].
  cbn [lookup] in H. destruct (remapping k r0) eqn:E.
  - injection H as <- <-. exists [], rs. auto.
  - destruct (lookup k rs) as [[offset' r']|]; [|discriminate].
    injection H as <- <-.
    destruct (IH offset' r' eq_refl) as (pre & post & -> & -> & Hr).
    exists (r0 :: pre), post. rewrite size_cons. auto.
Qed.

(** [find_key_action] on well-formed macros is [lookup] on their bytes. *)
Lemma find_key_action_loop_lookup m k rs : forall fuel current,
  macros m current rs ->
  (forall r, In r rs -> macro_type r = TYPE_VALID_MACRO ->
             key_action_ends r = true) ->
  size rs < Z.of_nat fuel ->
  find_key_action_loop fuel m current k
  = Some match lookup k rs with
         | Some (offset, _) => current + offset
         | None => 0
         end.
Proof.
  induction rs as [|r rs IH]; intros fuel current Hm Hends Hf.
  - destruct fuel as [|fuel]; [cbn in Hf; lia|].
    cbn [find_key_action_loop lookup]. now rewrite (macros_nil _ _ Hm).
  - destruct fuel as [|fuel]; [pose proof (size_nonneg (r :: rs)); lia|].
    pose proof (macros_cons _ _ _ _ Hm) as (Ht & Hne & Hl & Hlen & Hr & Hrs).
    rewrite size_cons in Hf. pose proof (size_nonneg rs) as Hrs0.
    cbn [find_key_action_loop lookup]. rewrite Ht, Hl.
    apply Z.eqb_neq in Hne. rewrite Hne.
    rewrite (IH fuel _ Hrs (fun r' H => Hends r' (or_intror H)))
      by lia.
    assert (Hrest :
      Some match lookup k rs with
           | Some (offset, _) => current + Z.of_nat (length r) + offset
           | None => 0
           end
      = Some match
               match lookup k rs with
               | Some (offset, r') => Some (Z.of_nat (length r) + offset, r')
               | None => None
               end
             with
             | Some (offset, _) => current + offset
             | None => 0
             end).
    { destruct (lookup k rs) as [[offset r']|]; [f_equal; lia | reflexivity]. }
    unfold remapping.
    destruct (Z.eqb_spec (macro_type r) TYPE_VALID_MACRO) as [Hv | Hv];
      cbn [andb]; [|exact Hrest].
    rewrite (read_key_action_of_macro m current r (S fuel) Hr)
      by (try apply Hends; auto with datatypes; lia).
    destruct (read_key_action (length r) (eeprom_of 0 r) 2) as [kc|] eqn:Ekc.
    + destruct (key_action_eqb k kc); [f_equal; lia | exact Hrest].
    + destruct (read_key_action_macro (eeprom_of 0 r) 0 r (length r))
        as [kc Hkc];
        [apply eeprom_of_holds | apply Hends; auto with datatypes | lia |].
      change (0 + 2) with 2 in Hkc. congruence.
Qed.

(** What [lookup] finds, a compression keeps, not further on than it was. *)
Lemma lookup_compressed k rs : forall skipping,
  match lookup k rs, lookup k (compressed skipping rs) with
  | Some (offset, r), Some (offset', r') =>
      r' = r /\ 0 <= offset' <= offset
  | None, None => True
  | _, _ => False
  end.
Proof.
  induction rs as [|r rs IH]; intros skipping; [exact I|].
  assert (Hdrop : remapping k r = false ->
    match lookup k (r :: rs), lookup k (compressed true rs) with
    | Some (offset, r), Some (offset', r') =>
        r' = r /\ 0 <= offset' <= offset
    | None, None => True
    | _, _ => False
    end).
  { intros E. cbn [lookup]. rewrite E. specialize (IH true).
    destruct (lookup k rs) as [[o r1]|],
      (lookup k (compressed true rs)) as [[o' r1']|]; try assumption.
    destruct IH. split; [assumption | lia]. }
  cbn [compressed]. destruct (deleted r) eqn:Ed.
  { apply Hdrop. destruct (remapping k r) eqn:E; [|reflexivity].
    apply remapping_valid in E. unfold deleted in Ed.
    rewrite E in Ed. discriminate. }
  destruct (skipping && (macro_type r =? TYPE_CONTINUED)) eqn:Ec.
  { apply Hdrop. destruct (remapping k r) eqn:E; [|reflexivity].
    apply remapping_valid in E. rewrite E in Ec.
    now rewrite andb_false_r in Ec. }
  cbn [lookup]. destruct (remapping k r); [split; [reflexivity | lia]|].
  specialize (IH false).
  destruct (lookup k rs) as [[o r1]|],
    (lookup k (compressed false rs)) as [[o' r1']|]; try assumption.
  destruct IH. split; [assumption | lia].
Qed.

Lemma compressed_In rs : forall skipping r,
  In r (compressed skipping rs) -> In r rs.
Proof.
  induction rs as [|r0 rs IH]; intros skipping r H; [contradiction|].
  cbn [compressed] in H. destruct (deleted r0); [right; eapply IH; eauto|].
  destruct (skipping && (macro_type r0 =? TYPE_CONTINUED));
    [right; eapply IH; eauto|].
  destruct H as [-> | H]; [now left | right; eapply IH; eauto].
Qed.

Lemma macros_holds_at m a pre r post :
  macros m a (pre ++ r :: post) -> holds m (a + size pre) r.
Proof.
  intros H. apply macros_app in H. now apply macros_cons in H.
Qed.

Section LookupAfterCompress.

Variable OPT__EEPROM__EEPROM_MACRO__START : Z.
Variable OPT__EEPROM__EEPROM_MACRO__END : Z.
Hypothesis START_nonneg : 0 <= OPT__EEPROM__EEPROM_MACRO__START.
Hypothesis END_max : OPT__EEPROM__EEPROM_MACRO__END <= 1023.

Local Notation "'START'" := OPT__EEPROM__EEPROM_MACRO__START.
Local Notation "'END'" := OPT__EEPROM__EEPROM_MACRO__END.
Local Notation "'MACROS_START'" := (EEMEM_MACROS_START START).
Local Notation "'MACROS_END'" := (EEMEM_MACROS_END END).

(** X4.  [compress] keeps what [find_key_action] finds: a key-action that
    no macro remapped is remapped by none after [compress] and its queued
    operations, and a key-action that was found is found again, in the
    same macro, at the same address or a lower one.  The macro [r] is the
    one of the macros [rs] that was at the address found, after the
    macros [pre]; it is the one of the macros left, which are the macros
    of the EEPROM after the queue, that is at the address found then,
    after the macros [pre']; and its bytes are at both addresses. *)
Theorem compress_keeps_lookups :
  forall (fuel : nat) (st : store) (rs : list (list Z)) (k : key_action_t),
  well_formed MACROS_START MACROS_END st rs ->
  (forall r, In r rs -> macro_type r = TYPE_VALID_MACRO ->
             key_action_ends r = true) ->
  size rs + 1 < Z.of_nat fuel ->
  exists st',
    compress START fuel st = Some st'
    /\ macros (eemem (flush_store st')) MACROS_START (compressed false rs)
    /\ ((find_key_action START fuel (eemem st) k = Some 0
         /\ find_key_action START fuel (eemem (flush_store st')) k = Some 0)
        \/ exists a a' r pre post pre' post',
             rs = pre ++ r :: post
             /\ a = MACROS_START + size pre
             /\ compressed false rs = pre' ++ r :: post'
             /\ a' = MACROS_START + size pre'
             /\ well_formed_macro r = true
             /\ find_key_action START fuel (eemem st) k = Some a
             /\ find_key_action START fuel (eemem (flush_store st')) k
                = Some a'
             /\ 0 < a' <= a
             /\ macro_type r = TYPE_VALID_MACRO
             /\ holds (eemem st) a r
             /\ holds (eemem (flush_store st')) a' r
             /\ remaps (eemem st) a r k
             /\ remaps (eemem (flush_store st')) a' r k).
Proof.
  intros fuel st rs k Hwf Hends Hf.
  destruct (compress_well_formed START END START_nonneg END_max
              fuel st rs Hwf Hf) as (ops & E & _ & Hm').
  destruct Hwf as (_ & Hm & _).
  pose proof (MACROS_START_pos START START_nonneg) as Hpos.
  eexists. split; [exact E|]. cbn [flush_store eemem queue].
  split; [exact Hm'|].
  unfold find_key_action.
  rewrite (find_key_action_loop_lookup (eemem st) k rs) by (assumption || lia).
  rewrite (find_key_action_loop_lookup _ k (compressed false rs)).
  2:{ exact Hm'. }
  2:{ intros r Hin. apply Hends. eapply compressed_In; exact Hin. }
  2:{ pose proof (size_filter_deleted rs false).
      pose proof (size_nonneg (filter deleted rs)). lia. }
  pose proof (lookup_compressed k rs false) as Hl.
  destruct (lookup k rs) as [[o r]|] eqn:E1,
    (lookup k (compressed false rs)) as [[o' r']|] eqn:E2;
    try contradiction; [right | now left].
  destruct Hl as [-> Ho].
  destruct (lookup_some _ _ _ _ E1) as (pre & post & Ers & -> & Hr).
  destruct (lookup_some _ _ _ _ E2) as (pre' & post' & Ers' & -> & _).
  assert (Hin : In r rs) by (rewrite Ers; apply in_elt).
  assert (Hv : macro_type r = TYPE_VALID_MACRO)
    by now apply (remapping_valid k).
  assert (Hwr : well_formed_macro r = true).
  { pose proof (macros_well_formed _ _ _ Hm) as Hall.
    rewrite forallb_forall in Hall. now apply Hall. }
  assert (Hh : holds (eemem st) (MACROS_START + size pre) r)
    by (rewrite Ers in Hm; now apply macros_holds_at in Hm).
  assert (Hh' : holds (flush (eemem st) ops) (MACROS_START + size pre') r)
    by (rewrite Ers' in Hm'; now apply macros_holds_at in Hm').
  assert (Hread : forall m a, holds m a r -> remaps m a r k).
  { intros m a Ha. split; [exact Hv|]. exists (length r).
    rewrite (read_key_action_of_macro m a r (length r) Ha
               (Hends r Hin Hv) (Nat.le_refl _)).
    unfold remapping in Hr. apply andb_prop in Hr as [_ Hr].
    destruct (read_key_action (length r) (eeprom_of 0 r) 2) as [k'|];
      [|discriminate].
    apply key_action_eqb_eq in Hr. now subst k'. }
  exists (MACROS_START + size pre), (MACROS_START + size pre'), r,
    pre, post, pre', post'.
  split; [exact Ers|]. split; [reflexivity|]. split; [exact Ers'|].
  split; [reflexivity|]. split; [exact Hwr|].
  split; [reflexivity|]. split; [reflexivity|]. split; [lia|].
  split; [exact Hv|]. split; [exact Hh|]. split; [exact Hh'|].
  split; [now apply Hread | now apply Hread].
Qed.

End LookupAfterCompress.

(** ** More on the key-action codec *)

Lemma writes_app bs : forall to bs',
  writes to (bs ++ bs')
  = writes to bs ++ writes (to + Z.of_nat (length bs)) bs'.
Proof.
  induction bs as [|b bs IH]; intros to bs'; cbn [writes app length].
  - now rewrite Z.add_0_r.
  - rewrite IH. do 3 f_equal. lia.
Qed.

Lemma writes_targets bs : forall to,
  Forall (fun b => to <= target b < to + Z.of_nat (length bs))
    (flat_map expand (writes to bs)).
Proof.
  induction bs as [|b bs IH]; intros to; [constructor|].
  cbn [writes flat_map expand app length]. constructor.
  - cbn [target]. lia.
  - eapply Forall_impl; [|apply IH]. cbn beta. intros x Hx. lia.
Qed.

Lemma uint8_range x : 0 <= uint8 x < 256.
Proof. unfold uint8. apply Z.mod_pos_bound. lia. Qed.

(** The second loop of [write_key_action] writes a byte, which is a byte,
    to each of the next [4 - i] addresses. *)
Lemma write_pairs_writes n : forall to i byte k,
  0 <= i <= 4 -> 4 - i <= Z.of_nat n ->
  exists bs,
    write_pairs n to i byte k = writes to bs
    /\ Z.of_nat (length bs) = 4 - i
    /\ Forall (fun b => 0 <= b < 256) bs.
Proof.
  induction n as [|n IH]; intros to i byte k Hi Hn.
  - exists []. split; [reflexivity|]. cbn [length].
    split; [lia | constructor].
  - cbn [write_pairs]. destruct (Z.ltb_spec i 4).
    + destruct (IH (to + 1) (i + 1) (Z.shiftl 1 6) (shift_pairs k))
        as (bs & -> & Hlen & Hbs); [lia | lia |].
      eexists (_ :: bs). split; [reflexivity|]. split.
      * cbn [length]. lia.
      * constructor; [apply uint8_range | exact Hbs].
    + exists []. split; [reflexivity|]. cbn [length].
      split; [lia | constructor].
Qed.

Lemma writes_within to bs hi :
  to + Z.of_nat (length bs) <= hi ->
  Forall (fun b => 0 <= b < 256) bs ->
  Forall (writes_byte_within to hi) (writes to bs).
Proof.
  revert to. induction bs as [|b bs IH]; intros to Hhi Hbs; [constructor|].
  inversion Hbs as [|? ? Hb Hbs']; subst. cbn [writes length] in *.
  constructor.
  - cbn. lia.
  - eapply Forall_impl; [|apply (IH (to + 1)); [lia | exact Hbs']].
    intros [a d|]; cbn; [lia | trivial].
Qed.

Section FurtherCodec.

Variable OPT__EEPROM__EEPROM_MACRO__END : Z.
Local Notation "'END'" := OPT__EEPROM__EEPROM_MACRO__END.

(** X5.  [write_key_action] writes bytes, that are bytes, to the
    addresses from [to] up to [to] plus the number it returns, and to no
    other: they are all below [EEMEM_END], which leaves the room for the
    byte of [TYPE_END], and after the queue the EEPROM is as it was
    everywhere else.  This holds for every key-action and every [to]. *)
Theorem write_key_action_within :
  forall (to : Z) (k : key_action_t),
  let written := fst (write_key_action END to k) in
  let ops := snd (write_key_action END to k) in
  0 <= written <= 4
  /\ Z.of_nat (length ops) = written
  /\ Forall (writes_byte_within to (to + written)) ops
  /\ (written <> 0 -> to + written <= EEMEM_END END)
  /\ forall m x, x < to \/ to + written <= x -> flush m ops x = m x.
Proof.
  intros to k. cbv zeta. unfold write_key_action.
  destruct (Z.gtb_spec to (EEMEM_END END - 4)) as [Hgt | Hle].
  - cbn [fst snd length]. split; [lia|]. split; [reflexivity|].
    split; [constructor|]. split; [congruence | reflexivity].
  - pose proof (skip_pairs_range 3 0 k ltac:(lia)) as Hi.
    destruct (skip_pairs 3 0 k) as [i k']. cbn [fst snd] in *.
    replace (uint8 (4 - i)) with (4 - i)
      by (unfold uint8; now rewrite Z.mod_small by lia).
    destruct (write_pairs_writes 4 to i
                (uint8 (Z.shiftl (Z.b2z (pressed k)) 6)) k')
      as (bs & -> & Hlen & Hbs); [lia | lia |].
    rewrite length_writes.
    split; [lia|]. split; [exact Hlen|].
    split; [apply writes_within; [lia | exact Hbs]|].
    split; [lia|].
    intros m x Hx. unfold flush. apply run_other.
    eapply Forall_impl; [|apply writes_targets]. cbn beta. lia.
Qed.

(** X6.  Key-actions written one after the other are read back one after
    the other: where the second is written at the address after the last
    byte of the first, [read_key_action] gives the first at its address
    and the second at its own. *)
Theorem codec_round_trip_sequence :
  forall (m : eeprom) (to : Z) (k1 k2 : key_action_t) (fuel : nat),
  uint8_fields k1 -> uint8_fields k2 ->
  let to2 := to + fst (write_key_action END to k1) in
  to2 <= EEMEM_END END - 4 ->
  (3 <= fuel)%nat ->
  let m' := flush m (snd (write_key_action END to k1)
                     ++ snd (write_key_action END to2 k2)) in
  fst (write_key_action END to k1) <> 0
  /\ fst (write_key_action END to2 k2) <> 0
  /\ read_key_action fuel m' to = Some k1
  /\ read_key_action fuel m' to2 = Some k2.
Proof.
  intros m to k1 k2 fuel Hk1 Hk2 to2 Hto2 Hf m'.
  destruct (leading_zero_pairs_bound k1 Hk1) as [Hs1 Hb1].
  destruct (leading_zero_pairs_bound k2 Hk2) as [Hs2 Hb2].
  assert (Hto : to <= EEMEM_END END - 4).
  { subst to2. unfold write_key_action in Hto2.
    destruct (Z.gtb_spec to (EEMEM_END END - 4)); [|assumption].
    cbn [fst] in Hto2. lia. }
  subst m'. subst to2.
  rewrite (write_key_action_success END to k1) in * by assumption.
  cbn [fst snd] in *.
  rewrite (write_key_action_success END _ k2) by assumption.
  cbn [fst snd].
  split; [lia|]. split; [lia|].
  apply all_below_true in Hb1, Hb2.
  destruct Hk1 as (Hl1 & Hr1 & Hc1), Hk2 as (Hl2 & Hr2 & Hc2).
  remember (leading_zero_pairs k1) as s1.
  remember (leading_zero_pairs k2) as s2.
  replace (4 - s1)%nat with (S (3 - s1)) in * by lia.
  replace (4 - s2)%nat with (S (3 - s2)) in * by lia.
  rewrite flush_app. split.
  - rewrite (read_key_action_bytes (3 - s1) k1 (pressed k1)); try lia.
    + now destruct k1.
    + eapply holds_ext; [|apply flush_writes_holds].
      intros x Hx. rewrite length_key_action_bytes in Hx.
      apply flush_writes_below. lia.
  - rewrite (read_key_action_bytes (3 - s2) k2 (pressed k2)); try lia.
    + now destruct k2.
    + apply flush_writes_holds.
Qed.

End FurtherCodec.

(** The pairs read so far, shifted, and a new pair: a [uint8_t] again. *)
Lemma lor_pair_range acc byte j :
  0 <= Z.lor (uint8 (Z.shiftl acc 2)) (Z.land (Z.shiftr byte j) 3) < 256.
Proof.
  pose proof (uint8_range (Z.shiftl acc 2)) as Ha.
  assert (Hg : 0 <= Z.land (Z.shiftr byte j) 3 <= 3).
  { generalize (Z.shiftr byte j). intros y.
    replace (Z.land y 3) with (y mod 4)
      by (symmetry; apply (Z.land_ones y 2); lia).
    Z.div_mod_to_equations; lia. }
  generalize dependent (Z.land (Z.shiftr byte j) 3).
  generalize dependent (uint8 (Z.shiftl acc 2)). clear. intros a Ha g Hg.
  assert (E : (0 <=? Z.lor a g) && (Z.lor a g <? 256) = true).
  { pair_cases g;
      [apply (uint8_forall (fun a => (0 <=? Z.lor a 0) && (Z.lor a 0 <? 256)))
      |apply (uint8_forall (fun a => (0 <=? Z.lor a 1) && (Z.lor a 1 <? 256)))
      |apply (uint8_forall (fun a => (0 <=? Z.lor a 2) && (Z.lor a 2 <? 256)))
      |apply (uint8_forall (fun a => (0 <=? Z.lor a 3) && (Z.lor a 3 <? 256)))];
      solve [vm_compute; reflexivity | exact Ha]. }
  apply andb_prop in E as [E1 E2]. lia.
Qed.

Lemma land_pair_range byte j : 0 <= Z.land (Z.shiftr byte j) 3 < 256.
Proof.
  generalize (Z.shiftr byte j). intros y.
  replace (Z.land y 3) with (y mod 4)
    by (symmetry; apply (Z.land_ones y 2); lia).
  Z.div_mod_to_equations; lia.
Qed.

Lemma read_key_action_loop_uint8 fuel : forall m from byte acc k,
  uint8_fields acc ->
  read_key_action_loop fuel m from byte acc = Some k ->
  uint8_fields k.
Proof.
  induction fuel as [|fuel IH]; intros m from byte acc k Hacc H;
    cbn [read_key_action_loop] in H;
    destruct (Z.shiftr byte 7 =? 0);
    try (injection H as <-; exact Hacc); try discriminate.
  eapply IH; [|exact H].
  unfold uint8_fields, or_pairs, shift_pairs. cbn [layer row column].
  repeat split; apply lor_pair_range.
Qed.

(** X7.  Whatever the EEPROM holds, and however long the chain of
    continued bytes is, a key-action that [read_key_action] returns has its
    layer, row and column in [0, 255]. *)
Theorem read_key_action_uint8 :
  forall (fuel : nat) (m : eeprom) (from : Z) (k : key_action_t),
  read_key_action fuel m from = Some k ->
  uint8_fields k.
Proof.
  intros fuel m from k H. unfold read_key_action in H.
  eapply read_key_action_loop_uint8; [|exact H].
  unfold uint8_fields. cbn [layer row column].
  repeat split; apply land_pair_range.
Qed.

(** ** The navigators on any EEPROM *)

(** X8.  Whatever the EEPROM holds, an address other than 0 that
    [find_next_deleted] returns has [TYPE_DELETED] as its type, and an
    address that [find_next_nondeleted] returns has a type that is neither
    [TYPE_DELETED] nor [TYPE_CONTINUED]; called again on what it returned,
    each returns it at once, as [compress] expects of
    [find_next_nondeleted] in the first round of its loop. *)
Theorem navigators_sound :
  forall (fuel : nat) (m : eeprom) (start a : Z),
  (find_next_deleted fuel m start = Some a -> a <> 0 ->
   eeprom__read m a = TYPE_DELETED
   /\ forall fuel', find_next_deleted (S fuel') m a = Some a)
  /\ (find_next_nondeleted fuel m start = Some a ->
      eeprom__read m a <> TYPE_DELETED
      /\ eeprom__read m a <> TYPE_CONTINUED
      /\ forall fuel', find_next_nondeleted (S fuel') m a = Some a).
Proof.
  induction fuel as [|fuel IH]; intros m start a;
    (split; [intros H Ha | intros H]); try discriminate.
  - cbn [find_next_deleted] in H.
    destruct (eeprom__read m start =? TYPE_END) eqn:Ee;
      [injection H as <-; contradiction|].
    destruct (Z.eqb_spec (eeprom__read m start) TYPE_DELETED) as [Ed | Ed].
    + injection H as <-. split; [exact Ed|].
      intros fuel'. cbn [find_next_deleted]. rewrite Ee, Ed. reflexivity.
    + exact (proj1 (IH m _ a) H Ha).
  - cbn [find_next_nondeleted] in H.
    destruct (Z.eqb_spec (eeprom__read m start) TYPE_DELETED) as [Ed | Ed];
      cbn [orb] in H; [exact (proj2 (IH m _ a) H)|].
    destruct (Z.eqb_spec (eeprom__read m start) TYPE_CONTINUED) as [Ec | Ec];
      [exact (proj2 (IH m _ a) H)|].
    injection H as <-. split; [exact Ed|]. split; [exact Ec|].
    intros fuel'. cbn [find_next_nondeleted].
    apply Z.eqb_neq in Ed, Ec. now rewrite Ed, Ec.
Qed.

Section LookupAnywhere.

Variable OPT__EEPROM__EEPROM_MACRO__START : Z.
Local Notation "'START'" := OPT__EEPROM__EEPROM_MACRO__START.

Lemma find_key_action_loop_sound fuel : forall m current k a,
  find_key_action_loop fuel m current k = Some a -> a <> 0 ->
  eeprom__read m a = TYPE_VALID_MACRO
  /\ exists fuel', read_key_action fuel' m (a + 2) = Some k.
Proof.
  induction fuel as [|fuel IH]; intros m current k a H Ha; [discriminate|].
  cbn [find_key_action_loop] in H.
  destruct (eeprom__read m current =? TYPE_END);
    [injection H as <-; contradiction|].
  destruct (Z.eqb_spec (eeprom__read m current) TYPE_VALID_MACRO)
    as [Ev | Ev]; [|exact (IH _ _ _ _ H Ha)].
  destruct (read_key_action (S fuel) m (current + 2)) as [kc|] eqn:Ekc;
    [|discriminate].
  destruct (key_action_eqb k kc) eqn:Ek; [|exact (IH _ _ _ _ H Ha)].
  injection H as <-. apply key_action_eqb_eq in Ek. subst kc.
  split; [exact Ev | now exists (S fuel)].
Qed.

(** X9.  Whatever the EEPROM holds, an address other than 0 that
    [find_key_action] returns is the address of a macro of
    [TYPE_VALID_MACRO] whose first key-action, two bytes further, reads as
    the key-action looked for: it never returns a deleted or a continued
    macro. *)
Theorem find_key_action_sound :
  forall (fuel : nat) (m : eeprom) (k : key_action_t) (a : Z),
  find_key_action START fuel m k = Some a -> a <> 0 ->
  eeprom__read m a = TYPE_VALID_MACRO
  /\ exists fuel', read_key_action fuel' m (a + 2) = Some k.
Proof.
  intros fuel m k a. unfold find_key_action.
  apply find_key_action_loop_sound.
Qed.

End LookupAnywhere.

(** ** The copies of compress *)

(** X10.  The [for] loop of [compress] copies the bytes from [to_compress]
    up to [next] in the least number of chunks of 255 bytes at most: every
    copy it queues has 1 to 255 bytes, there are as many copies as 255
    goes into the number of bytes, rounded up, and together they move
    each byte once, in order; [to_overwrite] ends that number of bytes
    further. *)
Theorem compress_copy_chunks :
  forall (fuel : nat) (to_overwrite to_compress next : Z),
  0 <= next - to_compress < 65536 ->
  (Z.to_nat (next - to_compress) <= fuel)%nat ->
  exists ops,
    compress_copy fuel to_overwrite to_compress next
    = Some (ops, to_overwrite + (next - to_compress))
    /\ Forall is_chunk ops
    /\ Z.of_nat (length ops) = (next - to_compress + 254) / 255
    /\ flat_map expand ops
       = moves to_overwrite to_compress (Z.to_nat (next - to_compress)).
Proof.
  induction fuel as [|fuel IH]; intros to tc next Hn Hf.
  - assert (E : next - tc = 0) by lia. exists [].
    cbn [compress_copy]. unfold uint16. rewrite E. cbn.
    rewrite Z.add_0_r. auto.
  - cbn [compress_copy]. unfold uint16. rewrite Z.mod_small by lia.
    destruct (Z.eqb_spec (next - tc) 0) as [E | E].
    + exists []. rewrite E, Z.add_0_r. cbn. auto.
    + set (len := if next - tc >? UINT8_MAX then UINT8_MAX else next - tc).
      assert (Hlen : 0 < len <= next - tc /\ len <= 255
                     /\ (len = 255 \/ len = next - tc)).
      { subst len. unfold UINT8_MAX.
        destruct (Z.gtb_spec (next - tc) 255); lia. }
      destruct (IH (to + len) (tc + len) next) as (ops & E1 & E2 & E3 & E4);
        [lia | lia |].
      rewrite E1. exists (eeprom__copy to tc len :: ops).
      split; [do 2 f_equal; lia|]. split; [|split].
      * constructor; [cbn; unfold UINT8_MAX; lia | exact E2].
      * cbn [length]. rewrite Nat2Z.inj_succ, E3.
        replace (next - (tc + len)) with (next - tc - len) by lia.
        clear - Hlen Hn. Z.div_mod_to_equations. lia.
      * cbn [flat_map eeprom__copy expand]. rewrite E4.
        replace (Z.to_nat (next - tc))
          with (Z.to_nat len + Z.to_nat (next - (tc + len)))%nat by lia.
        rewrite moves_app. do 2 f_equal; lia.
Qed.

(** ** Key-actions of more than four bytes *)

Lemma land_3_range y : 0 <= Z.land y 3 <= 3.
Proof.
  replace (Z.land y 3) with (y mod 4)
    by (symmetry; apply (Z.land_ones y 2); lia).
  Z.div_mod_to_equations; lia.
Qed.

(** After four rounds nothing is left of what the field was. *)
Lemma push_pair_4 a g1 g2 g3 g4 :
  0 <= a <= 3 -> 0 <= g1 <= 3 -> 0 <= g2 <= 3 -> 0 <= g3 <= 3 ->
  0 <= g4 <= 3 ->
  push_pair (push_pair (push_pair (push_pair a g1) g2) g3) g4
  = push_pair (push_pair (push_pair g1 g2) g3) g4.
Proof.
  intros Ha H1 H2 H3 H4.
  pair_cases a; pair_cases g1; pair_cases g2; pair_cases g3; pair_cases g4;
    reflexivity.
Qed.

Lemma same_key_or_pairs acc acc' byte :
  same_key acc acc' ->
  same_key (or_pairs (shift_pairs acc) byte)
    (or_pairs (shift_pairs acc') byte).
Proof.
  intros (Hl & Hr & Hc). unfold same_key, or_pairs, shift_pairs.
  cbn [layer row column]. now rewrite Hl, Hr, Hc.
Qed.

(** The loop of [read_key_action] does the same to the same layer, row
    and column. *)
Lemma read_key_action_loop_same_key fuel : forall m from byte acc acc' k,
  same_key acc acc' ->
  read_key_action_loop fuel m from byte acc = Some k ->
  exists k',
    read_key_action_loop fuel m from byte acc' = Some k' /\ same_key k k'.
Proof.
  induction fuel as [|fuel IH]; intros m from byte acc acc' k Hacc H;
    cbn [read_key_action_loop] in *;
    destruct (Z.shiftr byte 7 =? 0);
    try (injection H as <-; now exists acc'); try discriminate.
  eapply IH; [|exact H]. now apply same_key_or_pairs.
Qed.

Lemma read_key_action_loop_step fuel m from byte acc :
  (Z.shiftr byte 7 =? 0) = false ->
  read_key_action_loop (S fuel) m from byte acc
  = read_key_action_loop fuel m (from + 1) (eeprom__read m from)
      (or_pairs (shift_pairs acc) (eeprom__read m from)).
Proof. intros H. cbn [read_key_action_loop]. now rewrite H. Qed.

(** The loop of [read_key_action] leaves [pressed] as it is. *)
Lemma read_key_action_loop_pressed fuel : forall m from byte acc k,
  read_key_action_loop fuel m from byte acc = Some k ->
  pressed k = pressed acc.
Proof.
  induction fuel as [|fuel IH]; intros m from byte acc k H;
    cbn [read_key_action_loop] in H;
    destruct (Z.shiftr byte 7 =? 0);
    try (injection H as <-; reflexivity); try discriminate.
  now rewrite (IH _ _ _ _ _ H).
Qed.

(** X11.  [read_key_action] does not check that a key-action has four
    bytes at most: where the byte at [from] and the three bytes after it
    are all continued, what it reads from [from] has the layer, row and
    column of what it reads from [from + 1]; the pairs of bits of the byte
    at [from] are shifted out. *)
Theorem read_key_action_overlong :
  forall (fuel : nat) (m : eeprom) (from : Z) (k : key_action_t),
  Z.shiftr (eeprom__read m from) 7 <> 0 ->
  Z.shiftr (eeprom__read m (from + 1)) 7 <> 0 ->
  Z.shiftr (eeprom__read m (from + 2)) 7 <> 0 ->
  Z.shiftr (eeprom__read m (from + 3)) 7 <> 0 ->
  read_key_action fuel m from = Some k ->
  exists k',
    read_key_action fuel m (from + 1) = Some k'
    /\ same_key k k'
    /\ pressed k = negb (Z.land (Z.shiftr (eeprom__read m from) 6) 1 =? 0).
Proof.
  intros fuel m from k H0 H1 H2 H3 H.
  apply Z.eqb_neq in H0, H1, H2, H3.
  replace (from + 2) with (from + 1 + 1) in H2 by lia.
  replace (from + 3) with (from + 1 + 1 + 1) in H3 by lia.
  unfold read_key_action in *.
  destruct fuel as [|fuel];
    [cbn [read_key_action_loop] in H; rewrite H0 in H; discriminate|].
  rewrite (read_key_action_loop_step _ _ _ _ _ H0) in H.
  destruct fuel as [|fuel];
    [cbn [read_key_action_loop] in H; rewrite H1 in H; discriminate|].
  rewrite (read_key_action_loop_step _ _ _ _ _ H1) in H.
  destruct fuel as [|fuel];
    [cbn [read_key_action_loop] in H; rewrite H2 in H; discriminate|].
  rewrite (read_key_action_loop_step _ _ _ _ _ H2) in H.
  destruct fuel as [|fuel];
    [cbn [read_key_action_loop] in H; rewrite H3 in H; discriminate|].
  rewrite (read_key_action_loop_step _ _ _ _ _ H3) in H.
  rewrite (read_key_action_loop_step _ _ _ _ _ H1).
  rewrite (read_key_action_loop_step _ _ _ _ _ H2).
  rewrite (read_key_action_loop_step _ _ _ _ _ H3).
  match type of H with
  | read_key_action_loop _ _ _ _ ?acc = _ => set (acc4 := acc) in H
  end.
  match goal with
  | |- exists k', read_key_action_loop _ _ _ _ ?acc = _ /\ _ =>
      set (acc3 := acc)
  end.
  assert (Hsame : same_key acc4 acc3).
  { subst acc4 acc3. unfold same_key, or_pairs, shift_pairs.
    cbn [layer row column].
    repeat split;
      apply (push_pair_4 (Z.land _ 3) (Z.land _ 3) (Z.land _ 3)
               (Z.land _ 3) (Z.land _ 3));
      apply land_3_range. }
  destruct (read_key_action_loop_same_key _ _ _ _ _ acc3 _ Hsame H)
    as (k' & Hk' & Hkk').
  exists k'. split; [|split; [exact Hkk'|]].
  - apply (read_key_action_loop_more fuel); [lia | exact Hk'].
  - rewrite (read_key_action_loop_pressed _ _ _ _ _ _ H).
    reflexivity.
Qed.

(** ** Lookup and the bytes outside the macros *)

Section LookupFrame.

Variable OPT__EEPROM__EEPROM_MACRO__START : Z.
Local Notation "'START'" := OPT__EEPROM__EEPROM_MACRO__START.
Local Notation "'MACROS_START'" := (EEMEM_MACROS_START START).

(** X12.  [find_key_action] depends on the macros only: on two EEPROMs
    that hold the same well-formed macros from [EEMEM_MACROS_START] to the
    macro with [type == TYPE_END], whatever else they hold, it returns the
    same address. *)
Theorem find_key_action_frame :
  forall (fuel : nat) (m m' : eeprom) (rs : list (list Z))
         (k : key_action_t),
  macros m MACROS_START rs ->
  macros m' MACROS_START rs ->
  (forall r, In r rs -> macro_type r = TYPE_VALID_MACRO ->
             key_action_ends r = true) ->
  size rs < Z.of_nat fuel ->
  find_key_action START fuel m k = find_key_action START fuel m' k.
Proof.
  intros fuel m m' rs k Hm Hm' Hends Hf. unfold find_key_action.
  now rewrite (find_key_action_loop_lookup m k rs),
    (find_key_action_loop_lookup m' k rs).
Qed.

End LookupFrame.

Section SizeOfKeyAction.

Variable OPT__EEPROM__EEPROM_MACRO__END : Z.
Local Notation "'END'" := OPT__EEPROM__EEPROM_MACRO__END.

(** X13.  The number of bytes of a key-action, by the size of its fields:
    [write_key_action] writes 1 byte exactly when layer, row and column
    are all below 4, 2 bytes at most exactly when they are all below 16,
    and 3 bytes at most exactly when they are all below 64. *)
Theorem write_key_action_size :
  forall (to : Z) (k : key_action_t),
  uint8_fields k ->
  to <= EEMEM_END END - 4 ->
  let written := fst (write_key_action END to k) in
  (written = 1 <-> layer k < 4 /\ row k < 4 /\ column k < 4)
  /\ (written <= 2 <-> layer k < 16 /\ row k < 16 /\ column k < 16)
  /\ (written <= 3 <-> layer k < 64 /\ row k < 64 /\ column k < 64).
Proof.
  intros to k Hk Hto written. subst written.
  rewrite write_key_action_success by assumption. cbn [fst].
  rewrite leading_zero_pairs_below by exact Hk.
  rewrite <- !all_below_true.
  destruct (all_below k 4) eqn:E4.
  { rewrite (all_below_mono k 4 16), (all_below_mono k 4 64)
      by (assumption || lia).
    cbn. repeat split; (reflexivity || lia). }
  destruct (all_below k 16) eqn:E16.
  { rewrite (all_below_mono k 16 64) by (assumption || lia).
    cbn. repeat split; try (reflexivity || lia); intros; discriminate. }
  destruct (all_below k 64) eqn:E64; cbn;
    repeat split; try (reflexivity || lia); intros; discriminate.
Qed.

End SizeOfKeyAction.

(** ** The further properties at work on the examples *)

Lemma example_fuel : size example_macros + 1 < Z.of_nat 20.
Proof. vm_compute. reflexivity. Qed.

Lemma example_START : 0 <= 0.
Proof. lia. Qed.

Lemma example_END : 1023 <= 1023.
Proof. lia. Qed.

Lemma compress_result_witness :
  well_formed (EEMEM_MACROS_START 0) (EEMEM_MACROS_END 1023)
    example_store example_macros
  /\ size example_macros + 1 < Z.of_nat 20
  /\ exists st',
       compress 0 20 example_store = Some st'
       /\ macros (eemem (flush_store st')) (EEMEM_MACROS_START 0)
            (compressed false example_macros)
       /\ subsequence (compressed false example_macros) example_macros
       /\ (forall r, In r example_macros ->
                     macro_type r = TYPE_VALID_MACRO ->
                     In r (compressed false example_macros))
       /\ forallb (fun r => negb (deleted r))
            (compressed false example_macros) = true.
Proof.
  split; [exact example_well_formed|]. split; [exact example_fuel|].
  exact (compress_result 0 1023 example_START example_END 20 example_store
           example_macros example_well_formed example_fuel).
Defined.

Lemma compress_frees_deleted_witness :
  well_formed (EEMEM_MACROS_START 0) (EEMEM_MACROS_END 1023)
    example_store example_macros
  /\ size example_macros + 1 < Z.of_nat 20
  /\ exists st' new_end,
       compress 0 20 example_store = Some st'
       /\ eeprom__read (eemem (flush_store st')) new_end = TYPE_END
       /\ new_end
          = EEMEM_MACROS_START 0 + size (compressed false example_macros)
       /\ new_end + size (filter deleted example_macros)
          <= end_macro example_store
       /\ (forallb deleted example_macros = true ->
           new_end = EEMEM_MACROS_START 0).
Proof.
  split; [exact example_well_formed|]. split; [exact example_fuel|].
  exact (compress_frees_deleted 0 1023 example_START example_END 20
           example_store example_macros example_well_formed example_fuel).
Defined.

Lemma compress_writes_within_witness :
  well_formed (EEMEM_MACROS_START 0) (EEMEM_MACROS_END 1023)
    example_store example_macros
  /\ size example_macros + 1 < Z.of_nat 20
  /\ exists st',
       compress 0 20 example_store = Some st'
       /\ forall x,
            x < EEMEM_MACROS_START 0 + size (before_deleted example_macros)
            \/ end_macro example_store <= x ->
            eemem (flush_store st') x = eemem example_store x.
Proof.
  split; [exact example_well_formed|]. split; [exact example_fuel|].
  exact (compress_writes_within 0 1023 example_START example_END 20
           example_store example_macros example_well_formed example_fuel).
Defined.

Lemma compress_keeps_lookups_witness :
  well_formed (EEMEM_MACROS_START 0) (EEMEM_MACROS_END 1023)
    example_store example_macros
  /\ (forall r, In r example_macros -> macro_type r = TYPE_VALID_MACRO ->
                key_action_ends r = true)
  /\ size example_macros + 1 < Z.of_nat 20
  /\ exists st',
       compress 0 20 example_store = Some st'
       /\ macros (eemem (flush_store st')) (EEMEM_MACROS_START 0)
            (compressed false example_macros)
       /\ ((find_key_action 0 20 (eemem example_store) example_first_C
            = Some 0
            /\ find_key_action 0 20 (eemem (flush_store st'))
                 example_first_C = Some 0)
           \/ exists a a' r pre post pre' post',
                example_macros = pre ++ r :: post
                /\ a = EEMEM_MACROS_START 0 + size pre
                /\ compressed false example_macros = pre' ++ r :: post'
                /\ a' = EEMEM_MACROS_START 0 + size pre'
                /\ well_formed_macro r = true
                /\ find_key_action 0 20 (eemem example_store)
                     example_first_C = Some a
                /\ find_key_action 0 20 (eemem (flush_store st'))
                     example_first_C = Some a'
                /\ 0 < a' <= a
                /\ macro_type r = TYPE_VALID_MACRO
                /\ holds (eemem example_store) a r
                /\ holds (eemem (flush_store st')) a' r
                /\ remaps (eemem example_store) a r example_first_C
                /\ remaps (eemem (flush_store st')) a' r example_first_C).
Proof.
  split; [exact example_well_formed|].
  split; [exact example_key_actions_end|]. split; [exact example_fuel|].
  exact (compress_keeps_lookups 0 1023 example_START example_END 20
           example_store example_macros example_first_C example_well_formed
           example_key_actions_end example_fuel).
Defined.

(** On the example, the macro found at 11 is found at 8 after [compress]. *)
Example compress_moves_lookup :
  find_key_action 0 20 example_eeprom example_first_C = Some 11
  /\ match compress 0 20 example_store with
     | Some st' =>
         find_key_action 0 20 (eemem (flush_store st')) example_first_C
         = Some 8
     | None => False
     end.
Proof. split; vm_compute; reflexivity. Qed.

Lemma write_key_action_within_witness :
  fst (write_key_action 1023 5 example_key_action) <> 0
  /\ 0 <= fst (write_key_action 1023 5 example_key_action) <= 4
  /\ Z.of_nat (length (snd (write_key_action 1023 5 example_key_action)))
     = fst (write_key_action 1023 5 example_key_action)
  /\ Forall
       (writes_byte_within 5
          (5 + fst (write_key_action 1023 5 example_key_action)))
       (snd (write_key_action 1023 5 example_key_action))
  /\ 5 + fst (write_key_action 1023 5 example_key_action) <= EEMEM_END 1023
  /\ forall m x,
       x < 5 \/ 5 + fst (write_key_action 1023 5 example_key_action) <= x ->
       flush m (snd (write_key_action 1023 5 example_key_action)) x = m x.
Proof.
  assert (Hn : fst (write_key_action 1023 5 example_key_action) <> 0)
    by (vm_compute; discriminate).
  destruct (write_key_action_within 1023 5 example_key_action)
    as (H1 & H2 & H3 & H4 & H5).
  split; [exact Hn|]. split; [exact H1|]. split; [exact H2|].
  split; [exact H3|]. split; [exact (H4 Hn) | exact H5].
Defined.

Lemma example_first_C_uint8 : uint8_fields example_first_C.
Proof. unfold uint8_fields. cbn. lia. Qed.

Lemma codec_round_trip_sequence_witness :
  uint8_fields example_key_action
  /\ uint8_fields example_first_C
  /\ 5 + fst (write_key_action 1023 5 example_key_action)
     <= EEMEM_END 1023 - 4
  /\ (3 <= 3)%nat
  /\ fst (write_key_action 1023 5 example_key_action) <> 0
  /\ fst (write_key_action 1023
            (5 + fst (write_key_action 1023 5 example_key_action))
            example_first_C) <> 0
  /\ read_key_action 3
       (flush example_eeprom
          (snd (write_key_action 1023 5 example_key_action)
           ++ snd (write_key_action 1023
                     (5 + fst (write_key_action 1023 5 example_key_action))
                     example_first_C))) 5
     = Some example_key_action
  /\ read_key_action 3
       (flush example_eeprom
          (snd (write_key_action 1023 5 example_key_action)
           ++ snd (write_key_action 1023
                     (5 + fst (write_key_action 1023 5 example_key_action))
                     example_first_C)))
       (5 + fst (write_key_action 1023 5 example_key_action))
     = Some example_first_C.
Proof.
  assert (H3 : 5 + fst (write_key_action 1023 5 example_key_action)
               <= EEMEM_END 1023 - 4) by (vm_compute; discriminate).
  assert (H4 : (3 <= 3)%nat) by lia.
  split; [exact example_uint8_fields|].
  split; [exact example_first_C_uint8|].
  split; [exact H3|]. split; [exact H4|].
  exact (codec_round_trip_sequence 1023 example_eeprom 5 example_key_action
           example_first_C 3 example_uint8_fields example_first_C_uint8
           H3 H4).
Defined.

Lemma read_key_action_uint8_witness :
  read_key_action 4 example_overlong 0
  = Some {| pressed := true; layer := 16; row := 101; column := 143 |}
  /\ uint8_fields
       {| pressed := true; layer := 16; row := 101; column := 143 |}.
Proof.
  assert (H : read_key_action 4 example_overlong 0
              = Some {| pressed := true; layer := 16; row := 101;
                        column := 143 |}) by reflexivity.
  split; [exact H|].
  exact (read_key_action_uint8 4 example_overlong 0 _ H).
Defined.

Lemma navigators_sound_witness :
  find_next_deleted 4 example_eeprom 5 = Some 8
  /\ 8 <> 0
  /\ find_next_nondeleted 4 example_eeprom 8 = Some 11
  /\ (eeprom__read example_eeprom 8 = TYPE_DELETED
      /\ forall fuel', find_next_deleted (S fuel') example_eeprom 8 = Some 8)
  /\ eeprom__read example_eeprom 11 <> TYPE_DELETED
  /\ eeprom__read example_eeprom 11 <> TYPE_CONTINUED
  /\ forall fuel', find_next_nondeleted (S fuel') example_eeprom 11 = Some 11.
Proof.
  assert (H1 : find_next_deleted 4 example_eeprom 5 = Some 8)
    by reflexivity.
  assert (H2 : 8 <> 0) by discriminate.
  assert (H3 : find_next_nondeleted 4 example_eeprom 8 = Some 11)
    by reflexivity.
  split; [exact H1|]. split; [exact H2|]. split; [exact H3|].
  split; [exact (proj1 (navigators_sound 4 example_eeprom 5 8) H1 H2)|].
  exact (proj2 (navigators_sound 4 example_eeprom 8 11) H3).
Defined.

Lemma find_key_action_sound_witness :
  find_key_action 0 20 example_eeprom example_first_C = Some 11
  /\ 11 <> 0
  /\ eeprom__read example_eeprom 11 = TYPE_VALID_MACRO
  /\ exists fuel',
       read_key_action fuel' example_eeprom (11 + 2) = Some example_first_C.
Proof.
  assert (H1 : find_key_action 0 20 example_eeprom example_first_C
               = Some 11) by reflexivity.
  assert (H2 : 11 <> 0) by discriminate.
  split; [exact H1|]. split; [exact H2|].
  exact (find_key_action_sound 0 20 example_eeprom example_first_C 11
           H1 H2).
Defined.

Lemma compress_copy_chunks_witness :
  0 <= 700 - 200 < 65536
  /\ (Z.to_nat (700 - 200) <= 500)%nat
  /\ exists ops,
       compress_copy 500 100 200 700 = Some (ops, 100 + (700 - 200))
       /\ Forall is_chunk ops
       /\ Z.of_nat (length ops) = (700 - 200 + 254) / 255
       /\ flat_map expand ops = moves 100 200 (Z.to_nat (700 - 200)).
Proof.
  assert (H1 : 0 <= 700 - 200 < 65536) by lia.
  assert (H2 : (Z.to_nat (700 - 200) <= 500)%nat) by lia.
  split; [exact H1|]. split; [exact H2|].
  exact (compress_copy_chunks 500 100 200 700 H1 H2).
Defined.

Example compress_copy_example :
  compress_copy 3 100 200 700
  = Some ([Copy 100 200 255; Copy 355 455 245], 600).
Proof. reflexivity. Qed.

Lemma read_key_action_overlong_witness :
  Z.shiftr (eeprom__read example_overlong 0) 7 <> 0
  /\ Z.shiftr (eeprom__read example_overlong (0 + 1)) 7 <> 0
  /\ Z.shiftr (eeprom__read example_overlong (0 + 2)) 7 <> 0
  /\ Z.shiftr (eeprom__read example_overlong (0 + 3)) 7 <> 0
  /\ read_key_action 4 example_overlong 0
     = Some {| pressed := true; layer := 16; row := 101; column := 143 |}
  /\ exists k',
       read_key_action 4 example_overlong (0 + 1) = Some k'
       /\ same_key
            {| pressed := true; layer := 16; row := 101; column := 143 |} k'
       /\ pressed
            {| pressed := true; layer := 16; row := 101; column := 143 |}
          = negb (Z.land (Z.shiftr (eeprom__read example_overlong 0) 6) 1
                  =? 0).
Proof.
  assert (H0 : Z.shiftr (eeprom__read example_overlong 0) 7 <> 0)
    by (vm_compute; discriminate).
  assert (H1 : Z.shiftr (eeprom__read example_overlong (0 + 1)) 7 <> 0)
    by (vm_compute; discriminate).
  assert (H2 : Z.shiftr (eeprom__read example_overlong (0 + 2)) 7 <> 0)
    by (vm_compute; discriminate).
  assert (H3 : Z.shiftr (eeprom__read example_overlong (0 + 3)) 7 <> 0)
    by (vm_compute; discriminate).
  assert (H : read_key_action 4 example_overlong 0
              = Some {| pressed := true; layer := 16; row := 101;
                        column := 143 |}) by reflexivity.
  split; [exact H0|]. split; [exact H1|]. split; [exact H2|].
  split; [exact H3|]. split; [exact H|].
  exact (read_key_action_overlong 4 example_overlong 0 _ H0 H1 H2 H3 H).
Defined.

Lemma example_macros_in_stale :
  macros example_eeprom_stale (EEMEM_MACROS_START 0) example_macros.
Proof. split; [reflexivity|]. vm_compute. repeat split. Qed.

Lemma find_key_action_frame_witness :
  macros example_eeprom (EEMEM_MACROS_START 0) example_macros
  /\ macros example_eeprom_stale (EEMEM_MACROS_START 0) example_macros
  /\ (forall r, In r example_macros -> macro_type r = TYPE_VALID_MACRO ->
                key_action_ends r = true)
  /\ size example_macros < Z.of_nat 20
  /\ find_key_action 0 20 example_eeprom example_first_C
     = find_key_action 0 20 example_eeprom_stale example_first_C.
Proof.
  assert (H : size example_macros < Z.of_nat 20)
    by (vm_compute; reflexivity).
  split; [exact example_macros_in_eeprom|].
  split; [exact example_macros_in_stale|].
  split; [exact example_key_actions_end|]. split; [exact H|].
  exact (find_key_action_frame 0 20 example_eeprom example_eeprom_stale
           example_macros example_first_C example_macros_in_eeprom
           example_macros_in_stale example_key_actions_end H).
Defined.

Lemma write_key_action_size_witness :
  uint8_fields example_key_action
  /\ 5 <= EEMEM_END 1023 - 4
  /\ (fst (write_key_action 1023 5 example_key_action) = 1
      <-> layer example_key_action < 4 /\ row example_key_action < 4
          /\ column example_key_action < 4)
  /\ (fst (write_key_action 1023 5 example_key_action) <= 2
      <-> layer example_key_action < 16 /\ row example_key_action < 16
          /\ column example_key_action < 16)
  /\ (fst (write_key_action 1023 5 example_key_action) <= 3
      <-> layer example_key_action < 64 /\ row example_key_action < 64
          /\ column example_key_action < 64).
Proof.
  assert (H2 : 5 <= EEMEM_END 1023 - 4) by (unfold EEMEM_END; lia).
  split; [exact example_uint8_fields|]. split; [exact H2|].
  exact (write_key_action_size 1023 5 example_key_action
           example_uint8_fields H2).
Defined.
